(** * A shallow embedding of the multiplayer snake server

    The repository holds three generations of the same server:
    - [src/unnamed/part_000]: the first one ([moveSnake], [resetPlayer],
      no [alive] flag, grid of 20), followed by an unrelated colour toggle;
    - [src/server.js]: the second one (the [alive] flag, [nextDirection],
      an unbounded [generateFood], no [try]/[catch]);
    - [src/unnamed/part_001]: the third one ([pendingDirection] with the
      reversal guard in the message handler, [FOOD_SCORE], the bounded
      [generateFood], [try]/[catch] around the handler and the game loop).

    [Module Part001] embeds the third generation in full: it is the one
    that starts ([src/server.js] calls [generateFood] inside the
    initialiser of [gameState], which reads [gameState] before it is
    initialised).  [Module ServerJs] embeds [src/server.js],
    [Module Part000] the movement and the collisions of the first
    generation and [Module Toggle] the colour server that follows it.

    What is modelled: [gameState] and every function that reads or writes
    it.  What is not: the transport ([ws.send], [broadcast*],
    [sendToPlayer], [express]); those calls do not write [gameState].

    Conventions:
    - the world is threaded through a small monad [M] with exceptions
      (a JavaScript [throw] keeps the writes made before it) and a loop
      budget ([Diverge] when a loop does not stop within the budget);
    - [Math.random()] reads the next element of a sequence given by the
      environment; numbers are exact rationals and integers;
    - [gameState.players] is a list of player records in the order of
      [Object.values]; a player object, which JavaScript passes around by
      reference, is addressed by its position in that list. *)

From Stdlib Require Import ZArith QArith Qround List String Ascii Bool Arith Lia.
From Stdlib Require Import DecimalString.
Import ListNotations.
Local Open Scope Z_scope.
Set Warnings "-register-all".

(** ** JavaScript values that reach the game state *)

(** The result of [JSON.parse], plus [undefined] for a missing property. *)
Inductive JsVal : Type :=
| JUndefined
| JNull
| JBool (b : bool)
| JNum (q : Q)
| JStr (s : string)
| JArr (items : list JsVal)
| JObj (props : list (string * JsVal)).

(** [ToBoolean]: what [if (v)] and [v && ...] test. *)
Definition truthy (v : JsVal) : bool :=
  match v with
  | JUndefined | JNull => false
  | JBool b => b
  | JNum q => negb (Qeq_bool q 0)
  | JStr s => negb (String.eqb s "")
  | JArr _ | JObj _ => true
  end.

(** [v === 'lit'] for a string literal. *)
Definition is_str (v : JsVal) (lit : string) : bool :=
  match v with
  | JStr s => String.eqb s lit
  | _ => false
  end.

Fixpoint assoc (k : string) (kvs : list (string * JsVal)) : option JsVal :=
  match kvs with
  | [] => None
  | (k', v) :: rest => if String.eqb k' k then Some v else assoc k rest
  end.

(** [a[i]] on an array literal: [None] stands for [undefined]. *)
Definition array_get {A : Type} (a : list A) (i : Z) : option A :=
  if i <? 0 then None else nth_error a (Z.to_nat i).

Definition str_or_undefined (o : option string) : JsVal :=
  match o with
  | Some s => JStr s
  | None => JUndefined
  end.

(** ** The data model *)

Record Position : Type := mkPos { x : Z; y : Z }.

Definition pos_eqb (a b : Position) : bool :=
  (x a =? x b) && (y a =? y b).

Record Player : Type := mkPlayer {
  id : string;
  name : string;
  snake : list Position;
  direction : JsVal;
  pendingDirection : JsVal;   (* [nextDirection] in src/server.js *)
  score : Z;
  color : JsVal;
  alive : bool
}.

Definition set_name (n : string) (p : Player) : Player :=
  mkPlayer (id p) n (snake p) (direction p) (pendingDirection p)
           (score p) (color p) (alive p).
Definition set_snake (s : list Position) (p : Player) : Player :=
  mkPlayer (id p) (name p) s (direction p) (pendingDirection p)
           (score p) (color p) (alive p).
Definition set_direction (d : JsVal) (p : Player) : Player :=
  mkPlayer (id p) (name p) (snake p) d (pendingDirection p)
           (score p) (color p) (alive p).
Definition set_pendingDirection (d : JsVal) (p : Player) : Player :=
  mkPlayer (id p) (name p) (snake p) (direction p) d
           (score p) (color p) (alive p).
Definition set_score (s : Z) (p : Player) : Player :=
  mkPlayer (id p) (name p) (snake p) (direction p) (pendingDirection p)
           s (color p) (alive p).
Definition set_alive (a : bool) (p : Player) : Player :=
  mkPlayer (id p) (name p) (snake p) (direction p) (pendingDirection p)
           (score p) (color p) a.

(** [gameState], and [rng]: how many [Math.random()] calls were made.
    [players] lists the values of [gameState.players] in the order of its
    own keys; the key of a player is its [id] (the connection handler is
    the only writer of keys, and stores under [playerId] a record whose
    [id] is [playerId]).  [gameState.gridSize] is initialised to
    [GRID_SIZE] and never read or written again; the code uses the
    constant. *)
Record World : Type := mkWorld {
  players : list Player;
  food : option Position;
  gameInterval : bool;
  rng : nat
}.

Definition set_players (ps : list Player) (w : World) : World :=
  mkWorld ps (food w) (gameInterval w) (rng w).
Definition set_food (f : option Position) (w : World) : World :=
  mkWorld (players w) f (gameInterval w) (rng w).
Definition set_gameInterval (b : bool) (w : World) : World :=
  mkWorld (players w) (food w) b (rng w).
Definition set_rng (n : nat) (w : World) : World :=
  mkWorld (players w) (food w) (gameInterval w) n.

(** ** [gameState.players] as an object: own keys in JavaScript's order *)

Definition digit_of (c : ascii) : option N :=
  let n := N_of_ascii c in
  if ((48 <=? n) && (n <=? 57))%N then Some (n - 48)%N else None.

Fixpoint digits_value (s : string) (acc : N) : option N :=
  match s with
  | EmptyString => Some acc
  | String c rest =>
      match digit_of c with
      | Some d => digits_value rest (acc * 10 + d)%N
      | None => None
      end
  end.

(** A key is an array index when it is the canonical decimal form of an
    integer below 2^32 - 1; such keys are enumerated first, ascending. *)
Definition array_index (s : string) : option N :=
  match s with
  | EmptyString => None
  | String c rest =>
      if Ascii.eqb c "0" && negb (String.eqb rest "") then None
      else match digits_value s 0 with
           | Some n => if (n <? 4294967295)%N then Some n else None
           | None => None
           end
  end.

Fixpoint insert_index (n : N) (p : Player) (l : list Player) : list Player :=
  match l with
  | [] => [p]
  | q :: rest =>
      match array_index (id q) with
      | Some m => if (m <? n)%N then q :: insert_index n p rest
                  else p :: q :: rest
      | None => p :: q :: rest
      end
  end.

Fixpoint index_of (k : string) (l : list Player) : option nat :=
  match l with
  | [] => None
  | q :: rest =>
      if String.eqb (id q) k then Some O
      else option_map S (index_of k rest)
  end.

Fixpoint update_nth {A : Type} (j : nat) (g : A -> A) (l : list A) : list A :=
  match l, j with
  | [], _ => []
  | a :: rest, O => g a :: rest
  | a :: rest, S j' => a :: update_nth j' g rest
  end.

(** [players[p.id] = p]: an existing key keeps its place. *)
Definition set_player (p : Player) (l : list Player) : list Player :=
  match index_of (id p) l with
  | Some j => update_nth j (fun _ => p) l
  | None =>
      match array_index (id p) with
      | Some n => insert_index n p l
      | None => l ++ [p]
      end
  end.

(** [delete players[k]] *)
Definition delete_player (k : string) (l : list Player) : list Player :=
  filter (fun q => negb (String.eqb (id q) k)) l.

(** ** The monad *)

Inductive Exn : Type := TypeError | SyntaxError | ReferenceError.

(** What the program does not control. *)
Record Env : Type := mkEnv {
  fuel : nat;                     (* budget of each loop *)
  Math_random_seq : nat -> Q;     (* the results of [Math.random()] *)
  toString36 : Q -> string        (* [Number.prototype.toString(36)] *)
}.

Inductive Outcome (A : Type) : Type :=
| Ret (a : A) (w : World)
| Throw (e : Exn) (w : World)
| Diverge.
Arguments Ret {A} a w.
Arguments Throw {A} e w.
Arguments Diverge {A}.

Definition M (A : Type) : Type := Env -> World -> Outcome A.

Definition ret {A : Type} (a : A) : M A := fun _ w => Ret a w.

Definition bind {A B : Type} (m : M A) (k : A -> M B) : M B :=
  fun e w =>
    match m e w with
    | Ret a w' => k a e w'
    | Throw ex w' => Throw ex w'
    | Diverge => Diverge
    end.

Definition throw {A : Type} (ex : Exn) : M A := fun _ w => Throw ex w.

(** [try { m } catch (err) { h(err) }] *)
Definition try_catch {A : Type} (m : M A) (h : Exn -> M A) : M A :=
  fun e w =>
    match m e w with
    | Ret a w' => Ret a w'
    | Throw ex w' => h ex e w'
    | Diverge => Diverge
    end.

Definition get : M World := fun _ w => Ret w w.
Definition modify (f : World -> World) : M unit := fun _ w => Ret tt (f w).

Declare Scope js_scope.
Delimit Scope js_scope with js.
Notation "v <- m ;; k" := (bind m (fun v => k))
  (at level 61, m at next level, right associativity) : js_scope.
Notation "m ;; k" := (bind m (fun _ => k))
  (at level 61, right associativity) : js_scope.
Local Open Scope js_scope.

(** The world an outcome leaves behind. *)
Definition world_of {A : Type} (o : Outcome A) : option World :=
  match o with
  | Ret _ w => Some w
  | Throw _ w => Some w
  | Diverge => None
  end.

(** A player object: the callbacks get position [j] of [Object.values]. *)
Definition withPlayer (j : nat) (k : Player -> M unit) : M unit :=
  fun e w =>
    match nth_error (players w) j with
    | Some p => k p e w
    | None => Ret tt w
    end.

Definition modPlayer (j : nat) (g : Player -> Player) : M unit :=
  modify (fun w => set_players (update_nth j g (players w)) w).

Fixpoint forEach_from (f : nat -> M unit) (j n : nat) : M unit :=
  match n with
  | O => ret tt
  | S n' => f j ;; forEach_from f (S j) n'
  end.

(** [Object.values(gameState.players).forEach(f)]: the array of values is
    taken once; no callback of the program adds or deletes a player. *)
Definition forEachPlayer (f : nat -> M unit) : M unit :=
  fun e w => forEach_from f 0 (List.length (players w)) e w.

(** ** Helpers shared by the generations *)

Definition GRID_SIZE : Z := 25.

Definition Math_random : M Q :=
  fun e w => Ret (Math_random_seq e (rng w)) (set_rng (S (rng w)) w).

(** [Math.floor(Math.random() * n)] *)
Definition random_below (n : Z) : M Z :=
  r <- Math_random ;; ret (Qfloor (r * inject_Z n)).

Definition getRandomPosition : M Position :=
  rx <- random_below GRID_SIZE ;;
  ry <- random_below GRID_SIZE ;;
  ret (mkPos rx ry).

Definition directions : list string :=
  ["up"; "down"; "left"; "right"]%string.

Definition getRandomDirection : M JsVal :=
  i <- random_below (Z.of_nat (List.length directions)) ;;
  ret (str_or_undefined (array_get directions i)).

Definition colors : list string :=
  ["#FF6B6B"; "#4ECDC4"; "#45B7D1"; "#FFBE0B";
   "#FB5607"; "#8338EC"; "#3A86FF"; "#FF006E"]%string.

Definition getRandomColor : M JsVal :=
  i <- random_below (Z.of_nat (List.length colors)) ;;
  ret (str_or_undefined (array_get colors i)).

(** [Math.random().toString(36).substr(2, 9)] *)
Definition generateId : M string :=
  fun e w =>
    match Math_random e w with
    | Ret r w' => Ret (substring 2 9 (toString36 e r)) w'
    | Throw ex w' => Throw ex w'
    | Diverge => Diverge
    end.

(** The template [`Player ${n}`]. *)
Definition player_name (n : nat) : string :=
  ("Player " ++ NilEmpty.string_of_uint (Nat.to_uint n))%string.

(** [players.some(player => player.snake.some(segment => segment at c))] *)
Definition positionOccupied (ps : list Player) (c : Position) : bool :=
  existsb (fun p => existsb (fun s => pos_eqb s c) (snake p)) ps.

(** The body of the [switch] on the direction. *)
Definition step_head (d : JsVal) (h : Position) : Position :=
  if is_str d "up" then mkPos (x h) (y h - 1)
  else if is_str d "down" then mkPos (x h) (y h + 1)
  else if is_str d "left" then mkPos (x h - 1) (y h)
  else if is_str d "right" then mkPos (x h + 1) (y h)
  else h.

(** [(v + GRID_SIZE) % GRID_SIZE]; [%] is the truncating remainder. *)
Definition wrap (v : Z) : Z := Z.rem (v + GRID_SIZE) GRID_SIZE.

Definition wrap_pos (h : Position) : Position := mkPos (wrap (x h)) (wrap (y h)).

(** ** The messages of a client *)

(** [JSON.parse(message)] either throws or yields a value. *)
Inductive Inbound : Type :=
| Unparseable
| Parsed (data : JsVal).

Definition JSON_parse (message : Inbound) : M JsVal :=
  match message with
  | Unparseable => throw SyntaxError
  | Parsed data => ret data
  end.

(** [v.k] for the keys the handlers read ([type], [direction], [name]):
    a [TypeError] on [null], [undefined] elsewhere than on an object. *)
Definition prop (v : JsVal) (k : string) : M JsVal :=
  match v with
  | JUndefined | JNull => throw TypeError
  | JObj kvs => ret (match assoc k kvs with Some u => u | None => JUndefined end)
  | _ => ret JUndefined
  end.

(** [v.substring(0, 15)]: only a string has the method.  The cut is
    after 15 characters of the Rocq string; these are the first 15
    UTF-16 code units the source cuts at when the string is made of
    ASCII characters, and the statements about the cut are about such
    strings. *)
Definition substring_0_15 (v : JsVal) : M string :=
  match v with
  | JStr s => ret (substring 0 15 s)
  | _ => throw TypeError
  end.

(** The events the single-threaded runtime delivers. *)
Inductive Event : Type :=
| Connect
| Message (playerId : string) (message : Inbound)
| Close (playerId : string)
| Tick.

(** ** src/unnamed/part_001: the server *)

Module Part001.

Definition FOOD_SCORE : Z := 1.
Definition maxAttempts : Z := 100.

(** The [do { ... } while (true)] of [generateFood]: [n] is what is left
    of the loop budget, [attempts] the counter of the source. *)
Fixpoint generateFood_loop (n : nat) (attempts : Z) : M Position :=
  match n with
  | O => fun _ _ => Diverge
  | S n' =>
      food <- getRandomPosition ;;
      let attempts := attempts + 1 in
      w <- get ;;
      let occupied := positionOccupied (players w) food in
      if negb occupied || (attempts >=? maxAttempts) then ret food
      else generateFood_loop n' attempts
  end.

Definition generateFood : M Position :=
  fun e w => generateFood_loop (fuel e) 0 e w.

(** [movePlayer(player)].  On an empty snake (which no path creates)
    [head] is [{x: NaN, y: NaN}]: it equals no food, so it is added and
    removed again. *)
Definition movePlayer (j : nat) : M unit :=
  withPlayer j (fun player =>
    if negb (alive player) then ret tt
    else
      match snake player with
      | [] => ret tt
      | h :: _ =>
          let head := wrap_pos (step_head (direction player) h) in
          modPlayer j (fun p => set_snake (head :: snake p) p) ;;
          w <- get ;;
          match food w with
          | Some f =>
              if (x head =? x f) && (y head =? y f) then
                modPlayer j (fun p => set_score (score p + FOOD_SCORE) p) ;;
                f' <- generateFood ;;
                modify (set_food (Some f'))
              else modPlayer j (fun p => set_snake (removelast (snake p)) p)
          | None => modPlayer j (fun p => set_snake (removelast (snake p)) p)
          end
      end).

(** An element of [allSegments]. *)
Record Segment : Type := mkSegment {
  seg_x : Z;
  seg_y : Z;
  playerId : string;
  isHead : bool
}.

Fixpoint segments_from (pid : string) (i : nat) (s : list Position)
  : list Segment :=
  match s with
  | [] => []
  | c :: rest =>
      mkSegment (x c) (y c) pid (Nat.eqb i 0) :: segments_from pid (S i) rest
  end.

(** The first loop of [checkCollisions]. *)
Definition collectSegments (ps : list Player) : list Segment :=
  flat_map (fun p => if alive p then segments_from (id p) 0 (snake p) else [])
           ps.

(** The callback of [allSegments.find]. *)
Definition hits (player : Player) (head : Position) (s : Segment) : bool :=
  (seg_x s =? x head) && (seg_y s =? y head) &&
  (negb (String.eqb (playerId s) (id player)) || negb (isHead s)).

(** [checkCollisions()].  With an empty snake [head] is [undefined]: the
    callback of [find] throws as soon as it is called. *)
Definition checkCollisions : M unit :=
  w <- get ;;
  let allSegments := collectSegments (players w) in
  forEachPlayer (fun j =>
    withPlayer j (fun player =>
      if negb (alive player) then ret tt
      else
        match snake player with
        | [] =>
            match allSegments with
            | [] => ret tt
            | _ :: _ => throw TypeError
            end
        | head :: _ =>
            if existsb (hits player head) allSegments
            then modPlayer j (set_alive false)
            else ret tt
        end)).

(** The first loop of [updateGame]. *)
Definition commitDirection (j : nat) : M unit :=
  withPlayer j (fun player =>
    if truthy (pendingDirection player) && alive player then
      modPlayer j (fun p =>
        set_pendingDirection JNull (set_direction (pendingDirection p) p))
    else ret tt).

(** [!gameState.food || Math.random() < 0.02] *)
Definition foodMissingOrStale : M bool :=
  w <- get ;;
  match food w with
  | None => ret true
  | Some _ => r <- Math_random ;; ret (negb (Qle_bool (2 # 100) r))
  end.

Definition updateGame : M unit :=
  forEachPlayer commitDirection ;;
  forEachPlayer movePlayer ;;
  checkCollisions ;;
  refresh <- foodMissingOrStale ;;
  if refresh then f <- generateFood ;; modify (set_food (Some f))
  else ret tt.

Definition startGameLoop : M unit := modify (set_gameInterval true).

Definition stopGameLoop : M unit :=
  w <- get ;;
  if gameInterval w then modify (set_gameInterval false) else ret tt.

(** The callback of [setInterval]. *)
Definition gameLoopTick : M unit :=
  try_catch updateGame (fun _ => ret tt).

(** [wss.on('connection', ...)] up to the registration of the handlers. *)
Definition onConnection : M unit :=
  playerId <- generateId ;;
  w <- get ;;
  let name := player_name (List.length (players w) + 1) in
  pos <- getRandomPosition ;;
  dir <- getRandomDirection ;;
  col <- getRandomColor ;;
  modify (fun w =>
    set_players
      (set_player (mkPlayer playerId name [pos] dir JNull 0 col true)
                  (players w)) w) ;;
  w <- get ;;
  if negb (gameInterval w) then startGameLoop else ret tt.

Definition reversal (currentDirection d : JsVal) : bool :=
  (is_str currentDirection "up" && is_str d "down") ||
  (is_str currentDirection "down" && is_str d "up") ||
  (is_str currentDirection "left" && is_str d "right") ||
  (is_str currentDirection "right" && is_str d "left").

(** [ws.on('message', ...)] of the connection of [playerId]. *)
Definition onMessage (playerId : string) (message : Inbound) : M unit :=
  try_catch
    (data <- JSON_parse message ;;
     type <- prop data "type" ;;
     w <- get ;;
     match index_of playerId (players w) with
     | Some j =>
         if is_str type "directionChange" then
           withPlayer j (fun player =>
             let currentDirection := direction player in
             d <- prop data "direction" ;;
             if negb (is_str currentDirection "up" && is_str d "down") &&
                negb (is_str currentDirection "down" && is_str d "up") &&
                negb (is_str currentDirection "left" && is_str d "right") &&
                negb (is_str currentDirection "right" && is_str d "left")
             then modPlayer j (set_pendingDirection d)
             else ret tt)
         else if is_str type "setName" then
           n <- prop data "name" ;;
           s <- substring_0_15 n ;;
           modPlayer j (set_name s)
         else ret tt
     | None => ret tt
     end)
    (fun _ => ret tt).

(** [ws.on('close', ...)] of the connection of [playerId]. *)
Definition onClose (playerId : string) : M unit :=
  w <- get ;;
  match index_of playerId (players w) with
  | Some _ =>
      modify (fun w => set_players (delete_player playerId (players w)) w) ;;
      w <- get ;;
      match players w with
      | [] => stopGameLoop
      | _ :: _ => ret tt
      end
  | None => ret tt
  end.

(** An entry of the [players] object of a snapshot. *)
Record ClientPlayer : Type := mkClientPlayer {
  cp_snake : list Position;
  cp_color : JsVal;
  cp_alive : bool
}.

Record ClientGameState : Type := mkClientGameState {
  cgs_food : option Position;
  cgs_players : list (string * ClientPlayer)
}.

(** [acc[id] = entry] on the accumulator of [reduce].  The ids arrive in
    the order of the own keys of [gameState.players], so a new key of
    [acc] comes after the ones already there. *)
Fixpoint acc_set (k : string) (v : ClientPlayer)
                 (acc : list (string * ClientPlayer))
  : list (string * ClientPlayer) :=
  match acc with
  | [] => [(k, v)]
  | (k', v') :: rest =>
      if String.eqb k' k then (k, v) :: rest
      else (k', v') :: acc_set k v rest
  end.

Fixpoint acc_get (k : string) (acc : list (string * ClientPlayer))
  : option ClientPlayer :=
  match acc with
  | [] => None
  | (k', v) :: rest => if String.eqb k' k then Some v else acc_get k rest
  end.

(** [id !== excludePlayerId]; the argument may be left out. *)
Definition differs (k : string) (excludePlayerId : option string) : bool :=
  match excludePlayerId with
  | Some e => negb (String.eqb k e)
  | None => true
  end.

Definition getClientGameState (excludePlayerId : option string) (w : World)
  : ClientGameState :=
  mkClientGameState
    (food w)
    (fold_left
       (fun acc player =>
          if differs (id player) excludePlayerId then
            acc_set (id player)
                    (mkClientPlayer (snake player) (color player) (alive player))
                    acc
          else acc)
       (players w) []).

(** The state at process start. *)
Definition initial : World := mkWorld [] None false 0.

(** One event of the runtime.  The timer fires only between
    [startGameLoop] and [stopGameLoop]. *)
Definition dispatch (ev : Event) : M unit :=
  match ev with
  | Connect => onConnection
  | Message playerId message => onMessage playerId message
  | Close playerId => onClose playerId
  | Tick => w <- get ;; if gameInterval w then gameLoopTick else ret tt
  end.

Fixpoint run (evs : list Event) (e : Env) (w : World) : option World :=
  match evs with
  | [] => Some w
  | ev :: rest =>
      match world_of (dispatch ev e w) with
      | Some w' => run rest e w'
      | None => None
      end
  end.

(** An element of the array [broadcastPlayersUpdate] sends. *)
Record RosterEntry : Type := mkRosterEntry {
  re_id : string;
  re_name : string;
  re_score : Z;
  re_color : JsVal;
  re_alive : bool
}.

(** The [players] of the [playersUpdate] message. *)
Definition playersUpdate (w : World) : list RosterEntry :=
  map (fun player =>
         mkRosterEntry (id player) (name player) (score player)
                       (color player) (alive player))
      (players w).

End Part001.

(** ** src/server.js: the second generation *)

Module ServerJs.

(** Reading the [const gameState]: from the start of its initialiser
    (l.13) to its end (l.18) the binding is not initialised and the read
    throws a [ReferenceError]. *)
Definition gameState (initialised : bool) : M World :=
  if initialised then get else throw ReferenceError.

(** [do { food = getRandomPosition(); } while (occupied);] with the loop
    budget [n].  The condition reads [gameState]; [initialised] tells
    whether the call is made after the initialiser of [gameState] has
    ended (the call of [movePlayer], l.148) or from inside it (l.15). *)
Fixpoint generateFood_loop (initialised : bool) (n : nat) : M Position :=
  match n with
  | O => fun _ _ => Diverge
  | S n' =>
      food <- getRandomPosition ;;
      w <- gameState initialised ;;
      if positionOccupied (players w) food
      then generateFood_loop initialised n'
      else ret food
  end.

Definition generateFood (initialised : bool) : M Position :=
  fun e w => generateFood_loop initialised (fuel e) e w.

(** The top level of the file down to [const gameState = {...}]
    (l.13-18): the initialiser calls [generateFood()].  Nothing below it
    runs when it throws. *)
Definition load : M unit :=
  f <- generateFood false ;;
  modify (fun w => mkWorld [] (Some f) false (rng w)).

(** [gameState.food] is read without a guard. *)
Definition movePlayer (j : nat) : M unit :=
  withPlayer j (fun player =>
    if negb (alive player) then ret tt
    else
      match snake player with
      | [] =>
          w <- get ;;
          match food w with
          | Some _ => ret tt
          | None => throw TypeError
          end
      | h :: _ =>
          let head := wrap_pos (step_head (direction player) h) in
          modPlayer j (fun p => set_snake (head :: snake p) p) ;;
          w <- get ;;
          match food w with
          | Some f =>
              if (x head =? x f) && (y head =? y f) then
                modPlayer j (fun p => set_score (score p + 10) p) ;;
                f' <- generateFood true ;;
                modify (set_food (Some f'))
              else modPlayer j (fun p => set_snake (removelast (snake p)) p)
          | None => throw TypeError
          end
      end).

(** An element of [allSegments]; the ones pushed when a player dies have
    neither [playerId] nor [isHead]. *)
Record Segment : Type := mkSegment {
  seg_x : Z;
  seg_y : Z;
  playerId : option string;
  isHead : option bool;
  isDead : bool
}.

Fixpoint segments_from (pid : string) (i : nat) (s : list Position)
  : list Segment :=
  match s with
  | [] => []
  | c :: rest =>
      mkSegment (x c) (y c) (Some pid) (Some (Nat.eqb i 0)) false
        :: segments_from pid (S i) rest
  end.

Definition collectSegments (ps : list Player) : list Segment :=
  flat_map (fun p => if alive p then segments_from (id p) 0 (snake p) else [])
           ps.

(** [s.playerId !== player.id || s.isHead === false] at the head's cell *)
Definition hits (player : Player) (head : Position) (s : Segment) : bool :=
  (seg_x s =? x head) && (seg_y s =? y head) &&
  (match playerId s with
   | Some k => negb (String.eqb k (id player))
   | None => true
   end
   || match isHead s with
      | Some b => negb b
      | None => false
      end).

(** The second loop of [checkCollisions]; [allSegments] grows in it. *)
Fixpoint checkCollisions_from (j n : nat) (allSegments : list Segment)
  : M unit :=
  match n with
  | O => ret tt
  | S n' =>
      fun e w =>
        match nth_error (players w) j with
        | None => checkCollisions_from (S j) n' allSegments e w
        | Some player =>
            if negb (alive player) then
              checkCollisions_from (S j) n' allSegments e w
            else
              match snake player with
              | [] =>
                  match allSegments with
                  | [] => checkCollisions_from (S j) n' allSegments e w
                  | _ :: _ => Throw TypeError w
                  end
              | head :: _ =>
                  if existsb (hits player head) allSegments then
                    (modPlayer j (set_alive false) ;;
                     checkCollisions_from (S j) n'
                       (allSegments ++
                        map (fun c => mkSegment (x c) (y c) None None true)
                            (snake player))) e w
                  else checkCollisions_from (S j) n' allSegments e w
              end
        end
  end.

Definition checkCollisions : M unit :=
  fun e w =>
    checkCollisions_from 0 (List.length (players w))
                         (collectSegments (players w)) e w.

Definition commitDirection (j : nat) : M unit :=
  withPlayer j (fun player =>
    if truthy (pendingDirection player) && alive player then
      modPlayer j (fun p =>
        set_pendingDirection JNull (set_direction (pendingDirection p) p))
    else ret tt).

Definition updateGame : M unit :=
  forEachPlayer commitDirection ;;
  forEachPlayer movePlayer ;;
  checkCollisions.

Definition startGameLoop : M unit := modify (set_gameInterval true).
Definition stopGameLoop : M unit := modify (set_gameInterval false).

Definition onConnection : M unit :=
  playerId <- generateId ;;
  w <- get ;;
  let name := player_name (List.length (players w) + 1) in
  pos <- getRandomPosition ;;
  dir <- getRandomDirection ;;
  col <- getRandomColor ;;
  modify (fun w =>
    set_players
      (set_player (mkPlayer playerId name [pos] dir JNull 0 col true)
                  (players w)) w) ;;
  w <- get ;;
  if negb (gameInterval w) then startGameLoop else ret tt.

(** [ws.on('message', ...)]: nothing catches. *)
Definition onMessage (playerId : string) (message : Inbound) : M unit :=
  data <- JSON_parse message ;;
  type <- prop data "type" ;;
  w <- get ;;
  match index_of playerId (players w) with
  | Some j =>
      (if is_str type "directionChange" then
         d <- prop data "direction" ;;
         modPlayer j (set_pendingDirection d)
       else ret tt) ;;
      (if is_str type "setName" then
         n <- prop data "name" ;;
         s <- substring_0_15 n ;;
         modPlayer j (set_name s)
       else ret tt)
  | None => ret tt
  end.

Definition onClose (playerId : string) : M unit :=
  modify (fun w => set_players (delete_player playerId (players w)) w) ;;
  w <- get ;;
  match players w with
  | [] => stopGameLoop
  | _ :: _ => ret tt
  end.

(** [sanitizeGameState(excludePlayerId)] has the text of
    [getClientGameState] of part_001. *)
Definition sanitizeGameState (excludePlayerId : option string) (w : World)
  : Part001.ClientGameState :=
  Part001.getClientGameState excludePlayerId w.

(** The timer runs [updateGame] bare. *)
Definition dispatch (ev : Event) : M unit :=
  match ev with
  | Connect => onConnection
  | Message playerId message => onMessage playerId message
  | Close playerId => onClose playerId
  | Tick => w <- get ;; if gameInterval w then updateGame else ret tt
  end.

End ServerJs.

(** ** src/unnamed/part_000: the movement of the first generation *)

Module Part000.

(** [gameState.gridSize] *)
Definition gridSize : Z := 20.

(** The four [if]s after the [switch], in their order. *)
Definition wrap_pos (h : Position) : Position :=
  let hx := if x h >=? gridSize then 0 else x h in
  let hx := if hx <? 0 then gridSize - 1 else hx in
  let hy := if y h >=? gridSize then 0 else y h in
  let hy := if hy <? 0 then gridSize - 1 else hy in
  mkPos hx hy.

(** [generateFood()] writes [gameState.food] itself. *)
Definition generateFood : M unit :=
  fx <- random_below gridSize ;;
  fy <- random_below gridSize ;;
  modify (set_food (Some (mkPos fx fy))).

(** [moveSnake(player)]; a player of this generation has no [alive] and
    no pending direction, the fields stay as they are.  [gameState.food]
    is never [null] here. *)
Definition moveSnake (j : nat) : M unit :=
  withPlayer j (fun player =>
    match snake player with
    | [] =>
        w <- get ;;
        match food w with
        | Some _ => ret tt
        | None => throw TypeError
        end
    | h :: _ =>
        let head := wrap_pos (step_head (direction player) h) in
        modPlayer j (fun p => set_snake (head :: snake p) p) ;;
        w <- get ;;
        match food w with
        | Some f =>
            if (x head =? x f) && (y head =? y f) then
              modPlayer j (fun p => set_score (score p + 10) p) ;;
              generateFood
            else modPlayer j (fun p => set_snake (removelast (snake p)) p)
        | None => throw TypeError
        end
    end).

(** [resetPlayer(player)] *)
Definition resetPlayer (j : nat) : M unit :=
  modPlayer j (fun p =>
    set_score (Z.max 0 (score p - 5))
      (set_direction (JStr "right") (set_snake [mkPos 5 5] p))).

(** The test both loops of [checkCollisions] make on a cell [c]; [head]
    is [undefined] when the snake is empty, and reading [head.x] throws. *)
Definition hitReset (j : nat) (head : option Position) (c : Position)
  : M unit :=
  match head with
  | None => throw TypeError
  | Some h =>
      if (x h =? x c) && (y h =? y c) then resetPlayer j else ret tt
  end.

(** [for (let i = 1; i < player.snake.length; i++)]: the length is read
    again at every turn; [n] bounds the turns ([i] grows, the snake does
    not). *)
Fixpoint selfLoop (j : nat) (head : option Position) (i n : nat) : M unit :=
  match n with
  | O => ret tt
  | S n' =>
      withPlayer j (fun player =>
        match nth_error (snake player) i with
        | None => ret tt
        | Some c => hitReset j head c ;; selfLoop j head (S i) n'
        end)
  end.

(** [otherPlayer.snake.forEach(segment => ...)] *)
Fixpoint forSegments (j : nat) (head : option Position)
                     (segs : list Position) : M unit :=
  match segs with
  | [] => ret tt
  | c :: rest => hitReset j head c ;; forSegments j head rest
  end.

(** [checkCollisions()] of the first generation. *)
Definition checkCollisions : M unit :=
  forEachPlayer (fun j =>
    withPlayer j (fun player =>
      let head := hd_error (snake player) in
      selfLoop j head 1 (List.length (snake player)) ;;
      forEachPlayer (fun k =>
        withPlayer k (fun otherPlayer =>
          if negb (String.eqb (id player) (id otherPlayer))
          then forSegments j head (snake otherPlayer)
          else ret tt)))).

End Part000.

(** ** The second file of src/unnamed/part_000: a colour all clients share *)

Module Toggle.

(** [let currentColor = 'red'] *)
Definition initialColor : string := "red".

(** [ws.on('message', ...)]: the new [currentColor], or the exception
    that leaves the handler. *)
Definition onMessage (message : Inbound) (currentColor : string)
  : Exn + string :=
  match message with
  | Unparseable => inl SyntaxError
  | Parsed data =>
      match data with
      | JUndefined | JNull => inl TypeError
      | JObj kvs =>
          let type := match assoc "type" kvs with
                      | Some u => u
                      | None => JUndefined
                      end in
          if is_str type "toggle"
          then inr (if String.eqb currentColor "red" then "green" else "red")%string
          else inr currentColor
      | _ => inr currentColor
      end
  end.

(** The messages of all clients, in the order they are handled; an
    exception ends the process. *)
Fixpoint run (messages : list Inbound) (currentColor : string)
  : Exn + string :=
  match messages with
  | [] => inr currentColor
  | m :: rest =>
      match onMessage m currentColor with
      | inl ex => inl ex
      | inr c => run rest c
      end
  end.

End Toggle.

(** * Vocabulary of the statements *)

(** Every loop of part_001 stops within this budget. *)
Definition enough_fuel (e : Env) : Prop := (100 <= fuel e)%nat.

(** The [i]-th candidate position drawn from [Math.random()] call [r] on. *)
Definition candidate (e : Env) (r i : nat) : Position :=
  mkPos (Qfloor (Math_random_seq e (r + 2 * i) * inject_Z GRID_SIZE))
        (Qfloor (Math_random_seq e (r + 2 * i + 1) * inject_Z GRID_SIZE)).

(** What the first loop of [updateGame] does to one player. *)
Definition commit1 (p : Player) : Player :=
  if truthy (pendingDirection p) && alive p
  then set_pendingDirection JNull (set_direction (pendingDirection p) p)
  else p.

(** The cell [movePlayer] adds in front of a snake whose head is [h]. *)
Definition newHead (p : Player) (h : Position) : Position :=
  wrap_pos (step_head (direction p) h).

(** [gameState.food && head.x === gameState.food.x && head.y === ...] *)
Definition eats (f : option Position) (head : Position) : bool :=
  match f with
  | Some c => (x head =? x c) && (y head =? y c)
  | None => false
  end.

(** What [Part001.movePlayer] does to the player it is called on, the
    food being [f]. *)
Definition moved (f : option Position) (p : Player) : Player :=
  if negb (alive p) then p
  else
    match snake p with
    | [] => p
    | h :: _ =>
        if eats f (newHead p h)
        then set_score (score p + Part001.FOOD_SCORE)
                       (set_snake (newHead p h :: snake p) p)
        else set_snake (removelast (newHead p h :: snake p)) p
    end.

(** What the second loop of [Part001.checkCollisions] does to one player
    when its callback returns. *)
Definition collide (segs : list Part001.Segment) (p : Player) : Player :=
  if negb (alive p) then p
  else
    match snake p with
    | [] => p
    | head :: _ =>
        if existsb (Part001.hits p head) segs then set_alive false p else p
    end.

(** The invariant of the data model. *)
Definition snakes_nonempty (w : World) : Prop :=
  Forall (fun p => snake p <> []) (players w).

(** Coordinates on the grid. *)
Definition on_grid (c : Position) : Prop :=
  0 <= x c < GRID_SIZE /\ 0 <= y c < GRID_SIZE.

(** The displacement of a heading. *)
Definition delta (d : string) : Z * Z :=
  if String.eqb d "up" then (0, -1)
  else if String.eqb d "down" then (0, 1)
  else if String.eqb d "left" then (-1, 0)
  else if String.eqb d "right" then (1, 0)
  else (0, 0).

Definition is_heading (d : string) : Prop := In d directions.

(** [d] is the heading opposite to [c]. *)
Definition opposite (c d : JsVal) : Prop :=
  (c = JStr "up" /\ d = JStr "down") \/ (c = JStr "down" /\ d = JStr "up") \/
  (c = JStr "left" /\ d = JStr "right") \/ (c = JStr "right" /\ d = JStr "left").

(** [m] ends (by returning or by throwing) and relates every player
    before to the player at the same place after by [R]. *)
Definition runs_with (R : Player -> Player -> Prop) {A : Type} (m : M A)
  : Prop :=
  forall e w, enough_fuel e ->
    exists w', world_of (m e w) = Some w' /\
               Forall2 R (players w) (players w').

(** The relations used with [runs_with]. *)
Definition frozen_if_dead (p p' : Player) : Prop :=
  alive p = false -> p' = p.

Definition score_not_less (p p' : Player) : Prop :=
  id p = id p' /\ score p <= score p'.

Definition same_score (p p' : Player) : Prop :=
  id p = id p' /\ score p' = score p.

Definition snake_stays_nonempty (p p' : Player) : Prop :=
  snake p <> [] -> snake p' <> [].

(** The timer and the messages of the clients, as opposed to the coming
    and going of connections. *)
Definition tick_or_input (ev : Event) : Prop :=
  match ev with
  | Tick | Message _ _ => True
  | Connect | Close _ => False
  end.

(** ** Worked inputs *)

Definition env0 : Env :=
  mkEnv 100 (fun n => Z.of_nat (n mod 5) # 7) (fun _ => "0.k3x9p2m7q1z"%string).

Definition alice : Player :=
  mkPlayer "k3x9p2m7q" "Player 1" [mkPos 5 5] (JStr "right") JNull 0
           (JStr "#FF6B6B") true.

(** A player that died with a snake of two cells. *)
Definition bob : Player :=
  mkPlayer "b7t0w4c8n" "Player 2" [mkPos 3 3; mkPos 3 4] (JStr "up") JNull 2
           (JStr "#4ECDC4") false.

Definition world1 : World :=
  mkWorld [alice; bob] (Some (mkPos 6 5)) true 0.

(** The [type] of a message, when it has been parsed to an object with
    that string under [type]. *)
Definition has_type (message : Inbound) (t : string) : bool :=
  match message with
  | Parsed (JObj kvs) =>
      match assoc "type" kvs with
      | Some v => is_str v t
      | None => false
      end
  | _ => false
  end.

(** Unparseable, or parsed to something whose [type] is none of the two
    the handler knows. *)
Definition malformed (message : Inbound) : Prop :=
  has_type message "directionChange" = false /\
  has_type message "setName" = false.

(** A world whose only snake covers the cell every draw of [env0] with a
    constant sequence would pick. *)
Definition env_zero : Env :=
  mkEnv 100 (fun _ => 0%Q) (fun _ => "0.k3x9p2m7q1z"%string).

Definition world_blocked : World :=
  mkWorld [mkPlayer "k3x9p2m7q" "Player 1" [mkPos 0 0] (JStr "right") JNull 0
                    (JStr "#FF6B6B") true]
          None true 0.

(** The entry of a player in a snapshot. *)
Definition entry_of (p : Player) : string * Part001.ClientPlayer :=
  (id p, Part001.mkClientPlayer (snake p) (color p) (alive p)).

(** The keys of [gameState.players] are distinct. *)
Definition ids_unique (w : World) : Prop := NoDup (map id (players w)).

(** Two alive snakes whose heads are on the same cell. *)
Definition carol : Player :=
  mkPlayer "c5v1r8d2s" "Player 3" [mkPos 5 5; mkPos 5 6] (JStr "up") JNull 0
           (JStr "#45B7D1") true.

Definition world2 : World :=
  mkWorld [alice; carol] (Some (mkPos 9 9)) true 0.

(** A player heading right with the heading left pending. *)
Definition world_reversal : World :=
  mkWorld [set_pendingDirection (JStr "left") alice] (Some (mkPos 9 9)) true 0.

(** "A tick leaves the heading of a player whose pending heading is the
    reverse of its heading unchanged", for the player at place [j]. *)
Definition tick_keeps_heading_on_reversal (e : Env) (w : World) (j : nat)
  : Prop :=
  forall p,
    nth_error (players w) j = Some p ->
    opposite (direction p) (pendingDirection p) ->
    exists w' p',
      Part001.dispatch Tick e w = Ret tt w' /\
      nth_error (players w') j = Some p' /\
      direction p' = direction p.

(** The heading and the pending heading of a player are not a reversal. *)
Definition no_reversal_pending (p : Player) : Prop :=
  Part001.reversal (direction p) (pendingDirection p) = false.

Definition same_direction (p p' : Player) : Prop :=
  direction p' = direction p.

(** A [directionChange] message asking for [d]. *)
Definition asks_direction (kvs : list (string * JsVal)) (d : JsVal) : Prop :=
  assoc "type" kvs = Some (JStr "directionChange") /\
  assoc "direction" kvs = Some d.

(** [Math.random()] yields numbers of the interval from 0 (included) to
    1 (excluded). *)
Definition unit_random (e : Env) : Prop :=
  forall n, (0 <= Math_random_seq e n)%Q /\ (Math_random_seq e n < 1)%Q.

Definition cells_on_grid (p : Player) : Prop := Forall on_grid (snake p).

(** What holds of every world the server can be in. *)
Definition well_formed (w : World) : Prop :=
  ids_unique w /\ snakes_nonempty w /\
  Forall no_reversal_pending (players w) /\
  Forall cells_on_grid (players w).

(** The part of [well_formed] that is about one player. *)
Definition player_ok (p : Player) : Prop :=
  snake p <> [] /\ no_reversal_pending p /\ cells_on_grid p.

Definition well_kept (p p' : Player) : Prop :=
  id p = id p' /\ (player_ok p -> player_ok p').

(** The world in which [movePlayer] is called on the player at place [j]
    during a tick: after the first loop of [updateGame] and the moves of
    the players before [j]. *)
Definition world_at_move (j : nat) (e : Env) (w : World) : option World :=
  world_of ((forEachPlayer Part001.commitDirection ;;
             forEach_from Part001.movePlayer 0 j) e w).

Definition same_body (p p' : Player) : Prop :=
  score p' = score p /\ snake p' = snake p.

(** A sequence of draws that is always 0, with any loop budget. *)
Definition env_zero_with (n : nat) : Env :=
  mkEnv n (fun _ => 0%Q) (fun _ => "0.k3x9p2m7q1z"%string).

(** src/server.js with a food already placed and nobody connected. *)
Definition world_started : World :=
  mkWorld [] (Some (mkPos 9 9)) false 0.

Definition ask_up : Inbound :=
  Parsed (JObj [("type"%string, JStr "directionChange");
                ("direction"%string, JStr "up")]).

(** An element of [allSegments] of part_001 as src/server.js builds it. *)
Definition seg_of (s : Part001.Segment) : ServerJs.Segment :=
  ServerJs.mkSegment (Part001.seg_x s) (Part001.seg_y s)
                     (Some (Part001.playerId s)) (Some (Part001.isHead s))
                     false.

(** [collide] with the callback of [find] of src/server.js. *)
Definition collideS (segs : list ServerJs.Segment) (p : Player) : Player :=
  if negb (alive p) then p
  else
    match snake p with
    | [] => p
    | head :: _ =>
        if existsb (ServerJs.hits p head) segs then set_alive false p else p
    end.

(** The first player is about to run into the tail of the second. *)
Definition world_tail : World :=
  mkWorld [set_snake [mkPos 6 5] alice;
           set_direction (JStr "right")
             (set_snake [mkPos 8 5; mkPos 7 5; mkPos 7 6] carol)]
          (Some (mkPos 0 0)) true 0.

(** ** Vocabulary of the further properties *)

(** [gameState.players[k]] *)
Definition lookup (k : string) (l : list Player) : option Player :=
  find (fun q => String.eqb (id q) k) l.

(** A relation between worlds that [m] keeps whenever it ends, for the
    environments [G] admits. *)
Definition preserves (G : Env -> Prop) (Q : World -> World -> Prop)
           {A : Type} (m : M A) : Prop :=
  forall e w w', G e -> world_of (m e w) = Some w' -> Q w w'.

(** The environments of the statements about the grid. *)
Definition unit_env (e : Env) : Prop := enough_fuel e /\ unit_random e.

Definition same_interval (w w' : World) : Prop :=
  gameInterval w' = gameInterval w.

(** The food, when there is one, is on the grid. *)
Definition food_on_grid (w : World) : Prop :=
  forall c, food w = Some c -> on_grid c.

Definition keeps_food_on_grid (w w' : World) : Prop :=
  food_on_grid w -> food_on_grid w'.

(** The timer runs exactly when somebody is connected. *)
Definition timer_matches (w : World) : Prop :=
  gameInterval w = true <-> players w <> [].

(** The score counts the cells the snake has gained. *)
Definition score_counts_growth (p : Player) : Prop :=
  score p = Z.of_nat (List.length (snake p)) - 1.

Definition keeps (P : Player -> Prop) (p p' : Player) : Prop := P p -> P p'.

(** What no tick changes of a player. *)
Definition same_identity (p p' : Player) : Prop :=
  id p' = id p /\ name p' = name p /\ color p' = color p.

(** What no part of a tick after its first loop changes of a player. *)
Definition same_headings (p p' : Player) : Prop :=
  direction p' = direction p /\ pendingDirection p' = pendingDirection p.

Definition not_connect (ev : Event) : Prop :=
  match ev with
  | Connect => False
  | Message _ _ | Close _ | Tick => True
  end.

(** The player [onConnection] creates in [w]. *)
Definition newPlayer (e : Env) (w : World) : Player :=
  mkPlayer
    (substring 2 9 (toString36 e (Math_random_seq e (rng w))))
    (player_name (List.length (players w) + 1))
    [candidate e (S (rng w)) 0]
    (str_or_undefined
       (array_get directions
          (Qfloor (Math_random_seq e (rng w + 3)
                   * inject_Z (Z.of_nat (List.length directions))))))
    JNull 0
    (str_or_undefined
       (array_get colors
          (Qfloor (Math_random_seq e (rng w + 4)
                   * inject_Z (Z.of_nat (List.length colors))))))
    true.

(** What a message may change of a player: its name and its pending
    heading, and only of the player of the connection [playerId]. *)
Definition message_effect (playerId : string) (p p' : Player) : Prop :=
  (id p <> playerId -> p' = p) /\
  p' = set_name (name p') (set_pendingDirection (pendingDirection p') p).

(** [m] returns in every world whose players all satisfy [P], keeps [P]
    and relates every player before to the one after by [R]. *)
Definition returns_with (P : Player -> Prop) (R : Player -> Player -> Prop)
           {A : Type} (m : M A) : Prop :=
  forall e w, Forall P (players w) ->
    exists a w', m e w = Ret a w' /\ Forall P (players w') /\
                 Forall2 R (players w) (players w').

(** What [checkCollisions] of the first generation may do to a player:
    nothing, or put it back at (5,5) heading right with a score that is
    not negative and not above what it was. *)
Definition reset_or_kept (p p' : Player) : Prop :=
  same_identity p p' /\
  score p' <= Z.max 0 (score p) /\
  (p' = p \/
   (snake p' = [mkPos 5 5] /\ direction p' = JStr "right" /\ 0 <= score p')).

(** No head is on a cell of another player or on a later cell of its own
    snake. *)
Definition no_hits (w : World) : Prop :=
  forall j p,
    nth_error (players w) j = Some p ->
    exists h t,
      snake p = h :: t /\ ~ In h t /\
      forall k q, nth_error (players w) k = Some q ->
                  id q <> id p -> ~ In h (snake q).

(** The messages that do not make the handler of the colour server
    throw. *)
Definition handled (message : Inbound) : Prop :=
  match message with
  | Unparseable | Parsed JUndefined | Parsed JNull => False
  | Parsed _ => True
  end.

Definition toggles (messages : list Inbound) : nat :=
  List.length (filter (fun m => has_type m "toggle") messages).

(** Three players of the first generation, apart from each other. *)
Definition world_apart : World :=
  mkWorld [set_snake [mkPos 2 2; mkPos 2 3] alice;
           set_snake [mkPos 8 8] carol]
          (Some (mkPos 0 0)) true 0.

(** A string of ASCII characters only: each character is one byte and one
    UTF-16 code unit, so that the characters counted here are the code
    units [substring] counts. *)
Definition ascii_only (s : string) : bool :=
  forallb (fun c => Nat.ltb (nat_of_ascii c) 128) (list_ascii_of_string s).

(** The cell [c] is a cell of the snake of some player. *)
Definition on_a_snake (ps : list Player) (c : Position) : Prop :=
  exists p, In p ps /\ In c (snake p).

(** * Properties *)

(** ** Lists and positions *)

Lemma pos_eqb_eq (a b : Position) : pos_eqb a b = true <-> a = b.
Proof.
  unfold pos_eqb. rewrite andb_true_iff, !Z.eqb_eq.
  destruct a, b; simpl. split.
  - intros [-> ->]. reflexivity.
  - intros H. injection H as -> ->. auto.
Qed.

Lemma pos_eqb_refl (a : Position) : pos_eqb a a = true.
Proof. apply pos_eqb_eq. reflexivity. Qed.

Lemma update_nth_length {A : Type} (g : A -> A) (l : list A) (j : nat) :
  List.length (update_nth j g l) = List.length l.
Proof.
  revert j. induction l as [|a l IH]; intros [|j]; simpl; auto.
Qed.

Lemma nth_error_update_nth_eq {A : Type} (g : A -> A) (l : list A) (j : nat) :
  nth_error (update_nth j g l) j = option_map g (nth_error l j).
Proof.
  revert j. induction l as [|a l IH]; intros [|j]; simpl; auto.
Qed.

Lemma nth_error_update_nth_neq {A : Type} (g : A -> A) (l : list A)
      (j k : nat) :
  j <> k -> nth_error (update_nth j g l) k = nth_error l k.
Proof.
  revert j k. induction l as [|a l IH]; intros [|j] [|k] H; simpl; auto.
  - congruence.
Qed.

Lemma update_nth_app {A : Type} (g : A -> A) (l1 : list A) (a : A)
      (l2 : list A) :
  update_nth (List.length l1) g (l1 ++ a :: l2) = l1 ++ g a :: l2.
Proof.
  induction l1 as [|b l1 IH]; simpl; [reflexivity|]. now rewrite IH.
Qed.

Lemma update_nth_Forall2 {A : Type} (R : A -> A -> Prop) (g : A -> A)
      (l : list A) (j : nat) :
  (forall a, R a a) -> (forall a, R a (g a)) -> Forall2 R l (update_nth j g l).
Proof.
  intros Hrefl Hg. revert j.
  induction l as [|a l IH]; intros [|j]; simpl; constructor; auto.
  clear IH. induction l; constructor; auto.
Qed.

Lemma Forall2_refl {A : Type} (R : A -> A -> Prop) (l : list A) :
  (forall a, R a a) -> Forall2 R l l.
Proof. intros H. induction l; constructor; auto. Qed.

Lemma Forall2_trans {A : Type} (R : A -> A -> Prop) (l1 l2 l3 : list A) :
  (forall a b c, R a b -> R b c -> R a c) ->
  Forall2 R l1 l2 -> Forall2 R l2 l3 -> Forall2 R l1 l3.
Proof.
  intros Htr H12. revert l3.
  induction H12; intros l3 H23; inversion H23; subst; constructor; eauto.
Qed.

Lemma Forall2_nth_error {A : Type} (R : A -> A -> Prop) (l1 l2 : list A)
      (j : nat) (a : A) :
  Forall2 R l1 l2 -> nth_error l1 j = Some a ->
  exists b, nth_error l2 j = Some b /\ R a b.
Proof.
  intros H. revert j. induction H; intros [|j] Hj; simpl in *; try discriminate.
  - injection Hj as ->. eauto.
  - eauto.
Qed.

Lemma set_players_set_players (a b : list Player) (w : World) :
  set_players a (set_players b w) = set_players a w.
Proof. reflexivity. Qed.

Lemma set_players_same (w : World) : set_players (players w) w = w.
Proof. destruct w; reflexivity. Qed.

(** ** Random draws *)

Lemma getRandomPosition_eq (e : Env) (w : World) :
  getRandomPosition e w = Ret (candidate e (rng w) 0) (set_rng (rng w + 2) w).
Proof.
  unfold getRandomPosition, random_below, Math_random, bind, ret, candidate.
  simpl. rewrite Nat.add_0_r.
  replace (rng w + 1)%nat with (S (rng w)) by lia.
  replace (rng w + 2)%nat with (S (S (rng w))) by lia.
  reflexivity.
Qed.

Lemma candidate_shift (e : Env) (r i : nat) :
  candidate e (r + 2) i = candidate e r (S i).
Proof.
  unfold candidate. f_equal; do 3 f_equal; lia.
Qed.

(** ** [generateFood] of part_001 *)

Section GenerateFood.
Import Part001.

Lemma generateFood_loop_spec (e : Env) :
  forall (n : nat) (attempts : Z) (w : World),
    0 <= attempts < maxAttempts ->
    maxAttempts - attempts <= Z.of_nat n ->
    exists k : nat,
      (1 <= k)%nat /\ attempts + Z.of_nat k <= maxAttempts /\
      generateFood_loop n attempts e w
      = Ret (candidate e (rng w) (k - 1)) (set_rng (rng w + 2 * k) w) /\
      (forall i, (i < k - 1)%nat ->
         positionOccupied (players w) (candidate e (rng w) i) = true) /\
      (attempts + Z.of_nat k < maxAttempts ->
         positionOccupied (players w) (candidate e (rng w) (k - 1)) = false).
Proof.
  unfold maxAttempts.
  induction n as [|n IH]; intros attempts w Ha Hn; [lia|].
  cbn [generateFood_loop]. unfold bind at 1.
  rewrite getRandomPosition_eq. unfold bind at 1, get at 1.
  cbn [players set_rng].
  destruct (positionOccupied (players w) (candidate e (rng w) 0)) eqn:Hocc;
    cbn [negb orb].
  - unfold maxAttempts.
    destruct (attempts + 1 >=? 100) eqn:Hge.
    + exists 1%nat. apply Z.geb_le in Hge.
      split; [lia|]. split; [lia|]. split; [reflexivity|].
      split; [intros; lia | intros; lia].
    + rewrite Z.geb_leb in Hge. apply Z.leb_gt in Hge.
      destruct (IH (attempts + 1) (set_rng (rng w + 2) w))
        as (k & Hk1 & Hk2 & Heq & Hbefore & Hlast); [lia | lia |].
      cbn [rng set_rng players] in *.
      exists (S k). split; [lia|]. split; [lia|]. split; [|split].
      * rewrite Heq. rewrite candidate_shift.
        replace (S (k - 1)) with (S k - 1)%nat by lia.
        f_equal. unfold set_rng; cbn. f_equal. lia.
      * intros [|i] Hi; [exact Hocc|].
        rewrite <- candidate_shift. apply Hbefore. lia.
      * intros Hlt. replace (S k - 1)%nat with (S (k - 1)) by lia.
        rewrite <- candidate_shift. apply Hlast. lia.
  - exists 1%nat.
    split; [lia|]. split; [lia|]. split; [reflexivity|].
    split; [intros; lia | intros; exact Hocc].
Qed.

End GenerateFood.

Lemma generateFood_returns (e : Env) (w : World) :
  enough_fuel e ->
  exists (k : nat) (c : Position),
    Part001.generateFood e w = Ret c (set_rng (rng w + 2 * k) w).
Proof.
  intros Hfuel. unfold Part001.generateFood.
  destruct (generateFood_loop_spec e (fuel e) 0 w) as (k & _ & _ & Heq & _).
  - unfold Part001.maxAttempts. lia.
  - unfold Part001.maxAttempts, enough_fuel in *. lia.
  - eauto.
Qed.

(** ** Writing one player *)

Lemma update_nth_ext_at {A : Type} (g g' : A -> A) (l : list A) (j : nat)
      (a : A) :
  nth_error l j = Some a -> g a = g' a -> update_nth j g l = update_nth j g' l.
Proof.
  revert j. induction l as [|b l IH]; intros [|j] Hj Hg; simpl in *;
    try discriminate.
  - injection Hj as ->. now rewrite Hg.
  - f_equal. eauto.
Qed.

Lemma update_nth_twice {A : Type} (g1 g2 : A -> A) (l : list A) (j : nat) :
  update_nth j g2 (update_nth j g1 l) = update_nth j (fun a => g2 (g1 a)) l.
Proof.
  revert j. induction l as [|b l IH]; intros [|j]; simpl; auto.
  now rewrite IH.
Qed.

Lemma update_nth_none {A : Type} (g : A -> A) (l : list A) (j : nat) :
  nth_error l j = None -> update_nth j g l = l.
Proof.
  revert j. induction l as [|b l IH]; intros [|j] Hj; simpl in *;
    try discriminate; auto.
  f_equal. auto.
Qed.

Lemma update_nth_fix {A : Type} (g : A -> A) (l : list A) (j : nat) (a : A) :
  nth_error l j = Some a -> g a = a -> update_nth j g l = l.
Proof.
  revert j. induction l as [|b l IH]; intros [|j] Hj Hg; simpl in *;
    try discriminate.
  - injection Hj as ->. now rewrite Hg.
  - f_equal. eauto.
Qed.

(** A callback that does nothing to player [j] but apply [g]. *)
Lemma unchanged_as_update (g : Player -> Player) (j : nat) (w : World) :
  (forall p, nth_error (players w) j = Some p -> g p = p) ->
  w = set_players (update_nth j g (players w)) w.
Proof.
  intros H. destruct (nth_error (players w) j) as [p|] eqn:Hj.
  - rewrite (update_nth_fix g _ j p Hj (H p eq_refl)).
    now rewrite set_players_same.
  - rewrite (update_nth_none g _ j Hj). now rewrite set_players_same.
Qed.

Lemma commitDirection_eq (j : nat) (e : Env) (w : World) :
  Part001.commitDirection j e w
  = Ret tt (set_players (update_nth j commit1 (players w)) w).
Proof.
  unfold Part001.commitDirection, withPlayer.
  destruct (nth_error (players w) j) as [p|] eqn:Hj.
  - destruct (truthy (pendingDirection p) && alive p) eqn:Hc.
    + unfold modPlayer, modify. do 2 f_equal.
      apply (update_nth_ext_at _ _ _ _ p Hj).
      unfold commit1. now rewrite Hc.
    + unfold ret. f_equal. apply unchanged_as_update.
      intros q Hq. rewrite Hj in Hq. injection Hq as <-.
      unfold commit1. now rewrite Hc.
  - f_equal. apply unchanged_as_update. intros q Hq. congruence.
Qed.

Lemma movePlayer_spec (j : nat) (e : Env) (w : World) :
  enough_fuel e ->
  exists w',
    Part001.movePlayer j e w = Ret tt w' /\
    players w' = update_nth j (moved (food w)) (players w) /\
    gameInterval w' = gameInterval w.
Proof.
  intros Hfuel. unfold Part001.movePlayer, withPlayer.
  destruct (nth_error (players w) j) as [p|] eqn:Hj.
  2:{ exists w. rewrite (update_nth_none _ _ _ Hj). auto. }
  assert (Hsame : moved (food w) p = p ->
          exists w', ret tt e w = Ret tt w' /\
            players w' = update_nth j (moved (food w)) (players w) /\
            gameInterval w' = gameInterval w).
  { intros Hm. exists w. rewrite (update_nth_fix _ _ _ _ Hj Hm). auto. }
  destruct (alive p) eqn:Ha; cbn [negb].
  2:{ apply Hsame. unfold moved. now rewrite Ha. }
  destruct (snake p) as [|h t] eqn:Hs.
  { apply Hsame. unfold moved. now rewrite Ha, Hs. }
  unfold bind at 1, modPlayer at 1, modify at 1.
  unfold bind at 1, get at 1. cbn [food set_players].
  assert (Hmoved : forall b, eats (food w) (newHead p h) = b ->
            moved (food w) p =
            if b then set_score (score p + Part001.FOOD_SCORE)
                                (set_snake (newHead p h :: snake p) p)
            else set_snake (removelast (newHead p h :: snake p)) p).
  { intros b Hb. unfold moved. now rewrite Ha, Hs, Hb. }
  assert (Hpop :
    exists w',
      modPlayer j (fun p0 => set_snake (removelast (snake p0)) p0) e
        (set_players
           (update_nth j
              (fun p0 => set_snake (wrap_pos (step_head (direction p) h)
                                    :: snake p0) p0) (players w)) w)
      = Ret tt w' /\
      players w' =
      update_nth j (fun _ => set_snake (removelast (newHead p h :: snake p)) p)
                 (players w) /\
      gameInterval w' = gameInterval w).
  { eexists. split; [reflexivity|]. split; [|reflexivity].
    cbn [players set_players]. rewrite update_nth_twice.
    apply (update_nth_ext_at _ _ _ _ p Hj). reflexivity. }
  destruct (food w) as [f|] eqn:Hf.
  - fold (newHead p h).
    destruct ((x (newHead p h) =? x f) && (y (newHead p h) =? y f)) eqn:He.
    + unfold bind at 1, modPlayer at 1, modify at 1. unfold bind at 1.
      match goal with
      | |- context [Part001.generateFood e ?w0] =>
          destruct (generateFood_returns e w0 Hfuel) as (k & c & ->)
      end.
      unfold modify. eexists. split; [reflexivity|]. split; [|reflexivity].
      cbn [players set_players set_food set_rng]. rewrite update_nth_twice.
      apply (update_nth_ext_at _ _ _ _ p Hj).
      rewrite (Hmoved true) by (cbn [eats]; exact He). reflexivity.
    + destruct Hpop as (w' & Hrun & Hp & Hg). exists w'.
      split; [exact Hrun|]. split; [|exact Hg]. rewrite Hp.
      apply (update_nth_ext_at _ _ _ _ p Hj).
      rewrite (Hmoved false) by (cbn [eats]; exact He). reflexivity.
  - destruct Hpop as (w' & Hrun & Hp & Hg). exists w'.
    split; [exact Hrun|]. split; [|exact Hg]. rewrite Hp.
    apply (update_nth_ext_at _ _ _ _ p Hj).
    rewrite (Hmoved false) by reflexivity. reflexivity.
Qed.

(** ** Relations every step of an operation keeps *)

Section Frame.
Variable R : Player -> Player -> Prop.
Hypothesis R_refl : forall p, R p p.
Hypothesis R_trans : forall p q r, R p q -> R q r -> R p r.

Lemma runs_ret {A : Type} (a : A) : runs_with R (ret a).
Proof. intros e w _. exists w. split; [reflexivity|]. now apply Forall2_refl. Qed.

Lemma runs_throw {A : Type} (ex : Exn) : runs_with R (@throw A ex).
Proof. intros e w _. exists w. split; [reflexivity|]. now apply Forall2_refl. Qed.

Lemma runs_get : runs_with R get.
Proof. intros e w _. exists w. split; [reflexivity|]. now apply Forall2_refl. Qed.

Lemma runs_bind {A B : Type} (m : M A) (k : A -> M B) :
  runs_with R m -> (forall a, runs_with R (k a)) -> runs_with R (bind m k).
Proof.
  intros Hm Hk e w Hfuel. unfold bind.
  destruct (Hm e w Hfuel) as (w1 & Hw1 & HR1).
  destruct (m e w) as [a w1'|ex w1'|]; simpl in Hw1; try discriminate;
    injection Hw1 as ->.
  - destruct (Hk a e w1 Hfuel) as (w2 & Hw2 & HR2).
    exists w2. split; [exact Hw2|]. eapply Forall2_trans; eauto.
  - exists w1. auto.
Qed.

Lemma runs_try_catch {A : Type} (m : M A) (h : Exn -> M A) :
  runs_with R m -> (forall ex, runs_with R (h ex)) ->
  runs_with R (try_catch m h).
Proof.
  intros Hm Hh e w Hfuel. unfold try_catch.
  destruct (Hm e w Hfuel) as (w1 & Hw1 & HR1).
  destruct (m e w) as [a w1'|ex w1'|]; simpl in Hw1; try discriminate;
    injection Hw1 as ->.
  - exists w1. auto.
  - destruct (Hh ex e w1 Hfuel) as (w2 & Hw2 & HR2).
    exists w2. split; [exact Hw2|]. eapply Forall2_trans; eauto.
Qed.

(** A write that leaves [gameState.players] alone. *)
Lemma runs_modify (f : World -> World) :
  (forall w, players (f w) = players w) -> runs_with R (modify f).
Proof.
  intros Hf e w _. exists (f w). split; [reflexivity|].
  rewrite Hf. now apply Forall2_refl.
Qed.

Lemma runs_modPlayer (j : nat) (g : Player -> Player) :
  (forall p, R p (g p)) -> runs_with R (modPlayer j g).
Proof.
  intros Hg e w _. eexists. split; [reflexivity|].
  cbn [players set_players]. now apply update_nth_Forall2.
Qed.

Lemma runs_withPlayer (j : nat) (k : Player -> M unit) :
  (forall p, runs_with R (k p)) -> runs_with R (withPlayer j k).
Proof.
  intros Hk e w Hfuel. unfold withPlayer.
  destruct (nth_error (players w) j) as [p|].
  - now apply Hk.
  - exists w. split; [reflexivity|]. now apply Forall2_refl.
Qed.

Lemma runs_forEach_from (f : nat -> M unit) :
  (forall j, runs_with R (f j)) ->
  forall n j, runs_with R (forEach_from f j n).
Proof.
  intros Hf. induction n as [|n IH]; intros j; cbn [forEach_from].
  - apply runs_ret.
  - apply runs_bind; auto.
Qed.

Lemma runs_forEachPlayer (f : nat -> M unit) :
  (forall j, runs_with R (f j)) -> runs_with R (forEachPlayer f).
Proof.
  intros Hf e w Hfuel. unfold forEachPlayer.
  now apply runs_forEach_from.
Qed.

Lemma runs_Math_random : runs_with R Math_random.
Proof.
  intros e w _. eexists. split; [reflexivity|]. now apply Forall2_refl.
Qed.

Lemma runs_generateFood : runs_with R Part001.generateFood.
Proof.
  intros e w Hfuel.
  destruct (generateFood_returns e w Hfuel) as (k & c & ->).
  eexists. split; [reflexivity|]. now apply Forall2_refl.
Qed.

Lemma runs_commitDirection (j : nat) :
  (forall p, R p (commit1 p)) -> runs_with R (Part001.commitDirection j).
Proof.
  intros Hg e w _. rewrite commitDirection_eq.
  eexists. split; [reflexivity|].
  cbn [players set_players]. now apply update_nth_Forall2.
Qed.

Lemma runs_movePlayer (j : nat) :
  (forall f p, R p (moved f p)) -> runs_with R (Part001.movePlayer j).
Proof.
  intros Hg e w Hfuel.
  destruct (movePlayer_spec j e w Hfuel) as (w' & -> & Hp & _).
  exists w'. split; [reflexivity|]. rewrite Hp.
  now apply update_nth_Forall2.
Qed.

Lemma runs_checkCollisions :
  (forall segs p, R p (collide segs p)) -> runs_with R Part001.checkCollisions.
Proof.
  intros Hg. unfold Part001.checkCollisions.
  apply runs_bind; [apply runs_get|]. intros w0.
  apply runs_forEachPlayer. intros j e w _. unfold withPlayer.
  destruct (nth_error (players w) j) as [p|] eqn:Hj.
  2:{ exists w. split; [reflexivity|]. now apply Forall2_refl. }
  assert (Hstay : exists w', Some w = Some w' /\
                             Forall2 R (players w) (players w')).
  { exists w. split; [reflexivity|]. now apply Forall2_refl. }
  destruct (alive p) eqn:Ha; cbn [negb]; [|exact Hstay].
  destruct (snake p) as [|h t] eqn:Hs.
  { destruct (Part001.collectSegments (players w0)); exact Hstay. }
  destruct (existsb (Part001.hits p h) (Part001.collectSegments (players w0)))
    eqn:Hhit; [|exact Hstay].
  eexists. split; [reflexivity|]. cbn [players set_players].
  rewrite (update_nth_ext_at _ (collide (Part001.collectSegments (players w0)))
             _ _ p Hj).
  - now apply update_nth_Forall2.
  - unfold collide. now rewrite Ha, Hs, Hhit.
Qed.

(** What [updateGame] does after its second loop. *)
Lemma runs_after_moves :
  (forall segs p, R p (collide segs p)) ->
  runs_with R
    (Part001.checkCollisions ;;
     refresh <- Part001.foodMissingOrStale ;;
     if refresh
     then f <- Part001.generateFood ;; modify (set_food (Some f))
     else ret tt).
Proof.
  intros Hk. apply runs_bind; [now apply runs_checkCollisions|].
  intros _. apply runs_bind.
  - unfold Part001.foodMissingOrStale. apply runs_bind; [apply runs_get|].
    intros w0. destruct (food w0).
    + apply runs_bind; [apply runs_Math_random|]. intros. apply runs_ret.
    + apply runs_ret.
  - intros [|]; [|apply runs_ret].
    apply runs_bind; [apply runs_generateFood|].
    intros c. now apply runs_modify.
Qed.

(** What [updateGame] does after its first loop. *)
Lemma runs_after_commit :
  (forall f p, R p (moved f p)) ->
  (forall segs p, R p (collide segs p)) ->
  runs_with R
    (forEachPlayer Part001.movePlayer ;;
     Part001.checkCollisions ;;
     refresh <- Part001.foodMissingOrStale ;;
     if refresh
     then f <- Part001.generateFood ;; modify (set_food (Some f))
     else ret tt).
Proof.
  intros Hm Hk.
  apply runs_bind; [apply runs_forEachPlayer; intros; now apply runs_movePlayer|].
  intros _. now apply runs_after_moves.
Qed.

Lemma runs_updateGame :
  (forall p, R p (commit1 p)) ->
  (forall f p, R p (moved f p)) ->
  (forall segs p, R p (collide segs p)) ->
  runs_with R Part001.updateGame.
Proof.
  intros Hc Hm Hk. unfold Part001.updateGame.
  apply runs_bind; [apply runs_forEachPlayer; intros; now apply runs_commitDirection|].
  intros _. now apply runs_after_commit.
Qed.

(** The callback of the timer never lets an exception out. *)
Lemma gameLoopTick_returns :
  (forall p, R p (commit1 p)) ->
  (forall f p, R p (moved f p)) ->
  (forall segs p, R p (collide segs p)) ->
  forall e w, enough_fuel e ->
    exists w', Part001.gameLoopTick e w = Ret tt w' /\
               Forall2 R (players w) (players w').
Proof.
  intros Hc Hm Hk e w Hfuel.
  destruct (runs_updateGame Hc Hm Hk e w Hfuel) as (w' & Hw & HR).
  unfold Part001.gameLoopTick, try_catch.
  destruct (Part001.updateGame e w) as [[] w1|ex w1|]; simpl in Hw;
    try discriminate; injection Hw as ->; exists w'; auto.
Qed.

End Frame.

(** ** The handlers, one by one *)

Lemma onMessage_returns (R : Player -> Player -> Prop) :
  (forall p, R p p) ->
  (forall d p, R p (set_pendingDirection d p)) ->
  (forall n p, R p (set_name n p)) ->
  forall playerId message e w,
    exists w', Part001.onMessage playerId message e w = Ret tt w' /\
               Forall2 R (players w) (players w').
Proof.
  intros Hrefl Hd Hn playerId message e w.
  assert (Hstay : forall u, exists w',
             Ret tt u = Ret tt w' /\ Forall2 R (players u) (players w')).
  { intros u. exists u. split; [reflexivity|]. now apply Forall2_refl. }
  assert (Hmod : forall j g u, (forall p, R p (g p)) -> exists w',
             Ret tt (set_players (update_nth j g (players u)) u) = Ret tt w' /\
             Forall2 R (players u) (players w')).
  { intros j g u Hg. eexists. split; [reflexivity|].
    cbn [players set_players]. now apply update_nth_Forall2. }
  unfold Part001.onMessage, try_catch, bind at 1.
  destruct message as [|data]; cbn [JSON_parse]; [apply Hstay|].
  unfold ret at 1. unfold bind at 1.
  destruct data as [| |b|q|s|items|kvs]; cbn [prop];
    try (unfold throw; apply Hstay);
    unfold ret at 1; unfold bind at 1, get at 1;
    (destruct (index_of playerId (players w)) as [j|]; [|apply Hstay]).
  1-4: cbn [is_str]; apply Hstay.
  destruct (is_str _ "directionChange").
  - unfold withPlayer. destruct (nth_error (players w) j) as [p|]; [|apply Hstay].
    unfold bind at 1, ret at 1.
    match goal with
    | |- context [if ?c then _ else _] => destruct c
    end.
    + unfold modPlayer, modify. now apply Hmod.
    + apply Hstay.
  - destruct (is_str _ "setName"); [|apply Hstay].
    unfold bind at 1, ret at 1. unfold bind at 1.
    destruct (match assoc "name" kvs with Some u => u | None => JUndefined end);
      cbn [substring_0_15]; try (unfold throw; apply Hstay).
    unfold ret at 1, modPlayer, modify. now apply Hmod.
Qed.

Lemma Forall_set_player (P : Player -> Prop) (p : Player) (l : list Player) :
  P p -> Forall P l -> Forall P (set_player p l).
Proof.
  intros Hp Hl. unfold set_player.
  destruct (index_of (id p) l) as [j|].
  - clear -Hp Hl. revert j.
    induction Hl as [|a l Ha Hl IH]; intros [|j]; simpl; constructor; auto.
  - destruct (array_index (id p)) as [n|].
    + clear -Hp Hl. induction Hl as [|a l Ha Hl IH]; simpl.
      * constructor; auto.
      * destruct (array_index (id a)) as [m|];
          [destruct (m <? n)%N|]; repeat constructor; auto.
    + apply Forall_app. split; [exact Hl|]. constructor; auto.
Qed.

Lemma Forall_delete_player (P : Player -> Prop) (k : string)
      (l : list Player) :
  Forall P l -> Forall P (delete_player k l).
Proof.
  intros Hl. unfold delete_player. rewrite Forall_forall in *.
  intros a Ha. apply filter_In in Ha. now apply Hl.
Qed.

Lemma onConnection_spec (e : Env) (w : World) :
  exists w' p,
    Part001.onConnection e w = Ret tt w' /\
    players w' = set_player p (players w) /\
    snake p = [candidate e (S (rng w)) 0] /\
    score p = 0 /\ alive p = true /\ pendingDirection p = JNull.
Proof.
  cbv [Part001.onConnection bind generateId Math_random get getRandomPosition
       getRandomDirection getRandomColor random_below ret modify
       Part001.startGameLoop].
  cbn [rng set_rng players set_players gameInterval].
  assert (Hcand : forall a b, a = S (rng w) -> b = S (S (rng w)) ->
    [mkPos (Qfloor (Math_random_seq e a * inject_Z GRID_SIZE))
           (Qfloor (Math_random_seq e b * inject_Z GRID_SIZE))]
    = [candidate e (S (rng w)) 0]).
  { intros a b -> ->. unfold candidate. do 4 f_equal; f_equal; lia. }
  destruct (gameInterval w); cbn [negb];
    do 2 eexists; (split; [reflexivity|]);
    cbn [players set_players set_gameInterval];
    (split; [reflexivity|]); cbn [snake score alive pendingDirection];
    (split; [now apply Hcand|]); auto.
Qed.

Lemma onClose_spec (playerId : string) (e : Env) (w : World) :
  exists w',
    Part001.onClose playerId e w = Ret tt w' /\
    players w' = delete_player playerId (players w).
Proof.
  unfold Part001.onClose, bind at 1, get at 1.
  destruct (index_of playerId (players w)) as [j|] eqn:Hj.
  - unfold bind at 1, modify at 1, bind at 1, get at 1.
    cbn [players set_players].
    destruct (delete_player playerId (players w)) eqn:Hd.
    + unfold Part001.stopGameLoop, bind, get.
      cbn [gameInterval set_players].
      destruct (gameInterval w); eexists; (split; [reflexivity|]);
        cbn [players set_players set_gameInterval]; now rewrite ?Hd.
    + eexists. split; [reflexivity|]. reflexivity.
  - exists w. split; [reflexivity|].
    unfold delete_player. symmetry. apply forallb_filter_id.
    clear -Hj. induction (players w) as [|a l IH]; [reflexivity|].
    simpl in *. destruct (String.eqb (id a) playerId); [discriminate|].
    simpl. apply IH. now destruct (index_of playerId l).
Qed.

(** ** Dead players, scores and lengths *)

Lemma frozen_if_dead_refl (p : Player) : frozen_if_dead p p.
Proof. intros _. reflexivity. Qed.

Lemma frozen_if_dead_trans (p q r : Player) :
  frozen_if_dead p q -> frozen_if_dead q r -> frozen_if_dead p r.
Proof.
  unfold frozen_if_dead. intros Hpq Hqr Hp.
  specialize (Hpq Hp). subst q. auto.
Qed.

Lemma index_of_delete_player (k : string) (l : list Player) :
  index_of k (delete_player k l) = None.
Proof.
  induction l as [|a l IH]; [reflexivity|]. simpl.
  destruct (String.eqb (id a) k) eqn:Hk; simpl; [exact IH|].
  now rewrite Hk, IH.
Qed.

(** C7. A tick leaves the record of a player that is not alive exactly as
    it was, at its place in [gameState.players]: the snake does not move
    and no field changes, whether [updateGame] returns or throws; the
    record goes away when the connection of the player closes. *)
Theorem dead_player_frozen :
  forall (e : Env) (w : World) (j : nat) (p : Player),
    enough_fuel e ->
    nth_error (players w) j = Some p ->
    alive p = false ->
    (exists w', Part001.dispatch Tick e w = Ret tt w' /\
                nth_error (players w') j = Some p) /\
    (exists w', world_of (Part001.updateGame e w) = Some w' /\
                nth_error (players w') j = Some p) /\
    (exists w', Part001.dispatch (Close (id p)) e w = Ret tt w' /\
                index_of (id p) (players w') = None).
Proof.
  intros e w j p Hfuel Hj Hdead.
  assert (Hc : forall q, frozen_if_dead q (commit1 q)).
  { intros q Hq. unfold commit1. rewrite Hq, andb_false_r. reflexivity. }
  assert (Hm : forall f q, frozen_if_dead q (moved f q)).
  { intros f q Hq. unfold moved. now rewrite Hq. }
  assert (Hk : forall segs q, frozen_if_dead q (collide segs q)).
  { intros segs q Hq. unfold collide. now rewrite Hq. }
  split; [|split].
  - cbn [Part001.dispatch]. unfold bind, get.
    destruct (gameInterval w).
    + destruct (gameLoopTick_returns frozen_if_dead frozen_if_dead_refl
                  frozen_if_dead_trans Hc Hm Hk e w Hfuel) as (w' & Hrun & HR).
      exists w'. split; [exact Hrun|].
      destruct (Forall2_nth_error _ _ _ _ _ HR Hj) as (q & Hq & Hpq).
      rewrite Hq. f_equal. now apply Hpq.
    + exists w. auto.
  - destruct (runs_updateGame frozen_if_dead frozen_if_dead_refl
                frozen_if_dead_trans Hc Hm Hk e w Hfuel) as (w' & Hrun & HR).
    exists w'. split; [exact Hrun|].
    destruct (Forall2_nth_error _ _ _ _ _ HR Hj) as (q & Hq & Hpq).
    rewrite Hq. f_equal. now apply Hpq.
  - cbn [Part001.dispatch].
    destruct (onClose_spec (id p) e w) as (w' & Hrun & Hp).
    exists w'. split; [exact Hrun|]. rewrite Hp.
    apply index_of_delete_player.
Qed.

Lemma dead_player_frozen_witness :
  exists w', Part001.dispatch Tick env0 world1 = Ret tt w' /\
             nth_error (players w') 1 = Some bob.
Proof.
  destruct (dead_player_frozen env0 world1 1 bob) as [H _].
  - unfold enough_fuel. simpl. lia.
  - reflexivity.
  - reflexivity.
  - exact H.
Defined.

Lemma score_not_less_refl (p : Player) : score_not_less p p.
Proof. split; [reflexivity | lia]. Qed.

Lemma score_not_less_trans (p q r : Player) :
  score_not_less p q -> score_not_less q r -> score_not_less p r.
Proof. intros [H1 H2] [H3 H4]. split; [congruence | lia]. Qed.

Lemma same_score_refl (p : Player) : same_score p p.
Proof. split; reflexivity. Qed.

Lemma same_score_trans (p q r : Player) :
  same_score p q -> same_score q r -> same_score p r.
Proof. intros [H1 H2] [H3 H4]. split; congruence. Qed.

Lemma commit1_fields (p : Player) :
  id (commit1 p) = id p /\ score (commit1 p) = score p /\
  snake (commit1 p) = snake p /\ alive (commit1 p) = alive p.
Proof.
  unfold commit1. destruct (truthy (pendingDirection p) && alive p); auto.
Qed.

Lemma collide_fields (segs : list Part001.Segment) (p : Player) :
  id (collide segs p) = id p /\ score (collide segs p) = score p /\
  snake (collide segs p) = snake p /\
  direction (collide segs p) = direction p.
Proof.
  unfold collide. destruct (negb (alive p)); auto.
  destruct (snake p) as [|h t] eqn:Hs; auto.
  destruct (existsb (Part001.hits p h) segs); cbn; auto.
Qed.

Lemma moved_id (f : option Position) (p : Player) : id (moved f p) = id p.
Proof.
  unfold moved. destruct (negb (alive p)); auto.
  destruct (snake p) as [|h t]; auto.
  destruct (eats f (newHead p h)); reflexivity.
Qed.

Lemma moved_score (f : option Position) (p : Player) :
  score p <= score (moved f p).
Proof.
  unfold moved. destruct (negb (alive p)); try lia.
  destruct (snake p) as [|h t]; try lia.
  destruct (eats f (newHead p h)); cbn; unfold Part001.FOOD_SCORE; lia.
Qed.

(** C10. The score of a player never goes down: a tick and a message of a
    client leave every player in place with a score at least as large,
    and [checkCollisions], which marks players dead, leaves every score
    as it is. *)
Theorem score_never_decreases :
  forall (e : Env) (w : World),
    enough_fuel e ->
    (forall ev, tick_or_input ev ->
       exists w', Part001.dispatch ev e w = Ret tt w' /\
                  Forall2 score_not_less (players w) (players w')) /\
    (exists w', world_of (Part001.checkCollisions e w) = Some w' /\
                Forall2 same_score (players w) (players w')).
Proof.
  intros e w Hfuel. split.
  - intros [|playerId message|playerId|] Hev; try contradiction;
      cbn [Part001.dispatch].
    + apply onMessage_returns.
      * apply score_not_less_refl.
      * intros d p. split; cbn; [reflexivity | lia].
      * intros n p. split; cbn; [reflexivity | lia].
    + unfold bind, get. destruct (gameInterval w).
      * apply (gameLoopTick_returns score_not_less score_not_less_refl
                 score_not_less_trans); [| |  | exact Hfuel].
        -- intros p. destruct (commit1_fields p) as (Hi & Hs & _).
           split; [congruence | lia].
        -- intros f p. split; [now rewrite moved_id | apply moved_score].
        -- intros segs p. destruct (collide_fields segs p) as (Hi & Hs & _).
           split; [congruence | lia].
      * exists w. split; [reflexivity|].
        apply Forall2_refl, score_not_less_refl.
  - apply (runs_checkCollisions same_score same_score_refl same_score_trans);
      [|exact Hfuel].
    intros segs p. destruct (collide_fields segs p) as (Hi & Hs & _).
    split; congruence.
Qed.

Lemma score_never_decreases_witness :
  exists w', Part001.dispatch Tick env0 world1 = Ret tt w' /\
             Forall2 score_not_less (players world1) (players w').
Proof.
  destruct (score_never_decreases env0 world1) as [H _].
  - unfold enough_fuel. simpl. lia.
  - apply (H Tick). exact I.
Defined.

Lemma snake_stays_nonempty_refl (p : Player) : snake_stays_nonempty p p.
Proof. intros H. exact H. Qed.

Lemma snake_stays_nonempty_trans (p q r : Player) :
  snake_stays_nonempty p q -> snake_stays_nonempty q r ->
  snake_stays_nonempty p r.
Proof. unfold snake_stays_nonempty. auto. Qed.

Lemma moved_nonempty (f : option Position) (p : Player) :
  snake_stays_nonempty p (moved f p).
Proof.
  unfold snake_stays_nonempty, moved. intros Hne.
  destruct (negb (alive p)); auto.
  destruct (snake p) as [|h t] eqn:Hs; auto.
  destruct (eats f (newHead p h)); cbn; discriminate.
Qed.

Lemma nonempty_carried (l l' : list Player) :
  Forall2 snake_stays_nonempty l l' ->
  Forall (fun p => snake p <> []) l -> Forall (fun p => snake p <> []) l'.
Proof.
  induction 1 as [|a b l l' Hab Hl IH]; intros Hne; constructor;
    inversion Hne; subst; auto.
Qed.

Lemma dispatch_keeps_snakes (ev : Event) (e : Env) (w : World) :
  enough_fuel e -> snakes_nonempty w ->
  exists w', Part001.dispatch ev e w = Ret tt w' /\ snakes_nonempty w'.
Proof.
  intros Hfuel Hne. unfold snakes_nonempty in *.
  destruct ev as [|playerId message|playerId|]; cbn [Part001.dispatch].
  - destruct (onConnection_spec e w) as (w' & p & Hrun & Hp & Hs & _).
    exists w'. split; [exact Hrun|]. rewrite Hp.
    apply Forall_set_player; [|exact Hne]. rewrite Hs. discriminate.
  - destruct (onMessage_returns snake_stays_nonempty snake_stays_nonempty_refl
                (fun d p H => H) (fun n p H => H) playerId message e w)
      as (w' & Hrun & HR).
    exists w'. split; [exact Hrun|]. eapply nonempty_carried; eauto.
  - destruct (onClose_spec playerId e w) as (w' & Hrun & Hp).
    exists w'. split; [exact Hrun|]. rewrite Hp.
    now apply Forall_delete_player.
  - unfold bind, get. destruct (gameInterval w); [|exists w; auto].
    destruct (gameLoopTick_returns snake_stays_nonempty
                snake_stays_nonempty_refl snake_stays_nonempty_trans)
      with (e := e) (w := w) as (w' & Hrun & HR); [| | |exact Hfuel|].
    + intros p H. now rewrite (proj1 (proj2 (proj2 (commit1_fields p)))).
    + apply moved_nonempty.
    + intros segs p H.
      now rewrite (proj1 (proj2 (proj2 (collide_fields segs p)))).
    + exists w'. split; [exact Hrun|]. eapply nonempty_carried; eauto.
Qed.

(** C9. Every snake has at least one cell: there is none at process
    start, every event of the runtime (a connection, which creates a
    player, a message, a close, a tick) returns and keeps the property,
    so it holds after every sequence of events; and inside a tick each
    phase (direction commit, movement with food resolution, collision
    resolution) ends with every snake that was not empty still not
    empty. *)
Theorem snakes_never_empty :
  snakes_nonempty Part001.initial /\
  (forall ev e w, enough_fuel e -> snakes_nonempty w ->
     exists w', Part001.dispatch ev e w = Ret tt w' /\ snakes_nonempty w') /\
  (forall evs e, enough_fuel e ->
     exists w, Part001.run evs e Part001.initial = Some w /\
               snakes_nonempty w) /\
  runs_with snake_stays_nonempty (forEachPlayer Part001.commitDirection) /\
  runs_with snake_stays_nonempty (forEachPlayer Part001.movePlayer) /\
  runs_with snake_stays_nonempty Part001.checkCollisions.
Proof.
  split; [constructor|]. split; [exact dispatch_keeps_snakes|].
  split; [|split; [|split]].
  - intros evs e Hfuel.
    assert (Hgen : forall w, snakes_nonempty w ->
              exists w', Part001.run evs e w = Some w' /\ snakes_nonempty w').
    { induction evs as [|ev evs IH]; intros w Hw; cbn [Part001.run].
      - exists w. auto.
      - destruct (dispatch_keeps_snakes ev e w Hfuel Hw) as (w1 & -> & Hw1).
        cbn [world_of]. now apply IH. }
    apply Hgen. constructor.
  - apply runs_forEachPlayer;
      [apply snake_stays_nonempty_refl | apply snake_stays_nonempty_trans |].
    intros j. apply runs_commitDirection; [apply snake_stays_nonempty_refl|].
    intros p H. now rewrite (proj1 (proj2 (proj2 (commit1_fields p)))).
  - apply runs_forEachPlayer;
      [apply snake_stays_nonempty_refl | apply snake_stays_nonempty_trans |].
    intros j. apply runs_movePlayer; [apply snake_stays_nonempty_refl|].
    apply moved_nonempty.
  - apply runs_checkCollisions;
      [apply snake_stays_nonempty_refl | apply snake_stays_nonempty_trans |].
    intros segs p H.
    now rewrite (proj1 (proj2 (proj2 (collide_fields segs p)))).
Qed.

Lemma snakes_never_empty_witness :
  exists w, Part001.run [Connect; Tick; Connect; Tick] env0 Part001.initial
            = Some w /\ snakes_nonempty w.
Proof.
  destruct snakes_never_empty as (_ & _ & H & _).
  apply (H [Connect; Tick; Connect; Tick] env0).
  unfold enough_fuel. simpl. lia.
Defined.

(** ** Movement and food *)

Lemma eats_true_iff (f : option Position) (head : Position) :
  eats f head = true <-> f = Some head.
Proof.
  destruct f as [c|]; cbn [eats].
  - fold (pos_eqb head c). rewrite pos_eqb_eq. split; congruence.
  - split; discriminate.
Qed.

Lemma removelast_cons_length {A : Type} (a : A) (l : list A) :
  List.length (removelast (a :: l)) = List.length l.
Proof.
  revert a. induction l as [|b l IH]; intros a; [reflexivity|].
  change (removelast (a :: b :: l)) with (a :: removelast (b :: l)).
  cbn [List.length]. now rewrite IH.
Qed.

Lemma movePlayer_at (j : nat) (e : Env) (w : World) (p : Player) :
  enough_fuel e -> nth_error (players w) j = Some p ->
  exists w', Part001.movePlayer j e w = Ret tt w' /\
             nth_error (players w') j = Some (moved (food w) p).
Proof.
  intros Hfuel Hj.
  destruct (movePlayer_spec j e w Hfuel) as (w' & Hrun & Hp & _).
  exists w'. split; [exact Hrun|].
  now rewrite Hp, nth_error_update_nth_eq, Hj.
Qed.

Lemma wrap_mod (v : Z) : -1 <= v <= GRID_SIZE -> wrap v = v mod GRID_SIZE.
Proof.
  unfold wrap, GRID_SIZE. intros Hv.
  rewrite Z.rem_mod_nonneg by lia.
  replace (v + 25) with (v + 1 * 25) by lia.
  apply Z_mod_plus_full.
Qed.

Lemma step_head_heading (d : string) (h : Position) :
  is_heading d ->
  step_head (JStr d) h = mkPos (x h + fst (delta d)) (y h + snd (delta d)).
Proof.
  unfold is_heading, directions. intros Hd. simpl in Hd.
  destruct Hd as [<-|[<-|[<-|[<-|[]]]]]; unfold step_head, delta; cbn;
    f_equal; lia.
Qed.

Lemma delta_small (d : string) :
  -1 <= fst (delta d) <= 1 /\ -1 <= snd (delta d) <= 1.
Proof.
  unfold delta.
  destruct (String.eqb d "up"); [cbn; lia|].
  destruct (String.eqb d "down"); [cbn; lia|].
  destruct (String.eqb d "left"); [cbn; lia|].
  destruct (String.eqb d "right"); cbn; lia.
Qed.

Lemma newHead_mod (p : Player) (h : Position) (d : string) :
  on_grid h -> direction p = JStr d -> is_heading d ->
  newHead p h = mkPos ((x h + fst (delta d)) mod GRID_SIZE)
                      ((y h + snd (delta d)) mod GRID_SIZE).
Proof.
  intros [Hx Hy] Hdir Hd. unfold newHead, wrap_pos.
  rewrite Hdir, (step_head_heading d h Hd). cbn [x y].
  destruct (delta_small d) as [H1 H2]. unfold GRID_SIZE in *.
  rewrite !wrap_mod by (unfold GRID_SIZE; lia). reflexivity.
Qed.

(** C4. [movePlayer] puts in front of the snake of an alive player the
    head shifted by one cell in the player's heading, both coordinates
    modulo [GRID_SIZE]: the new head is on the grid, leaving the right
    edge enters at [x = 0], leaving the left edge enters at
    [x = GRID_SIZE - 1], and the same for [y] with down and up. *)
Theorem movement_is_toroidal :
  forall (e : Env) (w : World) (j : nat) (p : Player) (h : Position)
         (t : list Position) (d : string),
    enough_fuel e ->
    nth_error (players w) j = Some p ->
    alive p = true ->
    snake p = h :: t ->
    on_grid h ->
    direction p = JStr d ->
    is_heading d ->
    let head := mkPos ((x h + fst (delta d)) mod GRID_SIZE)
                      ((y h + snd (delta d)) mod GRID_SIZE) in
    exists w' p' rest,
      Part001.movePlayer j e w = Ret tt w' /\
      nth_error (players w') j = Some p' /\
      snake p' = head :: rest /\
      on_grid head /\
      (d = "right"%string -> x h = GRID_SIZE - 1 -> x head = 0) /\
      (d = "left"%string -> x h = 0 -> x head = GRID_SIZE - 1) /\
      (d = "down"%string -> y h = GRID_SIZE - 1 -> y head = 0) /\
      (d = "up"%string -> y h = 0 -> y head = GRID_SIZE - 1).
Proof.
  intros e w j p h t d Hfuel Hj Ha Hs Hgrid Hdir Hd head.
  destruct (movePlayer_at j e w p Hfuel Hj) as (w' & Hrun & Hp).
  assert (Hhead : newHead p h = head) by now apply newHead_mod.
  assert (Hsnake : exists rest, snake (moved (food w) p) = head :: rest).
  { unfold moved. rewrite Ha, Hs. cbn [negb]. rewrite Hhead.
    destruct (eats (food w) head); cbn [snake set_snake set_score].
    - eauto.
    - change (removelast (head :: h :: t)) with (head :: removelast (h :: t)).
      eauto. }
  destruct Hsnake as (rest & Hrest).
  exists w', (moved (food w) p), rest.
  split; [exact Hrun|]. split; [exact Hp|]. split; [exact Hrest|].
  subst head. cbn [x y]. unfold on_grid, GRID_SIZE in *. cbn [x y].
  split; [split; apply Z.mod_pos_bound; lia|].
  repeat split; intros -> Hh; rewrite Hh; reflexivity.
Qed.

Lemma movement_is_toroidal_witness :
  exists w' p' rest,
    Part001.movePlayer 0 env0
      (mkWorld [set_snake [mkPos 24 7] alice] None true 0) = Ret tt w' /\
    nth_error (players w') 0 = Some p' /\
    snake p' = mkPos 0 7 :: rest.
Proof.
  destruct (movement_is_toroidal env0
              (mkWorld [set_snake [mkPos 24 7] alice] None true 0) 0
              (set_snake [mkPos 24 7] alice) (mkPos 24 7) [] "right")
    as (w' & p' & rest & Hrun & Hp & Hs & _).
  - unfold enough_fuel. simpl. lia.
  - reflexivity.
  - reflexivity.
  - reflexivity.
  - unfold on_grid, GRID_SIZE. simpl. lia.
  - reflexivity.
  - unfold is_heading, directions. simpl. auto.
  - exists w', p', rest. auto.
Defined.

(** The first generation wraps with four tests; on a cell one step away
    from the grid that is the same head, for its grid of 20. *)
Lemma moveSnake_wrap_mod (d : string) (h : Position) :
  0 <= x h < Part000.gridSize -> 0 <= y h < Part000.gridSize ->
  is_heading d ->
  Part000.wrap_pos (step_head (JStr d) h)
  = mkPos ((x h + fst (delta d)) mod Part000.gridSize)
          ((y h + snd (delta d)) mod Part000.gridSize).
Proof.
  unfold Part000.gridSize. intros Hx Hy Hd.
  rewrite (step_head_heading d h Hd).
  destruct (delta_small d) as [H1 H2].
  unfold Part000.wrap_pos, Part000.gridSize. cbn [x y].
  assert (Hw : forall v, -1 <= v <= 20 ->
            (if (if v >=? 20 then 0 else v) <? 0 then 20 - 1
             else if v >=? 20 then 0 else v) = v mod 20).
  { intros v Hv. destruct (Z.eq_dec v 20) as [->|Hne]; [reflexivity|].
    destruct (Z.eq_dec v (-1)) as [->|Hne']; [reflexivity|].
    rewrite Z.mod_small by lia.
    destruct (v >=? 20) eqn:Hge; [rewrite Z.geb_leb in Hge; lia|].
    destruct (v <? 0) eqn:Hlt; [apply Z.ltb_lt in Hlt; lia|reflexivity]. }
  rewrite !Hw by lia. reflexivity.
Qed.

(** ** Food generation *)

(** C5. [generateFood] returns for every world: it draws [k] candidate
    positions with [1 <= k <= 100] (two calls of [Math.random()] each) and
    returns the last one drawn; every candidate before it was on a snake;
    when fewer than 100 were drawn the result is on no snake, so on no
    living one; the 100th is returned whatever it is on. *)
Theorem generateFood_bounded :
  forall (e : Env) (w : World),
    enough_fuel e ->
    exists k : nat,
      (1 <= k <= 100)%nat /\
      Part001.generateFood e w
      = Ret (candidate e (rng w) (k - 1)) (set_rng (rng w + 2 * k) w) /\
      (forall i, (i < k - 1)%nat ->
         positionOccupied (players w) (candidate e (rng w) i) = true) /\
      ((k < 100)%nat ->
         forall p, In p (players w) ->
                   ~ In (candidate e (rng w) (k - 1)) (snake p)) /\
      ((forall i, (i < 99)%nat ->
          positionOccupied (players w) (candidate e (rng w) i) = true) ->
       k = 100%nat).
Proof.
  intros e w Hfuel. unfold Part001.generateFood.
  destruct (generateFood_loop_spec e (fuel e) 0 w)
    as (k & Hk1 & Hk2 & Heq & Hbefore & Hlast).
  - unfold Part001.maxAttempts. lia.
  - unfold Part001.maxAttempts, enough_fuel in *. lia.
  - unfold Part001.maxAttempts in *. exists k.
    split; [lia|]. split; [exact Heq|]. split; [exact Hbefore|]. split.
    + intros Hk p Hp Hin.
      assert (Hocc : positionOccupied (players w)
                       (candidate e (rng w) (k - 1)) = true).
      { unfold positionOccupied. apply existsb_exists. exists p.
        split; [exact Hp|]. apply existsb_exists.
        exists (candidate e (rng w) (k - 1)). split; [exact Hin|].
        apply pos_eqb_refl. }
      rewrite Hlast in Hocc by lia. discriminate.
    + intros Hall. destruct (Nat.eq_dec k 100) as [|Hne]; [assumption|].
      rewrite Hall in Hlast by lia.
      assert (0 + Z.of_nat k < 100) by lia. specialize (Hlast H). discriminate.
Qed.

Lemma generateFood_bounded_witness :
  exists k : nat,
    (1 <= k <= 100)%nat /\
    Part001.generateFood env0 world1
    = Ret (candidate env0 0 (k - 1)) (set_rng (2 * k) world1).
Proof.
  destruct (generateFood_bounded env0 world1) as (k & Hk & Heq & _).
  - unfold enough_fuel. simpl. lia.
  - exists k. split; [exact Hk|]. exact Heq.
Defined.

(** When every draw lands on a snake, the 100th candidate is returned
    although a living snake is on it. *)
Lemma generateFood_fallback_example :
  Part001.generateFood env_zero world_blocked
  = Ret (mkPos 0 0) (set_rng 200 world_blocked) /\
  positionOccupied (players world_blocked) (mkPos 0 0) = true.
Proof. split; vm_compute; reflexivity. Qed.

(** ** Messages *)

(** C6. A message that cannot be parsed, or whose [type] is neither
    [directionChange] nor [setName], makes the handler return without
    throwing and leaves the whole world, so every player, as it was. *)
Theorem malformed_message_discarded :
  forall (e : Env) (w : World) (playerId : string) (message : Inbound),
    malformed message ->
    Part001.onMessage playerId message e w = Ret tt w.
Proof.
  intros e w playerId message [Hd Hn].
  unfold Part001.onMessage, try_catch, bind at 1.
  destruct message as [|data]; cbn [JSON_parse]; [reflexivity|].
  unfold ret at 1. unfold bind at 1.
  destruct data as [| |b|q|s|items|kvs]; cbn [prop]; try reflexivity;
    unfold ret at 1; unfold bind at 1, get at 1;
    (destruct (index_of playerId (players w)) as [j|]; [|reflexivity]);
    try reflexivity.
  cbn [has_type] in Hd, Hn.
  destruct (assoc "type" kvs) as [v|]; [|reflexivity].
  rewrite Hd, Hn. reflexivity.
Qed.

Lemma malformed_message_discarded_witness :
  Part001.onMessage "k3x9p2m7q" Unparseable env0 world1 = Ret tt world1 /\
  Part001.onMessage "k3x9p2m7q"
    (Parsed (JObj [("type"%string, JStr "teleport")])) env0 world1
  = Ret tt world1.
Proof.
  split; apply malformed_message_discarded; split; reflexivity.
Defined.

(** The handler of part_001 never throws, whatever the message. *)
Lemma onMessage_never_throws (playerId : string) (message : Inbound)
      (e : Env) (w : World) :
  exists w', Part001.onMessage playerId message e w = Ret tt w'.
Proof.
  destruct (onMessage_returns (fun _ _ => True) (fun _ => I) (fun _ _ => I)
              (fun _ _ => I) playerId message e w) as (w' & H & _).
  eauto.
Qed.

(** The handler of src/server.js lets the exception of [JSON.parse] out. *)
Lemma ServerJs_onMessage_throws (playerId : string) (e : Env) (w : World) :
  ServerJs.onMessage playerId Unparseable e w = Throw SyntaxError w /\
  ServerJs.onMessage playerId (Parsed JNull) e w = Throw TypeError w.
Proof. split; reflexivity. Qed.

(** ** Snapshots *)

Lemma acc_set_fresh (k : string) (v : Part001.ClientPlayer)
      (acc : list (string * Part001.ClientPlayer)) :
  ~ In k (map fst acc) -> Part001.acc_set k v acc = acc ++ [(k, v)].
Proof.
  induction acc as [|[k' v'] acc IH]; intros Hk; simpl; [reflexivity|].
  simpl in Hk. destruct (String.eqb k' k) eqn:Heq.
  - apply String.eqb_eq in Heq. tauto.
  - f_equal. apply IH. tauto.
Qed.

Lemma snapshot_fold (ex : option string) (l : list Player) :
  forall acc,
    NoDup (map fst acc ++ map id l) ->
    fold_left
      (fun acc player =>
         if Part001.differs (id player) ex then
           Part001.acc_set (id player)
             (Part001.mkClientPlayer (snake player) (color player)
                                     (alive player)) acc
         else acc) l acc
    = acc ++ map entry_of (filter (fun p => Part001.differs (id p) ex) l).
Proof.
  induction l as [|p l IH]; intros acc Hnd; cbn [fold_left filter map].
  - now rewrite app_nil_r.
  - cbn [map] in Hnd.
    assert (Hfresh : ~ In (id p) (map fst acc)).
    { intros Hin. apply NoDup_remove_2 in Hnd. apply Hnd.
      apply in_or_app. now left. }
    destruct (Part001.differs (id p) ex).
    + rewrite acc_set_fresh by exact Hfresh. rewrite IH.
      * rewrite <- app_assoc. reflexivity.
      * rewrite map_app, <- app_assoc. cbn [map fst app].
        exact Hnd.
    + apply IH. apply NoDup_remove_1 in Hnd. exact Hnd.
Qed.

Lemma acc_get_entries (k : string) (l : list Player) :
  Part001.acc_get k (map entry_of l)
  = option_map (fun p => snd (entry_of p))
               (find (fun p => String.eqb (id p) k) l).
Proof.
  induction l as [|p l IH]; [reflexivity|]. cbn.
  destruct (String.eqb (id p) k); [reflexivity | exact IH].
Qed.

Lemma filter_all {A : Type} (f : A -> bool) (l : list A) :
  (forall a, In a l -> f a = true) -> filter f l = l.
Proof.
  induction l as [|a l IH]; intros H; cbn; [reflexivity|].
  rewrite (H a) by now left. f_equal. apply IH. intros b Hb. apply H.
  now right.
Qed.

Lemma find_by_id (p : Player) (l : list Player) :
  NoDup (map id l) -> In p l ->
  find (fun q => String.eqb (id q) (id p)) l = Some p.
Proof.
  induction l as [|a l IH]; intros Hnd Hp; [contradiction|].
  cbn [map] in Hnd. inversion Hnd as [|? ? Hnotin Hnd']; subst.
  cbn [find]. destruct Hp as [->|Hp].
  - now rewrite String.eqb_refl.
  - destruct (String.eqb (id a) (id p)) eqn:Heq; [|now apply IH].
    apply String.eqb_eq in Heq. exfalso. apply Hnotin.
    rewrite Heq. now apply in_map.
Qed.

(** C8. The snapshot is the food and, in the order of the players, one
    entry under the id of each player, made of the snake, the colour and
    the alive flag of that player: of every player when no id is
    excluded, of every player but the one with the excluded id
    otherwise.  The excluded id has no entry, every other player has
    exactly that one, every entry is the one of a player that is not
    excluded, and the snapshot does not change when names, scores,
    headings and pending headings do. *)
Theorem snapshot_projection :
  forall (w : World) (excludePlayerId : option string),
    ids_unique w ->
    let snap := Part001.getClientGameState excludePlayerId w in
    Part001.cgs_food snap = food w /\
    (excludePlayerId = None ->
     Part001.cgs_players snap = map entry_of (players w)) /\
    (forall k, excludePlayerId = Some k ->
       Part001.cgs_players snap
       = map entry_of
             (filter (fun p => negb (String.eqb (id p) k)) (players w)) /\
       Part001.acc_get k (Part001.cgs_players snap) = None) /\
    (forall p, In p (players w) ->
       excludePlayerId <> Some (id p) ->
       Part001.acc_get (id p) (Part001.cgs_players snap)
       = Some (Part001.mkClientPlayer (snake p) (color p) (alive p))) /\
    (forall k entry,
       Part001.acc_get k (Part001.cgs_players snap) = Some entry ->
       excludePlayerId <> Some k /\
       exists p, In p (players w) /\ id p = k /\
                 entry = Part001.mkClientPlayer (snake p) (color p)
                                                (alive p)) /\
    (forall (n : Player -> string) (s : Player -> Z)
            (d d' : Player -> JsVal),
       Part001.getClientGameState excludePlayerId
         (set_players
            (map (fun p => set_name (n p) (set_score (s p)
                    (set_pendingDirection (d p) (set_direction (d' p) p))))
                 (players w)) w)
       = snap).
Proof.
  intros w ex Hnd snap.
  set (kept := fun p : Player =>
                 match ex with
                 | Some k => negb (String.eqb (id p) k)
                 | None => true
                 end).
  assert (Hplayers : Part001.cgs_players snap
                     = map entry_of (filter kept (players w))).
  { subst snap. unfold Part001.getClientGameState. cbn [Part001.cgs_players].
    rewrite snapshot_fold by exact Hnd. reflexivity. }
  assert (Hkept : forall p, kept p = true <-> ex <> Some (id p)).
  { intros p. unfold kept. destruct ex as [k|]; [|split; [discriminate|auto]].
    rewrite negb_true_iff, String.eqb_neq. split; congruence. }
  assert (Hget : forall k,
            Part001.acc_get k (Part001.cgs_players snap)
            = option_map
                (fun p => Part001.mkClientPlayer (snake p) (color p) (alive p))
                (find (fun p => String.eqb (id p) k)
                      (filter kept (players w)))).
  { intros k. rewrite Hplayers. apply acc_get_entries. }
  split; [reflexivity|]. split; [|split; [|split; [|split]]].
  - intros ->. rewrite Hplayers. f_equal. now apply filter_all.
  - intros k ->. split; [exact Hplayers|]. rewrite Hget.
    destruct (find _ _) as [p|] eqn:Hf; [|reflexivity].
    apply find_some in Hf. destruct Hf as [Hin Hk].
    apply filter_In in Hin. destruct Hin as [_ Hdiff].
    unfold kept in Hdiff. rewrite Hk in Hdiff. discriminate.
  - intros p Hp Hdiff. rewrite Hget, find_by_id; [reflexivity | |].
    + clear -Hnd. unfold ids_unique in Hnd.
      induction (players w) as [|a l IH]; [constructor|].
      cbn [map] in Hnd. inversion Hnd as [|? ? Hnotin Hnd']; subst.
      cbn [filter]. destruct (kept a); [|auto]. cbn [map].
      constructor; [|auto]. rewrite in_map_iff.
      intros (q & Hq & Hin). apply filter_In in Hin. apply Hnotin.
      rewrite <- Hq. apply in_map. tauto.
    + apply filter_In. split; [exact Hp | now apply Hkept].
  - intros k entry Hentry. rewrite Hget in Hentry.
    destruct (find _ _) as [p|] eqn:Hf; [|discriminate].
    apply find_some in Hf. destruct Hf as [Hin Hk].
    apply filter_In in Hin. destruct Hin as [Hin Hdiff].
    apply String.eqb_eq in Hk. subst k. split; [now apply Hkept|].
    exists p. cbn in Hentry. injection Hentry as <-. auto.
  - intros n s d d'. subst snap. unfold Part001.getClientGameState.
    cbn [players set_players food]. f_equal.
    rewrite !snapshot_fold.
    + cbn [app]. clear. induction (players w) as [|a l IH]; [reflexivity|].
      cbn [map filter]. cbn [id set_name set_score set_pendingDirection
                              set_direction].
      destruct (Part001.differs (id a) ex); cbn [map]; now rewrite IH.
    + exact Hnd.
    + cbn [map app]. rewrite map_map. cbn [id set_name]. exact Hnd.
Qed.

Lemma snapshot_projection_witness :
  Part001.cgs_players (Part001.getClientGameState None world2)
  = [entry_of alice; entry_of carol] /\
  Part001.cgs_players (Part001.getClientGameState (Some "k3x9p2m7q"%string)
                                                  world2)
  = [entry_of carol].
Proof.
  assert (Hnd : ids_unique world2).
  { unfold ids_unique. simpl.
    repeat constructor; simpl; intuition discriminate. }
  split.
  - destruct (snapshot_projection world2 None Hnd) as (_ & H & _).
    now apply H.
  - destruct (snapshot_projection world2 (Some "k3x9p2m7q"%string) Hnd)
      as (_ & _ & H & _).
    now destruct (H "k3x9p2m7q"%string eq_refl) as [H' _].
Defined.

(** ** Collisions *)

Lemma forEach_from_map (f : nat -> M unit) (g : Player -> Player)
      (P : Player -> Prop) (e : Env) :
  (forall j w p, nth_error (players w) j = Some p -> P p ->
     f j e w = Ret tt (set_players (update_nth j g (players w)) w)) ->
  forall (rest done : list Player) (w : World),
    players w = done ++ rest -> Forall P rest ->
    forEach_from f (List.length done) (List.length rest) e w
    = Ret tt (set_players (done ++ map g rest) w).
Proof.
  intros Hf. induction rest as [|p rest IH]; intros done w Hw HP.
  - cbn. unfold ret. rewrite app_nil_r in *. rewrite <- Hw.
    now rewrite set_players_same.
  - cbn [List.length forEach_from]. unfold bind.
    inversion HP as [|? ? Hp HP']; subst.
    rewrite (Hf (List.length done) w p).
    + rewrite Hw, update_nth_app.
      replace (S (List.length done)) with (List.length (done ++ [g p]))
        by (rewrite length_app; cbn; lia).
      rewrite (IH (done ++ [g p])).
      * rewrite set_players_set_players, <- app_assoc. reflexivity.
      * cbn [players set_players]. now rewrite <- app_assoc.
      * exact HP'.
    + rewrite Hw, nth_error_app2 by lia. now rewrite Nat.sub_diag.
    + exact Hp.
Qed.

Lemma forEachPlayer_map (f : nat -> M unit) (g : Player -> Player)
      (P : Player -> Prop) (e : Env) (w : World) :
  (forall j w p, nth_error (players w) j = Some p -> P p ->
     f j e w = Ret tt (set_players (update_nth j g (players w)) w)) ->
  Forall P (players w) ->
  forEachPlayer f e w = Ret tt (set_players (map g (players w)) w).
Proof.
  intros Hf HP. unfold forEachPlayer.
  apply (forEach_from_map f g P e Hf (players w) [] w); auto.
Qed.

Lemma commit_phase_eq (e : Env) (w : World) :
  forEachPlayer Part001.commitDirection e w
  = Ret tt (set_players (map commit1 (players w)) w).
Proof.
  apply (forEachPlayer_map _ _ (fun _ => True)).
  - intros j u p _ _. apply commitDirection_eq.
  - apply Forall_forall. auto.
Qed.

Lemma checkCollisions_eq (e : Env) (w : World) :
  snakes_nonempty w ->
  Part001.checkCollisions e w
  = Ret tt (set_players
              (map (collide (Part001.collectSegments (players w))) (players w))
              w).
Proof.
  intros Hne. unfold Part001.checkCollisions, bind at 1, get at 1.
  apply (forEachPlayer_map _ _ (fun p => snake p <> [])); [|exact Hne].
  intros j u p Hj Hp. unfold withPlayer. rewrite Hj.
  assert (Hstay : collide (Part001.collectSegments (players w)) p = p ->
            ret tt e u
            = Ret tt (set_players
                (update_nth j (collide (Part001.collectSegments (players w)))
                            (players u)) u)).
  { intros Hc. rewrite (update_nth_fix _ _ _ _ Hj Hc).
    now rewrite set_players_same. }
  destruct (alive p) eqn:Ha; cbn [negb].
  2:{ apply Hstay. unfold collide. now rewrite Ha. }
  destruct (snake p) as [|h t] eqn:Hs; [congruence|].
  destruct (existsb (Part001.hits p h) (Part001.collectSegments (players w)))
    eqn:Hhit.
  - unfold modPlayer, modify. do 2 f_equal.
    apply (update_nth_ext_at _ _ _ _ p Hj).
    unfold collide. now rewrite Ha, Hs, Hhit.
  - apply Hstay. unfold collide. now rewrite Ha, Hs, Hhit.
Qed.

Lemma In_segments_from (s : Part001.Segment) (pid : string)
      (l : list Position) :
  forall i0,
    In s (Part001.segments_from pid i0 l) <->
    exists i c, nth_error l i = Some c /\
                s = Part001.mkSegment (x c) (y c) pid (Nat.eqb (i0 + i) 0).
Proof.
  induction l as [|a l IH]; intros i0; cbn [Part001.segments_from In].
  - split; [contradiction|]. intros (i & c & Hi & _). now destruct i.
  - rewrite IH. split.
    + intros [<-|(i & c & Hi & ->)].
      * exists O, a. split; [reflexivity|]. now rewrite Nat.add_0_r.
      * exists (S i), c. split; [exact Hi|]. now rewrite Nat.add_succ_r.
    + intros ([|i] & c & Hi & ->); cbn in Hi.
      * left. injection Hi as ->. now rewrite Nat.add_0_r.
      * right. exists i, c. split; [exact Hi|]. now rewrite Nat.add_succ_r.
Qed.

Lemma In_collectSegments (s : Part001.Segment) (ps : list Player) :
  In s (Part001.collectSegments ps) <->
  exists k q i c,
    nth_error ps k = Some q /\ alive q = true /\
    nth_error (snake q) i = Some c /\
    s = Part001.mkSegment (x c) (y c) (id q) (Nat.eqb i 0).
Proof.
  unfold Part001.collectSegments. rewrite in_flat_map. split.
  - intros (q & Hq & Hs). destruct (alive q) eqn:Ha; [|contradiction].
    apply In_nth_error in Hq. destruct Hq as (k & Hk).
    apply In_segments_from in Hs. destruct Hs as (i & c & Hi & ->).
    exists k, q, i, c. auto.
  - intros (k & q & i & c & Hk & Ha & Hi & ->).
    exists q. split; [eapply nth_error_In; eauto|].
    rewrite Ha. apply In_segments_from. exists i, c. auto.
Qed.

Lemma ids_unique_nth_error (l : list Player) (j k : nat) (p q : Player) :
  NoDup (map id l) ->
  nth_error l j = Some p -> nth_error l k = Some q -> id p = id q -> j = k.
Proof.
  intros Hnd Hj Hk Hid.
  apply (proj1 (NoDup_nth_error (map id l)) Hnd).
  - rewrite length_map. apply nth_error_Some. congruence.
  - rewrite !nth_error_map, Hj, Hk. cbn. now rewrite Hid.
Qed.

(** C1. [checkCollisions] returns, touches nothing but [alive] flags,
    leaves dead players dead, and marks the alive player at place [j]
    dead exactly when the cell of its head holds a segment (player [k],
    index [i] in its snake) of a snake that was alive when the check
    began, other than its own head ([k <> j] or [i <> 0]). *)
Theorem collision_iff_foreign_segment :
  forall (e : Env) (w : World),
    ids_unique w ->
    snakes_nonempty w ->
    exists w',
      Part001.checkCollisions e w = Ret tt w' /\
      food w' = food w /\
      List.length (players w') = List.length (players w) /\
      forall j p,
        nth_error (players w) j = Some p ->
        exists p',
          nth_error (players w') j = Some p' /\
          p' = set_alive (alive p') p /\
          (alive p = false -> alive p' = false) /\
          (alive p = true ->
             (alive p' = false <->
              exists k q i c,
                nth_error (players w) k = Some q /\ alive q = true /\
                nth_error (snake q) i = Some c /\
                hd_error (snake p) = Some c /\
                (k <> j \/ i <> O))).
Proof.
  intros e w Hnd Hne. rewrite (checkCollisions_eq e w Hne).
  eexists. split; [reflexivity|]. cbn [food players set_players].
  split; [reflexivity|]. split; [apply length_map|].
  intros j p Hj. set (segs := Part001.collectSegments (players w)).
  exists (collide segs p).
  split; [now rewrite nth_error_map, Hj|].
  assert (Hp : snake p <> []).
  { unfold snakes_nonempty in Hne. rewrite Forall_forall in Hne.
    apply Hne. eapply nth_error_In; eauto. }
  destruct (snake p) as [|h t] eqn:Hs; [congruence|]. clear Hp.
  unfold collide. rewrite Hs.
  destruct (alive p) eqn:Ha; cbn [negb].
  2:{ split; [destruct p; cbn in *; now subst|]. split; [auto|discriminate]. }
  split; [|split; [discriminate|intros _]].
  { destruct (existsb (Part001.hits p h) segs); destruct p; cbn in *;
      now subst. }
  cbn [hd_error].
  assert (Hhits : existsb (Part001.hits p h) segs = true <->
            exists k q i c,
              nth_error (players w) k = Some q /\ alive q = true /\
              nth_error (snake q) i = Some c /\ Some h = Some c /\
              (k <> j \/ i <> O)).
  { rewrite existsb_exists. split.
    - intros (s & Hin & Hhit). apply In_collectSegments in Hin.
      destruct Hin as (k & q & i & c & Hk & Hq & Hi & ->).
      unfold Part001.hits in Hhit. cbn in Hhit.
      apply andb_true_iff in Hhit. destruct Hhit as [Hpos Hother].
      fold (pos_eqb c h) in Hpos. apply pos_eqb_eq in Hpos. subst c.
      exists k, q, i, h. repeat (split; [assumption || reflexivity|]).
      apply orb_true_iff in Hother. destruct Hother as [Hid|Hhead].
      + left. intros ->. rewrite Hj in Hk. injection Hk as <-.
        now rewrite String.eqb_refl in Hid.
      + right. intros ->. discriminate.
    - intros (k & q & i & c & Hk & Hq & Hi & Hc & Hother).
      injection Hc as <-.
      exists (Part001.mkSegment (x h) (y h) (id q) (Nat.eqb i 0)).
      split; [apply In_collectSegments; exists k, q, i, h; auto|].
      unfold Part001.hits. cbn. rewrite !Z.eqb_refl. cbn.
      apply orb_true_iff. destruct Hother as [Hkj|Hi0].
      + left. apply negb_true_iff, String.eqb_neq. intros Hid.
        apply Hkj. eapply ids_unique_nth_error; eauto.
      + right. destruct i; [congruence|reflexivity]. }
  destruct (existsb (Part001.hits p h) segs) eqn:Hex; cbn [alive set_alive].
  - split; [intros _; now apply Hhits | reflexivity].
  - split; [congruence|]. intros H. apply Hhits in H. discriminate.
Qed.

Lemma collision_iff_foreign_segment_witness :
  exists w',
    Part001.checkCollisions env0 world2 = Ret tt w' /\
    food w' = food world2 /\
    List.length (players w') = List.length (players world2).
Proof.
  destruct (collision_iff_foreign_segment env0 world2)
    as (w' & Hrun & Hfood & Hlen & _).
  - unfold ids_unique. simpl.
    repeat constructor; simpl; intuition discriminate.
  - unfold snakes_nonempty. simpl. repeat constructor; discriminate.
  - exists w'. auto.
Defined.

(** Head on head: both players die; a snake of one cell alone lives. *)
Lemma checkCollisions_examples :
  option_map (fun w => map alive (players w))
             (world_of (Part001.checkCollisions env0 world2))
  = Some [false; false] /\
  option_map (fun w => map alive (players w))
             (world_of (Part001.checkCollisions env0 world1))
  = Some [true; false].
Proof. split; reflexivity. Qed.

(** ** Reversals *)

Lemma moved_direction (f : option Position) (p : Player) :
  direction (moved f p) = direction p /\
  pendingDirection (moved f p) = pendingDirection p.
Proof.
  unfold moved. destruct (negb (alive p)); auto.
  destruct (snake p) as [|h t]; auto.
  destruct (eats f (newHead p h)); auto.
Qed.

Lemma collide_pending (segs : list Part001.Segment) (p : Player) :
  pendingDirection (collide segs p) = pendingDirection p.
Proof.
  unfold collide. destruct (negb (alive p)); auto.
  destruct (snake p) as [|h t]; auto.
  destruct (existsb (Part001.hits p h) segs); auto.
Qed.

Lemma updateGame_direction (e : Env) (w : World) (j : nat) (p : Player) :
  enough_fuel e -> nth_error (players w) j = Some p ->
  exists w' p',
    world_of (Part001.updateGame e w) = Some w' /\
    nth_error (players w') j = Some p' /\
    direction p' = direction (commit1 p).
Proof.
  intros Hfuel Hj. unfold Part001.updateGame, bind at 1.
  rewrite commit_phase_eq.
  destruct (runs_after_commit same_direction) with
    (e := e) (w := set_players (map commit1 (players w)) w)
    as (w' & Hrun & HR).
  - intros q. reflexivity.
  - unfold same_direction. intros a b c H1 H2. congruence.
  - intros f q. apply moved_direction.
  - intros segs q. apply collide_fields.
  - exact Hfuel.
  - cbn [players set_players] in HR.
    destruct (Forall2_nth_error _ _ _ j (commit1 p) HR) as (p' & Hp' & Hd).
    { now rewrite nth_error_map, Hj. }
    exists w', p'. auto.
Qed.

Lemma tick_direction (e : Env) (w : World) (j : nat) (p : Player) :
  enough_fuel e -> nth_error (players w) j = Some p ->
  exists w' p',
    Part001.dispatch Tick e w = Ret tt w' /\
    nth_error (players w') j = Some p' /\
    (direction p' = direction p \/
     (truthy (pendingDirection p) = true /\ alive p = true /\
      direction p' = pendingDirection p)).
Proof.
  intros Hfuel Hj. cbn [Part001.dispatch]. unfold bind, get.
  destruct (gameInterval w); [|exists w, p; auto].
  destruct (updateGame_direction e w j p Hfuel Hj) as (w' & p' & Hw & Hp & Hd).
  exists w', p'. split; [|split; [exact Hp|]].
  - unfold Part001.gameLoopTick, try_catch.
    destruct (Part001.updateGame e w) as [[] w1|ex w1|]; cbn in Hw;
      try discriminate; now injection Hw as ->.
  - rewrite Hd. unfold commit1.
    destruct (truthy (pendingDirection p)) eqn:Ht; cbn [andb]; [|now left].
    destruct (alive p); [right; auto | now left].
Qed.

Lemma opposite_reversal (c d : JsVal) :
  opposite c d <-> Part001.reversal c d = true.
Proof.
  unfold opposite, Part001.reversal. rewrite !orb_true_iff, !andb_true_iff.
  assert (Hs : forall v lit, is_str v lit = true <-> v = JStr lit).
  { intros v lit. destruct v; cbn; try (split; [discriminate|congruence]).
    rewrite String.eqb_eq. split; congruence. }
  rewrite !Hs. tauto.
Qed.

(** The tick itself has no reversal check: in a world where the reverse
    of the heading is pending (the message handler never produces one)
    it commits it. *)
Lemma tick_commits_reversal :
  ~ tick_keeps_heading_on_reversal env0 world_reversal 0.
Proof.
  intros H.
  destruct (H (set_pendingDirection (JStr "left") alice) eq_refl)
    as (w' & p' & Hrun & Hp & Hd).
  - right. right. right. split; reflexivity.
  - vm_compute in Hrun. injection Hrun as <-.
    vm_compute in Hp. injection Hp as <-.
    discriminate Hd.
Qed.

(** A [directionChange] message asking for the reverse of the heading of
    its player is dropped when it arrives: the handler returns the world
    as it was.  The tick that follows leaves the heading unchanged when
    nothing else is pending, and never sets it to the reverse asked for
    as long as the pending heading is not a reversal itself. *)
Lemma reversal_rejected_on_input :
  forall (e : Env) (w : World) (playerId : string) (j : nat) (p : Player)
         (kvs : list (string * JsVal)) (d : JsVal),
    enough_fuel e ->
    index_of playerId (players w) = Some j ->
    nth_error (players w) j = Some p ->
    asks_direction kvs d ->
    opposite (direction p) d ->
    Part001.onMessage playerId (Parsed (JObj kvs)) e w = Ret tt w /\
    exists w' p',
      Part001.dispatch Tick e w = Ret tt w' /\
      nth_error (players w') j = Some p' /\
      (truthy (pendingDirection p) = false -> direction p' = direction p) /\
      (no_reversal_pending p -> direction p' <> d).
Proof.
  intros e w playerId j p kvs d Hfuel Hidx Hj [Htype Hdir] Hopp. split.
  - unfold Part001.onMessage, try_catch, bind at 1. cbn [JSON_parse].
    unfold ret at 1. unfold bind at 1. cbn [prop]. rewrite Htype.
    unfold ret at 1. unfold bind at 1, get at 1. rewrite Hidx.
    cbn [is_str]. rewrite String.eqb_refl.
    unfold withPlayer. rewrite Hj. unfold bind at 1. cbn [prop].
    rewrite Hdir. unfold ret at 1.
    apply opposite_reversal in Hopp. unfold Part001.reversal in Hopp.
    rewrite !orb_true_iff in Hopp.
    destruct Hopp as [[[H|H]|H]|H]; rewrite H;
      rewrite ?andb_false_r; reflexivity.
  - destruct (tick_direction e w j p Hfuel Hj) as (w' & p' & Hrun & Hp & Hd).
    exists w', p'. split; [exact Hrun|]. split; [exact Hp|]. split.
    + intros Hfalsy. destruct Hd as [Hd|(Ht & _)]; [exact Hd|congruence].
    + intros Hnr Heq. destruct Hd as [Hd|(_ & _ & Hd)].
      * rewrite Hd in Heq. subst d.
        destruct Hopp as [[H1 H2]|[[H1 H2]|[[H1 H2]|[H1 H2]]]]; congruence.
      * rewrite Hd in Heq. subst d.
        apply opposite_reversal in Hopp. unfold no_reversal_pending in Hnr.
        congruence.
Qed.

Lemma reversal_rejected_on_input_witness :
  Part001.onMessage "k3x9p2m7q"
    (Parsed (JObj [("type"%string, JStr "directionChange");
                   ("direction"%string, JStr "left")])) env0 world1
  = Ret tt world1.
Proof.
  destruct (reversal_rejected_on_input env0 world1 "k3x9p2m7q" 0 alice
              [("type"%string, JStr "directionChange");
               ("direction"%string, JStr "left")] (JStr "left")) as [H _].
  - unfold enough_fuel. simpl. lia.
  - reflexivity.
  - reflexivity.
  - split; reflexivity.
  - right. right. right. split; reflexivity.
  - exact H.
Defined.

(** ** The worlds the server can be in *)

Lemma random_below_range (r : Q) (n : Z) :
  0 < n -> (0 <= r)%Q -> (r < 1)%Q -> 0 <= Qfloor (r * inject_Z n) < n.
Proof.
  intros Hn H0 H1. split.
  - change 0 with (Qfloor 0). apply Qfloor_resp_le.
    apply Qmult_le_0_compat; [exact H0|].
    change 0%Q with (inject_Z 0). rewrite <- Zle_Qle. lia.
  - rewrite Zlt_Qlt. eapply Qle_lt_trans; [apply Qfloor_le|].
    rewrite <- (Qmult_1_l (inject_Z n)) at 2.
    apply Qmult_lt_compat_r; [|exact H1].
    change 0%Q with (inject_Z 0). rewrite <- Zlt_Qlt. exact Hn.
Qed.

Lemma candidate_on_grid (e : Env) (r i : nat) :
  unit_random e -> on_grid (candidate e r i).
Proof.
  intros Hu. unfold on_grid, candidate. cbn [x y].
  split; apply random_below_range; try apply Hu; reflexivity.
Qed.

Lemma wrap_range (v : Z) : -1 <= v <= GRID_SIZE -> 0 <= wrap v < GRID_SIZE.
Proof.
  intros Hv. rewrite wrap_mod by exact Hv.
  apply Z.mod_pos_bound. reflexivity.
Qed.

Lemma step_head_near (d : JsVal) (h : Position) :
  x h - 1 <= x (step_head d h) <= x h + 1 /\
  y h - 1 <= y (step_head d h) <= y h + 1.
Proof.
  unfold step_head.
  destruct (is_str d "up"); [cbn; lia|].
  destruct (is_str d "down"); [cbn; lia|].
  destruct (is_str d "left"); [cbn; lia|].
  destruct (is_str d "right"); cbn; lia.
Qed.

Lemma newHead_on_grid (p : Player) (h : Position) :
  on_grid h -> on_grid (newHead p h).
Proof.
  intros [Hx Hy]. unfold newHead, wrap_pos, on_grid. cbn [x y].
  destruct (step_head_near (direction p) h) as [H1 H2].
  unfold GRID_SIZE in *. split; apply wrap_range; unfold GRID_SIZE; lia.
Qed.

Lemma Forall_removelast {A : Type} (P : A -> Prop) (l : list A) :
  Forall P l -> Forall P (removelast l).
Proof.
  induction 1 as [|a l Ha Hl IH]; [constructor|].
  destruct l as [|b l]; [constructor|].
  change (removelast (a :: b :: l)) with (a :: removelast (b :: l)).
  constructor; auto.
Qed.

Lemma reversal_null (d : JsVal) : Part001.reversal d JNull = false.
Proof.
  unfold Part001.reversal. cbn [is_str]. now rewrite !andb_false_r.
Qed.

Lemma well_kept_refl (p : Player) : well_kept p p.
Proof. split; auto. Qed.

Lemma well_kept_trans (p q r : Player) :
  well_kept p q -> well_kept q r -> well_kept p r.
Proof. intros [H1 H2] [H3 H4]. split; [congruence | auto]. Qed.

Lemma well_kept_commit1 (p : Player) : well_kept p (commit1 p).
Proof.
  unfold well_kept, commit1, player_ok, no_reversal_pending, cells_on_grid.
  destruct (truthy (pendingDirection p) && alive p); [|auto].
  cbn. split; [reflexivity|]. intros (H1 & _ & H3).
  split; [exact H1|]. split; [apply reversal_null | exact H3].
Qed.

Lemma well_kept_moved (f : option Position) (p : Player) :
  well_kept p (moved f p).
Proof.
  split; [now rewrite moved_id|]. intros (H1 & H2 & H3).
  split; [now apply moved_nonempty|]. split.
  - unfold no_reversal_pending in *.
    destruct (moved_direction f p) as [-> ->]. exact H2.
  - unfold cells_on_grid, moved in *. destruct (negb (alive p)); [exact H3|].
    destruct (snake p) as [|h t] eqn:Hs; [now rewrite Hs|].
    assert (Hall : Forall on_grid (newHead p h :: h :: t)).
    { constructor; [|exact H3]. apply newHead_on_grid.
      now inversion H3. }
    destruct (eats f (newHead p h)); cbn [snake set_snake set_score].
    + exact Hall.
    + now apply Forall_removelast.
Qed.

Lemma well_kept_collide (segs : list Part001.Segment) (p : Player) :
  well_kept p (collide segs p).
Proof.
  destruct (collide_fields segs p) as (Hi & _ & Hs & Hd).
  split; [congruence|].
  unfold player_ok, no_reversal_pending, cells_on_grid.
  now rewrite Hs, Hd, collide_pending.
Qed.

Lemma well_formed_players (w : World) :
  well_formed w <-> ids_unique w /\ Forall player_ok (players w).
Proof.
  unfold well_formed, snakes_nonempty. split.
  - intros (H1 & H2 & H3 & H4). split; [exact H1|].
    rewrite Forall_forall in *. intros p Hp. unfold player_ok. auto.
  - intros (H1 & H2). rewrite Forall_forall in H2. unfold player_ok in H2.
    split; [exact H1|]. rewrite !Forall_forall.
    repeat split; intros p Hp; apply H2; exact Hp.
Qed.

Lemma well_kept_carried (l l' : list Player) :
  Forall2 well_kept l l' ->
  NoDup (map id l) /\ Forall player_ok l ->
  NoDup (map id l') /\ Forall player_ok l'.
Proof.
  induction 1 as [|a b l l' [Hid Hok] Hl IH]; [auto|].
  intros [Hnd Hall]. cbn [map] in *.
  inversion Hnd as [|? ? Hnotin Hnd']; subst.
  inversion Hall as [|? ? Ha Hall']; subst.
  destruct (IH (conj Hnd' Hall')) as [IH1 IH2].
  split; [|constructor; auto].
  constructor; [|exact IH1].
  assert (Hmap : map id l = map id l').
  { clear -Hl. induction Hl as [|? ? ? ? [H _] _ IHl]; cbn; congruence. }
  now rewrite <- Hid, <- Hmap.
Qed.

Lemma index_of_None (k : string) (l : list Player) :
  index_of k l = None <-> ~ In k (map id l).
Proof.
  induction l as [|a l IH]; cbn; [tauto|].
  destruct (String.eqb (id a) k) eqn:Heq.
  - apply String.eqb_eq in Heq. split; [discriminate|tauto].
  - apply String.eqb_neq in Heq. destruct (index_of k l) as [i|]; cbn.
    + split; [discriminate|]. intros H. exfalso.
      assert (Hn : ~ In k (map id l)) by tauto.
      apply IH in Hn. discriminate.
    + split; [|reflexivity]. intros _ [H|H]; [contradiction|].
      now apply (proj1 IH).
Qed.

Lemma index_of_Some (k : string) (l : list Player) (j : nat) :
  index_of k l = Some j -> exists q, nth_error l j = Some q /\ id q = k.
Proof.
  revert j. induction l as [|a l IH]; intros j Hj; cbn in *; [discriminate|].
  destruct (String.eqb (id a) k) eqn:Heq.
  - injection Hj as <-. apply String.eqb_eq in Heq.
    exists a. split; [reflexivity | exact Heq].
  - destruct (index_of k l) as [i|]; cbn in Hj; [|discriminate].
    injection Hj as <-. now apply IH.
Qed.

Lemma map_id_update_nth (g : Player -> Player) (l : list Player) (j : nat) :
  (forall q, nth_error l j = Some q -> id (g q) = id q) ->
  map id (update_nth j g l) = map id l.
Proof.
  revert j. induction l as [|a l IH]; intros [|j] Hg; cbn; auto.
  - f_equal. now apply Hg.
  - f_equal. now apply IH.
Qed.

Lemma In_insert_index (n : N) (p a : Player) (l : list Player) :
  In a (insert_index n p l) <-> a = p \/ In a l.
Proof.
  induction l as [|b l IH]; cbn; [intuition congruence|].
  destruct (array_index (id b)) as [m|]; [destruct (m <? n)%N|]; cbn;
    rewrite ?IH; intuition congruence.
Qed.

Lemma NoDup_insert_index (n : N) (p : Player) (l : list Player) :
  ~ In (id p) (map id l) -> NoDup (map id l) ->
  NoDup (map id (insert_index n p l)).
Proof.
  induction l as [|b l IH]; intros Hnew Hnd; cbn in *.
  - repeat constructor. auto.
  - inversion Hnd as [|? ? Hb Hnd']; subst.
    assert (Hgoal : NoDup (id p :: id b :: map id l)).
    { constructor; [cbn; tauto | exact Hnd]. }
    destruct (array_index (id b)) as [m|]; [destruct (m <? n)%N|];
      cbn [map]; try exact Hgoal.
    constructor.
    + rewrite in_map_iff. intros (a & Ha & Hin).
      apply In_insert_index in Hin. destruct Hin as [->|Hin].
      * apply Hnew. left. congruence.
      * apply Hb. rewrite <- Ha. now apply in_map.
    + apply IH; [tauto | exact Hnd'].
Qed.

Lemma NoDup_set_player (p : Player) (l : list Player) :
  NoDup (map id l) -> NoDup (map id (set_player p l)).
Proof.
  intros Hnd. unfold set_player.
  destruct (index_of (id p) l) as [j|] eqn:Hidx.
  - rewrite map_id_update_nth; [exact Hnd|].
    intros q Hq. destruct (index_of_Some _ _ _ Hidx) as (q' & Hq' & Hid).
    congruence.
  - apply index_of_None in Hidx.
    destruct (array_index (id p)) as [n|].
    + now apply NoDup_insert_index.
    + rewrite map_app. cbn [map].
      apply NoDup_app; [exact Hnd | repeat constructor; auto |].
      intros a Ha [<-|[]]. contradiction.
Qed.

Lemma NoDup_delete_player (k : string) (l : list Player) :
  NoDup (map id l) -> NoDup (map id (delete_player k l)).
Proof.
  induction l as [|a l IH]; intros Hnd; cbn in *; [constructor|].
  inversion Hnd as [|? ? Ha Hnd']; subst.
  destruct (negb (String.eqb (id a) k)); cbn [map]; [|auto].
  constructor; [|auto].
  rewrite in_map_iff. intros (b & Hb & Hin).
  apply filter_In in Hin. apply Ha. rewrite <- Hb. apply in_map. tauto.
Qed.

Lemma Forall_update_nth_const {A : Type} (P : A -> Prop) (b : A)
      (l : list A) (j : nat) :
  Forall P l -> P b -> Forall P (update_nth j (fun _ => b) l).
Proof.
  intros Hl Hb. revert j.
  induction Hl as [|a l Ha Hl IH]; intros [|j]; cbn; constructor; auto.
Qed.

Lemma onMessage_cases (playerId : string) (message : Inbound) (e : Env)
      (w : World) :
  exists w',
    Part001.onMessage playerId message e w = Ret tt w' /\
    (w' = w \/
     (exists j n,
        w' = set_players (update_nth j (set_name n) (players w)) w) \/
     (exists j p d,
        nth_error (players w) j = Some p /\
        Part001.reversal (direction p) d = false /\
        w' = set_players
               (update_nth j (set_pendingDirection d) (players w)) w)).
Proof.
  assert (Hstay : forall u, exists w',
             Ret tt u = Ret tt w' /\
             (w' = u \/
              (exists j n,
                 w' = set_players (update_nth j (set_name n) (players u)) u) \/
              (exists j p d,
                 nth_error (players u) j = Some p /\
                 Part001.reversal (direction p) d = false /\
                 w' = set_players
                        (update_nth j (set_pendingDirection d) (players u))
                        u))).
  { intros u. exists u. auto. }
  unfold Part001.onMessage, try_catch, bind at 1.
  destruct message as [|data]; cbn [JSON_parse]; [apply Hstay|].
  unfold ret at 1. unfold bind at 1.
  destruct data as [| |b|q|s|items|kvs]; cbn [prop];
    try (unfold throw; apply Hstay);
    unfold ret at 1; unfold bind at 1, get at 1;
    (destruct (index_of playerId (players w)) as [j|]; [|apply Hstay]).
  1-4: cbn [is_str]; apply Hstay.
  destruct (is_str _ "directionChange").
  - unfold withPlayer.
    destruct (nth_error (players w) j) as [p|] eqn:Hj; [|apply Hstay].
    unfold bind at 1, ret at 1.
    match goal with
    | |- context [if ?c then _ else _] => destruct c eqn:Hguard
    end; [|apply Hstay].
    unfold modPlayer, modify. eexists. split; [reflexivity|].
    right. right. exists j, p. eexists. split; [exact Hj|].
    split; [|reflexivity].
    unfold Part001.reversal. rewrite !andb_true_iff, !negb_true_iff in Hguard.
    destruct Hguard as [[[-> ->] ->] ->]. reflexivity.
  - destruct (is_str _ "setName"); [|apply Hstay].
    unfold bind at 1, ret at 1. unfold bind at 1.
    destruct (match assoc "name" kvs with Some u => u | None => JUndefined end);
      cbn [substring_0_15]; try (unfold throw; apply Hstay).
    unfold ret at 1, modPlayer, modify. eexists. split; [reflexivity|].
    right. left. eauto.
Qed.

Lemma dispatch_well_formed (ev : Event) (e : Env) (w : World) :
  enough_fuel e -> unit_random e -> well_formed w ->
  exists w', Part001.dispatch ev e w = Ret tt w' /\ well_formed w'.
Proof.
  intros Hfuel Hunit Hwf. apply well_formed_players in Hwf.
  destruct Hwf as [Hnd Hok]. unfold ids_unique in Hnd.
  destruct ev as [|playerId message|playerId|]; cbn [Part001.dispatch].
  - destruct (onConnection_spec e w) as (w' & p & Hrun & Hp & Hs & _ & _ & Hpd).
    exists w'. split; [exact Hrun|]. apply well_formed_players.
    unfold ids_unique. rewrite Hp. split; [now apply NoDup_set_player|].
    apply Forall_set_player; [|exact Hok].
    unfold player_ok, no_reversal_pending, cells_on_grid. rewrite Hs, Hpd.
    split; [discriminate|]. split; [apply reversal_null|].
    constructor; [now apply candidate_on_grid | constructor].
  - destruct (onMessage_cases playerId message e w)
      as (w' & Hrun & [->|[(j & n & ->)|(j & p & d & Hj & Hrev & ->)]]);
      eexists; (split; [exact Hrun|]); apply well_formed_players;
      unfold ids_unique; cbn [players set_players].
    + auto.
    + apply (well_kept_carried (players w)); [|auto].
      apply update_nth_Forall2; [apply well_kept_refl|].
      intros q. split; [reflexivity|]. auto.
    + rewrite (update_nth_ext_at _ (fun _ => set_pendingDirection d p) _ _ p Hj)
        by reflexivity.
      split.
      * rewrite map_id_update_nth; [exact Hnd|]. intros q Hq.
        rewrite Hj in Hq. now injection Hq as <-.
      * apply Forall_update_nth_const; [exact Hok|].
        rewrite Forall_forall in Hok.
        destruct (Hok p) as (H1 & H2 & H3); [eapply nth_error_In; eauto|].
        repeat split; assumption.
  - destruct (onClose_spec playerId e w) as (w' & Hrun & Hp).
    exists w'. split; [exact Hrun|]. apply well_formed_players.
    unfold ids_unique. rewrite Hp.
    split; [now apply NoDup_delete_player | now apply Forall_delete_player].
  - unfold bind, get. destruct (gameInterval w).
    + destruct (gameLoopTick_returns well_kept well_kept_refl well_kept_trans
                  well_kept_commit1 well_kept_moved well_kept_collide
                  e w Hfuel) as (w' & Hrun & HR).
      exists w'. split; [exact Hrun|]. apply well_formed_players.
      now apply (well_kept_carried (players w)).
    + exists w. split; [reflexivity|]. now apply well_formed_players.
Qed.

(** X22. Every world reached from the start is well formed: distinct
    ids, no empty snake, no pending reversal, every cell on the grid. *)
Lemma reachable_well_formed (evs : list Event) (e : Env) :
  enough_fuel e -> unit_random e ->
  exists w, Part001.run evs e Part001.initial = Some w /\ well_formed w.
Proof.
  intros Hfuel Hunit.
  assert (Hgen : forall w, well_formed w ->
            exists w', Part001.run evs e w = Some w' /\ well_formed w').
  { induction evs as [|ev evs IH]; intros w Hw; cbn [Part001.run].
    - exists w. auto.
    - destruct (dispatch_well_formed ev e w Hfuel Hunit Hw) as (w1 & -> & Hw1).
      cbn [world_of]. now apply IH. }
  apply Hgen. repeat split; constructor.
Qed.

(** ** The tick, player by player *)

Lemma forEach_from_split (f : nat -> M unit) (n1 n2 a : nat) (e : Env)
      (w : World) :
  forEach_from f a (n1 + n2) e w
  = (forEach_from f a n1 ;; forEach_from f (a + n1) n2) e w.
Proof.
  revert a w. induction n1 as [|n1 IH]; intros a w; cbn [forEach_from Nat.add].
  - unfold bind, ret. now rewrite Nat.add_0_r.
  - unfold bind. destruct (f a e w) as [[] w1|ex w1|]; try reflexivity.
    rewrite IH. unfold bind. now rewrite Nat.add_succ_r.
Qed.

Lemma moves_elsewhere (e : Env) :
  enough_fuel e ->
  forall (n a : nat) (w : World),
    exists w',
      forEach_from Part001.movePlayer a n e w = Ret tt w' /\
      forall k, (k < a \/ a + n <= k)%nat ->
                nth_error (players w') k = nth_error (players w) k.
Proof.
  intros Hfuel. induction n as [|n IH]; intros a w; cbn [forEach_from].
  - exists w. split; [reflexivity|]. auto.
  - destruct (movePlayer_spec a e w Hfuel) as (w1 & Hrun & Hp & _).
    destruct (IH (S a) w1) as (w' & Hrest & Hsame).
    exists w'. unfold bind. rewrite Hrun. split; [exact Hrest|].
    intros k Hk. rewrite Hsame by lia. rewrite Hp.
    apply nth_error_update_nth_neq. lia.
Qed.

Lemma same_body_refl (p : Player) : same_body p p.
Proof. split; reflexivity. Qed.

Lemma same_body_trans (p q r : Player) :
  same_body p q -> same_body q r -> same_body p r.
Proof. intros [H1 H2] [H3 H4]. split; congruence. Qed.

(** The tick seen from one player: the player is moved once, in the world
    [world_at_move] gives, and nothing else in the tick touches its score
    or its snake. *)
Lemma tick_moves_once (e : Env) (w : World) (j : nat) (p : Player) :
  enough_fuel e ->
  nth_error (players w) j = Some p ->
  exists wj w' p',
    world_at_move j e w = Some wj /\
    nth_error (players wj) j = Some (commit1 p) /\
    (j = O -> food wj = food w) /\
    Part001.gameLoopTick e w = Ret tt w' /\
    nth_error (players w') j = Some p' /\
    same_body (moved (food wj) (commit1 p)) p'.
Proof.
  intros Hfuel Hj.
  set (w1 := set_players (map commit1 (players w)) w).
  assert (Hlen : exists m, List.length (players w1) = (j + S m)%nat).
  { assert (j < List.length (players w))%nat
      by (apply nth_error_Some; congruence).
    exists (List.length (players w) - S j)%nat.
    subst w1. cbn [players set_players]. rewrite length_map. lia. }
  destruct Hlen as (m & Hlen).
  destruct (moves_elsewhere e Hfuel j 0 w1) as (wj & Hrunj & Hsamej).
  assert (Hpj : nth_error (players wj) j = Some (commit1 p)).
  { rewrite Hsamej by lia. subst w1. cbn [players set_players].
    now rewrite nth_error_map, Hj. }
  destruct (movePlayer_at j e wj (commit1 p) Hfuel Hpj) as (wj' & Hmove & Hpj').
  destruct (moves_elsewhere e Hfuel m (S j) wj') as (w2 & Hrun2 & Hsame2).
  destruct (runs_after_moves same_body same_body_refl same_body_trans)
    with (e := e) (w := w2) as (w' & Hrest & HR); [| exact Hfuel |].
  { intros segs q. destruct (collide_fields segs q) as (_ & Hs & Hb & _).
    split; assumption. }
  destruct (Forall2_nth_error _ _ _ j (moved (food wj) (commit1 p)) HR)
    as (p' & Hp' & Hbody).
  { rewrite Hsame2 by lia. exact Hpj'. }
  exists wj, w', p'.
  split; [|split; [exact Hpj|split; [|split; [|split; [exact Hp'|exact Hbody]]]]].
  - unfold world_at_move, bind. rewrite commit_phase_eq. fold w1.
    now rewrite Hrunj.
  - intros ->. cbn in Hrunj. unfold ret in Hrunj. injection Hrunj as <-.
    reflexivity.
  - unfold Part001.gameLoopTick, try_catch, Part001.updateGame.
    unfold bind at 1. rewrite commit_phase_eq. fold w1.
    unfold bind at 1. unfold forEachPlayer at 1. rewrite Hlen.
    rewrite forEach_from_split. unfold bind at 1. rewrite Hrunj.
    cbn [forEach_from Nat.add]. unfold bind at 1. rewrite Hmove.
    rewrite Hrun2.
    match goal with
    | H : world_of ?o = Some w' |- context [?o'] =>
        change o' with o; destruct o as [[] u|ex u|]; cbn in H;
        try discriminate; now injection H as ->
    end.
Qed.

Lemma moved_growth (f : option Position) (q : Player) (h : Position)
      (t : list Position) :
  alive q = true -> snake q = h :: t ->
  (f = Some (newHead q h) ->
     score (moved f q) = score q + Part001.FOOD_SCORE /\
     List.length (snake (moved f q)) = S (List.length (snake q))) /\
  (f <> Some (newHead q h) ->
     score (moved f q) = score q /\
     List.length (snake (moved f q)) = List.length (snake q)).
Proof.
  intros Ha Hs. unfold moved. rewrite Ha, Hs. cbn [negb].
  split; intros Hf.
  - apply eats_true_iff in Hf. rewrite Hf. cbn. auto.
  - destruct (eats f (newHead q h)) eqn:He.
    + apply eats_true_iff in He. contradiction.
    + cbn [score snake set_snake]. split; [reflexivity|].
      now rewrite removelast_cons_length.
Qed.

(** C3. For an alive player, being moved with the new head on the food
    adds exactly [FOOD_SCORE] to the score and exactly one cell to the
    snake; being moved with the new head elsewhere (or with no food)
    leaves the score and the length as they were.  This holds of the call
    of [movePlayer], and of the whole tick: there the food is the one
    [gameState] holds when the player is moved (the food at the start of
    the tick for the first player), the new head follows the heading the
    tick has committed, and the rest of the tick changes neither the
    score nor the snake. *)
Theorem eating_grows_snake :
  forall (e : Env) (w : World) (j : nat) (p : Player) (h : Position)
         (t : list Position),
    enough_fuel e ->
    nth_error (players w) j = Some p ->
    alive p = true ->
    snake p = h :: t ->
    (exists w' p',
       Part001.movePlayer j e w = Ret tt w' /\
       nth_error (players w') j = Some p' /\
       (food w = Some (newHead p h) ->
          score p' = score p + Part001.FOOD_SCORE /\
          List.length (snake p') = S (List.length (snake p))) /\
       (food w <> Some (newHead p h) ->
          score p' = score p /\
          List.length (snake p') = List.length (snake p))) /\
    (exists wj w' p',
       world_at_move j e w = Some wj /\
       (j = O -> food wj = food w) /\
       Part001.gameLoopTick e w = Ret tt w' /\
       nth_error (players w') j = Some p' /\
       (food wj = Some (newHead (commit1 p) h) ->
          score p' = score p + Part001.FOOD_SCORE /\
          List.length (snake p') = S (List.length (snake p))) /\
       (food wj <> Some (newHead (commit1 p) h) ->
          score p' = score p /\
          List.length (snake p') = List.length (snake p))).
Proof.
  intros e w j p h t Hfuel Hj Ha Hs. split.
  - destruct (movePlayer_at j e w p Hfuel Hj) as (w' & Hrun & Hp).
    exists w', (moved (food w) p). split; [exact Hrun|]. split; [exact Hp|].
    now apply (moved_growth (food w) p h t).
  - destruct (tick_moves_once e w j p Hfuel Hj)
      as (wj & w' & p' & Hwj & _ & H0 & Hrun & Hp & [Hscore Hsnake]).
    exists wj, w', p'. split; [exact Hwj|]. split; [exact H0|].
    split; [exact Hrun|]. split; [exact Hp|].
    destruct (commit1_fields p) as (_ & Hcs & Hcb & Hca).
    destruct (moved_growth (food wj) (commit1 p) h t) as [Heat Hnot];
      [congruence | congruence |].
    rewrite Hscore, Hsnake, <- Hcs, <- Hcb. split; assumption.
Qed.

Lemma eating_grows_snake_witness :
  exists w' p',
    Part001.gameLoopTick env0 world1 = Ret tt w' /\
    nth_error (players w') 0 = Some p' /\
    score p' = 1 /\ List.length (snake p') = 2%nat.
Proof.
  destruct (eating_grows_snake env0 world1 0 alice (mkPos 5 5) [])
    as (_ & wj & w' & p' & Hwj & H0 & Hrun & Hp & Heat & _).
  - unfold enough_fuel. simpl. lia.
  - reflexivity.
  - reflexivity.
  - reflexivity.
  - exists w', p'. split; [exact Hrun|]. split; [exact Hp|].
    apply Heat. rewrite (H0 eq_refl). reflexivity.
Defined.

(** The scenario of the specification, with the reward of part_001: one
    player at (5,5) heading right, food at (6,5); after a tick the snake
    has grown onto the food, the score is the reward, the food is
    elsewhere. *)
Lemma tick_scenario :
  exists w',
    Part001.gameLoopTick env0 (mkWorld [alice] (Some (mkPos 6 5)) true 0)
    = Ret tt w' /\
    map snake (players w') = [[mkPos 6 5; mkPos 5 5]] /\
    map score (players w') = [Part001.FOOD_SCORE] /\
    food w' <> Some (mkPos 6 5).
Proof.
  eexists. split; [vm_compute; reflexivity|].
  split; [reflexivity|]. split; [reflexivity|]. discriminate.
Qed.

(** ** src/server.js, where it differs *)

(** A reversal asked for by a client reaches the tick and is committed:
    the player, created heading down, heads up after one tick. *)
Lemma ServerJs_commits_reversal :
  option_map (fun w => map direction (players w))
             (world_of (ServerJs.dispatch Connect env0 world_started))
  = Some [JStr "down"] /\
  option_map (fun w => map direction (players w))
             (world_of ((ServerJs.dispatch Connect ;;
                         ServerJs.dispatch (Message "k3x9p2m7q" ask_up) ;;
                         ServerJs.dispatch Tick) env0 world_started))
  = Some [JStr "up"].
Proof. split; vm_compute; reflexivity. Qed.

(** The same messages on part_001: the request is dropped. *)
Lemma Part001_drops_reversal :
  option_map (fun w => map direction (players w))
             (Part001.run [Connect; Message "k3x9p2m7q" ask_up; Tick]
                          env0 world_started)
  = Some [JStr "down"].
Proof. vm_compute. reflexivity. Qed.

Lemma ServerJs_generateFood_loop_diverges (n m r : nat) :
  ServerJs.generateFood_loop true n (env_zero_with m)
                             (set_rng r world_blocked)
  = Diverge.
Proof.
  revert r. induction n as [|n IH]; intros r; [reflexivity|].
  cbn [ServerJs.generateFood_loop ServerJs.gameState]. unfold bind at 1.
  rewrite getRandomPosition_eq. unfold bind at 1, get at 1.
  cbn [players set_rng world_blocked rng].
  change (positionOccupied _ _) with true. cbv iota.
  apply (IH (r + 2)%nat).
Qed.

(** [generateFood] of src/server.js has no bound: when every draw lands
    on a snake it does not return, whatever the budget. *)
Lemma ServerJs_generateFood_diverges (n : nat) :
  ServerJs.generateFood true (env_zero_with n) world_blocked = Diverge.
Proof.
  unfold ServerJs.generateFood.
  apply (ServerJs_generateFood_loop_diverges _ n 0).
Qed.

Lemma ServerJs_segments_from (pid : string) (l : list Position) :
  forall i,
    ServerJs.segments_from pid i l = map seg_of (Part001.segments_from pid i l).
Proof.
  induction l as [|c l IH]; intros i; cbn; [reflexivity|].
  now rewrite IH.
Qed.

Lemma ServerJs_collectSegments (ps : list Player) :
  ServerJs.collectSegments ps = map seg_of (Part001.collectSegments ps).
Proof.
  unfold ServerJs.collectSegments, Part001.collectSegments.
  induction ps as [|p ps IH]; cbn; [reflexivity|].
  rewrite map_app, IH. f_equal.
  destruct (alive p); [apply ServerJs_segments_from | reflexivity].
Qed.

Lemma ServerJs_hits_seg_of (p : Player) (h : Position)
      (segs : list Part001.Segment) :
  existsb (ServerJs.hits p h) (map seg_of segs)
  = existsb (Part001.hits p h) segs.
Proof.
  induction segs as [|s segs IH]; cbn; [reflexivity|]. now rewrite IH.
Qed.

Lemma collideS_collide (segs : list Part001.Segment) (p : Player) :
  collideS (map seg_of segs) p = collide segs p.
Proof.
  unfold collideS, collide. destruct (negb (alive p)); [reflexivity|].
  destruct (snake p) as [|h t]; [reflexivity|].
  now rewrite ServerJs_hits_seg_of.
Qed.

(** A cell of an alive player is in the segments collected at the start,
    and it hits the head of any other player on that cell. *)
Lemma segment_of_other_hits (l0 : list Player) (p q : Player)
      (c : Position) (t : list Position) :
  In p l0 -> alive p = true -> In c (snake p) ->
  id p <> id q -> snake q = c :: t ->
  existsb (ServerJs.hits q c) (ServerJs.collectSegments l0) = true.
Proof.
  intros Hp Ha Hc Hid Hq. rewrite ServerJs_collectSegments, ServerJs_hits_seg_of.
  apply existsb_exists.
  apply In_nth_error in Hp. destruct Hp as (k & Hk).
  apply In_nth_error in Hc. destruct Hc as (i & Hi).
  exists (Part001.mkSegment (x c) (y c) (id p) (Nat.eqb i 0)). split.
  - apply In_collectSegments. exists k, p, i, c. auto.
  - unfold Part001.hits. cbn. rewrite !Z.eqb_refl. cbn.
    apply orb_true_iff. left. apply negb_true_iff, String.eqb_neq. exact Hid.
Qed.

Lemma ServerJs_check_loop (e : Env) (l0 : list Player) :
  NoDup (map id l0) ->
  forall (rest pre done : list Player) (w : World)
         (extra : list ServerJs.Segment),
    l0 = pre ++ rest ->
    players w = done ++ rest ->
    List.length done = List.length pre ->
    Forall (fun p => snake p <> []) rest ->
    (forall s q hq tq,
       In s extra -> In q rest -> alive q = true -> snake q = hq :: tq ->
       ServerJs.hits q hq s = true ->
       existsb (ServerJs.hits q hq) (ServerJs.collectSegments l0) = true) ->
    ServerJs.checkCollisions_from (List.length done) (List.length rest)
      (ServerJs.collectSegments l0 ++ extra) e w
    = Ret tt (set_players
                (done ++ map (collideS (ServerJs.collectSegments l0)) rest) w).
Proof.
  intros Hnd. set (base := ServerJs.collectSegments l0).
  induction rest as [|p rest IH]; intros pre done w extra Hl0 Hw Hlen Hne Hextra.
  - cbn. unfold ret. rewrite app_nil_r in *. rewrite <- Hw.
    now rewrite set_players_same.
  - cbn [List.length ServerJs.checkCollisions_from].
    assert (Hp : nth_error (players w) (List.length done) = Some p).
    { rewrite Hw, nth_error_app2 by lia. now rewrite Nat.sub_diag. }
    rewrite Hp.
    inversion Hne as [|? ? Hpne Hne']; subst.
    assert (Hnext : forall w1 extra1 p1,
              players w1 = done ++ p1 :: rest ->
              (forall s q hq tq,
                 In s extra1 -> In q rest -> alive q = true ->
                 snake q = hq :: tq -> ServerJs.hits q hq s = true ->
                 existsb (ServerJs.hits q hq) base = true) ->
              ServerJs.checkCollisions_from (S (List.length done))
                (List.length rest) (base ++ extra1) e w1
              = Ret tt (set_players
                          (done ++ p1 :: map (collideS base) rest) w1)).
    { intros w1 extra1 p1 Hw1 Hextra1.
      replace (S (List.length done)) with (List.length (done ++ [p1]))
        by (rewrite length_app; cbn; lia).
      rewrite (IH (pre ++ [p]) (done ++ [p1]) w1 extra1).
      - now rewrite <- app_assoc.
      - now rewrite <- app_assoc.
      - now rewrite Hw1, <- app_assoc.
      - rewrite !length_app. cbn. lia.
      - exact Hne'.
      - exact Hextra1. }
    assert (Hkeep : forall s q hq tq,
              In s extra -> In q rest -> alive q = true ->
              snake q = hq :: tq -> ServerJs.hits q hq s = true ->
              existsb (ServerJs.hits q hq) base = true).
    { intros s q hq tq Hs Hq. apply (Hextra s q hq tq Hs). now right. }
    cbn [map]. unfold collideS at 1.
    destruct (alive p) eqn:Ha; cbn [negb].
    2:{ now apply Hnext. }
    destruct (snake p) as [|h t] eqn:Hs; [congruence|].
    rewrite existsb_app.
    destruct (existsb (ServerJs.hits p h) base) eqn:Hbase; cbn [orb].
    + unfold bind, modPlayer, modify.
      rewrite <- app_assoc.
      rewrite (Hnext _ _ (set_alive false p)).
      * rewrite set_players_set_players. reflexivity.
      * cbn [players set_players]. now rewrite Hw, update_nth_app.
      * intros s q hq tq Hin Hq Hqa Hqs Hhit.
        apply in_app_or in Hin. destruct Hin as [Hin|Hin].
        -- now apply (Hkeep s q hq tq).
        -- apply in_map_iff in Hin. destruct Hin as (c & <- & Hc).
           unfold ServerJs.hits in Hhit. cbn in Hhit.
           rewrite andb_true_r in Hhit.
           fold (pos_eqb c hq) in Hhit. apply pos_eqb_eq in Hhit. subst hq.
           apply (segment_of_other_hits (pre ++ p :: rest) p q c tq); auto.
           ++ apply in_or_app. right. now left.
           ++ now rewrite Hs.
           ++ intros Hid. rewrite map_app in Hnd. cbn [map] in Hnd.
              apply NoDup_remove_2 in Hnd. apply Hnd.
              apply in_or_app. right. rewrite Hid. now apply in_map.
    + assert (Hno : existsb (ServerJs.hits p h) extra = false).
      { destruct (existsb (ServerJs.hits p h) extra) eqn:Hex; [|reflexivity].
        apply existsb_exists in Hex. destruct Hex as (s & Hin & Hhit).
        rewrite <- Hbase. symmetry.
        apply (Hextra s p h t Hin); auto. now left. }
      rewrite Hno. now apply Hnext.
Qed.

(** X23. On a world with distinct ids and no empty snake,
    [checkCollisions] of src/server.js does what the one of part_001
    does: the segments it pushes when a player dies decide nothing that
    the segments collected at the start do not decide. *)
Lemma ServerJs_checkCollisions_same (e : Env) (w : World) :
  ids_unique w -> snakes_nonempty w ->
  ServerJs.checkCollisions e w = Part001.checkCollisions e w.
Proof.
  intros Hnd Hne. rewrite (checkCollisions_eq e w Hne).
  unfold ServerJs.checkCollisions.
  pose proof (ServerJs_check_loop e (players w) Hnd (players w) [] [] w []
                eq_refl eq_refl eq_refl Hne) as Hloop.
  cbn [List.length app] in Hloop. rewrite app_nil_r in Hloop.
  rewrite Hloop.
  - f_equal. f_equal. rewrite ServerJs_collectSegments.
    apply map_ext. intros p. apply collideS_collide.
  - intros s q hq tq [].
Qed.

(** ** src/unnamed/part_000, where it differs *)

(** X24. [moveSnake] of the first generation, on a snake whose head is
    on its grid of 20 and with one of the four headings, returns and puts
    in front the head moved by one cell modulo 20: its four tests wrap
    like the remainder does. *)
Lemma moveSnake_toroidal (e : Env) (w : World) (j : nat) (p : Player)
      (h : Position) (t : list Position) (d : string) (f : Position) :
  nth_error (players w) j = Some p ->
  snake p = h :: t ->
  0 <= x h < Part000.gridSize -> 0 <= y h < Part000.gridSize ->
  direction p = JStr d -> is_heading d ->
  food w = Some f ->
  exists w' p' rest,
    Part000.moveSnake j e w = Ret tt w' /\
    nth_error (players w') j = Some p' /\
    snake p' = mkPos ((x h + fst (delta d)) mod Part000.gridSize)
                     ((y h + snd (delta d)) mod Part000.gridSize) :: rest.
Proof.
  intros Hj Hs Hx Hy Hdir Hd Hf.
  unfold Part000.moveSnake, withPlayer. rewrite Hj, Hs, Hdir.
  rewrite (moveSnake_wrap_mod d h Hx Hy Hd).
  set (head := mkPos _ _).
  unfold bind at 1, modPlayer at 1, modify at 1. unfold bind at 1, get at 1.
  cbn [food set_players]. rewrite Hf.
  destruct ((x head =? x f) && (y head =? y f)).
  - unfold bind at 1, modPlayer at 1, modify at 1.
    unfold Part000.generateFood, random_below, Math_random, bind, ret, modify.
    cbn [players set_players set_rng set_food rng].
    do 3 eexists. split; [reflexivity|].
    cbn [players set_players set_rng set_food].
    rewrite update_nth_twice, nth_error_update_nth_eq, Hj. cbn [option_map].
    split; [reflexivity|]. cbn [snake set_snake set_score]. rewrite Hs.
    reflexivity.
  - unfold modPlayer, modify. do 3 eexists. split; [reflexivity|].
    cbn [players set_players].
    rewrite update_nth_twice, nth_error_update_nth_eq, Hj. cbn [option_map].
    split; [reflexivity|]. cbn [snake set_snake]. rewrite Hs.
    change (removelast (head :: h :: t)) with (head :: removelast (h :: t)).
    reflexivity.
Qed.

(** ** Further worked ticks *)

(** A direction that is none of the four strings (the handlers store
    whatever the client sends) matches no case of the [switch]: the head
    stays where it is. *)
Lemma step_head_other (d : JsVal) (h : Position) :
  (forall s, d = JStr s -> ~ is_heading s) -> step_head d h = h.
Proof.
  intros Hd. unfold step_head.
  assert (Hno : forall lit, In lit directions -> is_str d lit = false).
  { intros lit Hlit. destruct d; cbn; try reflexivity.
    apply String.eqb_neq. intros ->. now apply (Hd lit). }
  rewrite !Hno; [reflexivity | | | |]; unfold directions; cbn; auto.
Qed.

(** The scenario of the specification with two players: the head of the
    first moves onto the cell the tail of the second is on after the
    moves; the first is dead after the tick, the second alive. *)
Lemma tail_collision_scenario :
  exists w',
    Part001.gameLoopTick env0 world_tail = Ret tt w' /\
    map (fun p => hd_error (snake p)) (players w')
    = [Some (mkPos 7 5); Some (mkPos 9 5)] /\
    map alive (players w') = [false; true].
Proof.
  eexists. split; [vm_compute; reflexivity|]. split; reflexivity.
Qed.

(** * Further properties *)

(** ** Tools *)

Lemma Forall2_keeps (P : Player -> Prop) (l l' : list Player) :
  Forall2 (keeps P) l l' -> Forall P l -> Forall P l'.
Proof.
  induction 1 as [|a b l l' Hab Hl IH]; intros HP; constructor;
    inversion HP; subst; auto.
Qed.

Lemma keeps_refl (P : Player -> Prop) (p : Player) : keeps P p p.
Proof. intros H. exact H. Qed.

Lemma keeps_trans (P : Player -> Prop) (p q r : Player) :
  keeps P p q -> keeps P q r -> keeps P p r.
Proof. unfold keeps. auto. Qed.

Lemma Forall2_length_eq {A : Type} (R : A -> A -> Prop) (l l' : list A) :
  Forall2 R l l' -> List.length l' = List.length l.
Proof. induction 1; cbn; auto. Qed.

Lemma Forall2_map_id (l l' : list Player) :
  Forall2 (fun p p' => id p' = id p) l l' -> map id l' = map id l.
Proof. induction 1 as [|a b l l' H _ IH]; cbn; congruence. Qed.

Section Preserves.
Variable G : Env -> Prop.
Variable Q : World -> World -> Prop.
Hypothesis G_fuel : forall e, G e -> enough_fuel e.
Hypothesis Q_refl : forall w, Q w w.
Hypothesis Q_trans : forall u v w, Q u v -> Q v w -> Q u w.
Hypothesis Q_players : forall w ps, Q w (set_players ps w).
Hypothesis Q_rng : forall w n, Q w (set_rng n w).
Hypothesis Q_food :
  forall e w r i, G e -> Q w (set_food (Some (candidate e r i)) w).

Lemma preserves_ret {A : Type} (a : A) : preserves G Q (ret a).
Proof. intros e w w' _ H. injection H as <-. apply Q_refl. Qed.

Lemma preserves_throw {A : Type} (ex : Exn) : preserves G Q (@throw A ex).
Proof. intros e w w' _ H. injection H as <-. apply Q_refl. Qed.

Lemma preserves_get : preserves G Q get.
Proof. intros e w w' _ H. injection H as <-. apply Q_refl. Qed.

Lemma preserves_bind {A B : Type} (m : M A) (k : A -> M B) :
  preserves G Q m -> (forall a, preserves G Q (k a)) ->
  preserves G Q (bind m k).
Proof.
  intros Hm Hk e w w' HG. unfold bind.
  specialize (Hm e w). destruct (m e w) as [a w1|ex w1|]; cbn.
  - intros H. eapply Q_trans; [apply (Hm w1 HG eq_refl) | eapply Hk; eauto].
  - intros H. injection H as <-. apply (Hm w1 HG eq_refl).
  - discriminate.
Qed.

Lemma preserves_try_catch {A : Type} (m : M A) (h : Exn -> M A) :
  preserves G Q m -> (forall ex, preserves G Q (h ex)) ->
  preserves G Q (try_catch m h).
Proof.
  intros Hm Hh e w w' HG. unfold try_catch.
  specialize (Hm e w). destruct (m e w) as [a w1|ex w1|]; cbn.
  - intros H. injection H as <-. apply (Hm w1 HG eq_refl).
  - intros H. eapply Q_trans; [apply (Hm w1 HG eq_refl) | eapply Hh; eauto].
  - discriminate.
Qed.

Lemma preserves_modPlayer (j : nat) (g : Player -> Player) :
  preserves G Q (modPlayer j g).
Proof. intros e w w' _ H. injection H as <-. apply Q_players. Qed.

Lemma preserves_withPlayer (j : nat) (k : Player -> M unit) :
  (forall p, preserves G Q (k p)) -> preserves G Q (withPlayer j k).
Proof.
  intros Hk e w w' HG. unfold withPlayer.
  destruct (nth_error (players w) j) as [p|].
  - now apply Hk.
  - intros H. injection H as <-. apply Q_refl.
Qed.

Lemma preserves_forEach_from (f : nat -> M unit) :
  (forall j, preserves G Q (f j)) ->
  forall n j, preserves G Q (forEach_from f j n).
Proof.
  intros Hf. induction n as [|n IH]; intros j; cbn [forEach_from].
  - apply preserves_ret.
  - apply preserves_bind; auto.
Qed.

Lemma preserves_forEachPlayer (f : nat -> M unit) :
  (forall j, preserves G Q (f j)) -> preserves G Q (forEachPlayer f).
Proof.
  intros Hf e w w' HG. unfold forEachPlayer.
  now apply preserves_forEach_from.
Qed.

Lemma preserves_Math_random : preserves G Q Math_random.
Proof. intros e w w' _ H. injection H as <-. apply Q_rng. Qed.

(** [gameState.food = generateFood()] *)
Lemma preserves_new_food :
  preserves G Q (f <- Part001.generateFood ;; modify (set_food (Some f))).
Proof.
  intros e w w' HG. unfold bind, Part001.generateFood.
  destruct (generateFood_loop_spec e (fuel e) 0 w) as (k & _ & _ & -> & _).
  - unfold Part001.maxAttempts. lia.
  - specialize (G_fuel e HG). unfold Part001.maxAttempts, enough_fuel in *. lia.
  - unfold modify. cbn. intros H. injection H as <-.
    eapply Q_trans; [apply Q_rng|]. now apply Q_food.
Qed.

Lemma preserves_movePlayer (j : nat) : preserves G Q (Part001.movePlayer j).
Proof.
  unfold Part001.movePlayer. apply preserves_withPlayer. intros p.
  destruct (negb (alive p)); [apply preserves_ret|].
  destruct (snake p) as [|h t]; [apply preserves_ret|].
  apply preserves_bind; [apply preserves_modPlayer|]. intros _.
  apply preserves_bind; [apply preserves_get|]. intros w0.
  destruct (food w0) as [f|]; [|apply preserves_modPlayer].
  match goal with |- context [if ?c then _ else _] => destruct c end;
    [|apply preserves_modPlayer].
  apply preserves_bind; [apply preserves_modPlayer|]. intros _.
  apply preserves_new_food.
Qed.

Lemma preserves_checkCollisions : preserves G Q Part001.checkCollisions.
Proof.
  unfold Part001.checkCollisions.
  apply preserves_bind; [apply preserves_get|]. intros w0.
  apply preserves_forEachPlayer. intros j.
  apply preserves_withPlayer. intros p.
  destruct (negb (alive p)); [apply preserves_ret|].
  destruct (snake p) as [|h t].
  - destruct (Part001.collectSegments (players w0));
      [apply preserves_ret | apply preserves_throw].
  - destruct (existsb _ _); [apply preserves_modPlayer | apply preserves_ret].
Qed.

Lemma preserves_updateGame : preserves G Q Part001.updateGame.
Proof.
  unfold Part001.updateGame.
  apply preserves_bind.
  { apply preserves_forEachPlayer. intros j.
    unfold Part001.commitDirection. apply preserves_withPlayer. intros p.
    destruct (truthy _ && _); [apply preserves_modPlayer | apply preserves_ret]. }
  intros _. apply preserves_bind.
  { apply preserves_forEachPlayer. apply preserves_movePlayer. }
  intros _. apply preserves_bind; [apply preserves_checkCollisions|].
  intros _. apply preserves_bind.
  { unfold Part001.foodMissingOrStale.
    apply preserves_bind; [apply preserves_get|]. intros w0.
    destruct (food w0); [|apply preserves_ret].
    apply preserves_bind; [apply preserves_Math_random|].
    intros r. apply preserves_ret. }
  intros [|]; [apply preserves_new_food | apply preserves_ret].
Qed.

Lemma preserves_gameLoopTick : preserves G Q Part001.gameLoopTick.
Proof.
  unfold Part001.gameLoopTick. apply preserves_try_catch.
  - apply preserves_updateGame.
  - intros ex. apply preserves_ret.
Qed.

End Preserves.

(** ** Connections, one by one *)

Lemma onConnection_full (e : Env) (w : World) :
  Part001.onConnection e w
  = Ret tt (mkWorld (set_player (newPlayer e w) (players w)) (food w) true
                    (rng w + 5)).
Proof.
  cbv [Part001.onConnection bind generateId Math_random get getRandomPosition
       getRandomDirection getRandomColor random_below ret modify
       Part001.startGameLoop].
  cbn [rng set_rng players set_players gameInterval food].
  assert (Hp : forall a b c d,
            a = S (rng w) -> b = S (S (rng w)) ->
            c = S (S (S (rng w))) -> d = S (S (S (S (rng w)))) ->
            mkPlayer (substring 2 9 (toString36 e (Math_random_seq e (rng w))))
              (player_name (List.length (players w) + 1))
              [mkPos (Qfloor (Math_random_seq e a * inject_Z GRID_SIZE))
                     (Qfloor (Math_random_seq e b * inject_Z GRID_SIZE))]
              (str_or_undefined
                 (array_get directions
                    (Qfloor (Math_random_seq e c
                             * inject_Z (Z.of_nat (List.length directions))))))
              JNull 0
              (str_or_undefined
                 (array_get colors
                    (Qfloor (Math_random_seq e d
                             * inject_Z (Z.of_nat (List.length colors))))))
              true
            = newPlayer e w).
  { intros a b c d -> -> -> ->. unfold newPlayer, candidate.
    replace (rng w + 3)%nat with (S (S (S (rng w)))) by lia.
    replace (rng w + 4)%nat with (S (S (S (S (rng w))))) by lia.
    replace (S (rng w) + 2 * 0)%nat with (S (rng w)) by lia.
    replace (S (rng w) + 1)%nat with (S (S (rng w))) by lia.
    reflexivity. }
  rewrite (Hp _ _ _ _ eq_refl eq_refl eq_refl eq_refl).
  replace (rng w + 5)%nat with (S (S (S (S (S (rng w)))))) by lia.
  destruct (gameInterval w) eqn:Hg; cbn [negb]; unfold set_players,
    set_gameInterval, set_rng; cbn [players food gameInterval rng];
    rewrite ?Hg; reflexivity.
Qed.

Lemma onClose_full (playerId : string) (e : Env) (w : World) :
  exists w',
    Part001.onClose playerId e w = Ret tt w' /\
    players w' = delete_player playerId (players w) /\
    food w' = food w /\ rng w' = rng w /\
    (index_of playerId (players w) = None -> w' = w) /\
    (index_of playerId (players w) <> None ->
     gameInterval w' = match delete_player playerId (players w) with
                       | [] => false
                       | _ :: _ => gameInterval w
                       end).
Proof.
  unfold Part001.onClose, bind at 1, get at 1.
  destruct (index_of playerId (players w)) as [j|] eqn:Hj.
  - unfold bind at 1, modify at 1, bind at 1, get at 1.
    cbn [players set_players].
    destruct (delete_player playerId (players w)) eqn:Hd.
    + unfold Part001.stopGameLoop, bind, get.
      cbn [gameInterval set_players].
      destruct (gameInterval w) eqn:Hg; eexists; (split; [reflexivity|]);
        cbn [players set_players set_gameInterval food rng gameInterval];
        repeat split; try discriminate; auto.
    + eexists. split; [reflexivity|].
      cbn [players set_players food rng gameInterval].
      repeat split; try discriminate; auto.
  - destruct (onClose_spec playerId e w) as (w' & Hrun & Hp).
    unfold Part001.onClose, bind at 1, get at 1 in Hrun. rewrite Hj in Hrun.
    injection Hrun as <-. exists w. repeat split; auto. congruence.
Qed.

(** ** [gameState.players] as an object *)

Lemma lookup_index_of (k : string) (l : list Player) :
  lookup k l = match index_of k l with
               | Some j => nth_error l j
               | None => None
               end.
Proof.
  unfold lookup. induction l as [|a l IH]; cbn; [reflexivity|].
  destruct (String.eqb (id a) k); [reflexivity|].
  rewrite IH. now destruct (index_of k l).
Qed.

Lemma lookup_id (k : string) (l : list Player) (p : Player) :
  lookup k l = Some p -> id p = k /\ In p l.
Proof.
  unfold lookup. intros H. apply find_some in H. destruct H as [Hin Hk].
  apply String.eqb_eq in Hk. auto.
Qed.

Lemma lookup_None (k : string) (l : list Player) :
  lookup k l = None <-> ~ In k (map id l).
Proof.
  rewrite lookup_index_of. rewrite <- index_of_None.
  destruct (index_of k l) as [j|] eqn:Hj; [|tauto].
  destruct (index_of_Some _ _ _ Hj) as (q & Hq & _). rewrite Hq.
  split; discriminate.
Qed.

Lemma lookup_update_const (p : Player) (l : list Player) (j : nat) :
  index_of (id p) l = Some j ->
  forall k, lookup k (update_nth j (fun _ => p) l)
            = if String.eqb (id p) k then Some p else lookup k l.
Proof.
  unfold lookup. revert j. induction l as [|a l IH]; intros j Hj k;
    cbn in Hj; [discriminate|].
  destruct (String.eqb (id a) (id p)) eqn:Ha.
  - injection Hj as <-. cbn. apply String.eqb_eq in Ha.
    rewrite Ha. now destruct (String.eqb (id p) k).
  - destruct (index_of (id p) l) as [i|]; cbn in Hj; [|discriminate].
    injection Hj as <-. cbn. rewrite (IH i eq_refl k).
    destruct (String.eqb (id a) k) eqn:Hak; [|reflexivity].
    apply String.eqb_eq in Hak. subst k.
    rewrite String.eqb_sym, Ha. reflexivity.
Qed.

Lemma lookup_insert_index (n : N) (p : Player) (l : list Player) :
  ~ In (id p) (map id l) ->
  forall k, lookup k (insert_index n p l)
            = if String.eqb (id p) k then Some p else lookup k l.
Proof.
  unfold lookup. induction l as [|a l IH]; intros Hnew k; cbn.
  - reflexivity.
  - cbn in Hnew.
    assert (Hhead : find (fun q => String.eqb (id q) k) (p :: a :: l)
                    = if String.eqb (id p) k then Some p
                      else if String.eqb (id a) k then Some a
                           else find (fun q => String.eqb (id q) k) l)
      by reflexivity.
    destruct (array_index (id a)) as [m|]; [destruct (m <? n)%N|];
      try exact Hhead.
    cbn. rewrite IH by tauto.
    destruct (String.eqb (id a) k) eqn:Hak; [|reflexivity].
    destruct (String.eqb (id p) k) eqn:Hpk; [|reflexivity].
    apply String.eqb_eq in Hak, Hpk. exfalso. apply Hnew. left. congruence.
Qed.

Lemma lookup_app_new (p : Player) (l : list Player) :
  ~ In (id p) (map id l) ->
  forall k, lookup k (l ++ [p])
            = if String.eqb (id p) k then Some p else lookup k l.
Proof.
  unfold lookup. induction l as [|a l IH]; intros Hnew k; cbn.
  - now destruct (String.eqb (id p) k).
  - cbn in Hnew. rewrite IH by tauto.
    destruct (String.eqb (id a) k) eqn:Hak; [|reflexivity].
    destruct (String.eqb (id p) k) eqn:Hpk; [|reflexivity].
    apply String.eqb_eq in Hak, Hpk. exfalso. apply Hnew. left. congruence.
Qed.

Lemma lookup_set_player (p : Player) (l : list Player) (k : string) :
  lookup k (set_player p l)
  = if String.eqb (id p) k then Some p else lookup k l.
Proof.
  unfold set_player. destruct (index_of (id p) l) as [j|] eqn:Hj.
  - now apply lookup_update_const.
  - apply index_of_None in Hj. destruct (array_index (id p)) as [n|].
    + now apply lookup_insert_index.
    + now apply lookup_app_new.
Qed.

Lemma lookup_delete_player (k k' : string) (l : list Player) :
  lookup k' (delete_player k l)
  = if String.eqb k k' then None else lookup k' l.
Proof.
  unfold lookup, delete_player. induction l as [|a l IH]; cbn.
  - now destruct (String.eqb k k').
  - destruct (String.eqb (id a) k) eqn:Hak; cbn.
    + rewrite IH. destruct (String.eqb k k') eqn:Hkk; [reflexivity|].
      apply String.eqb_eq in Hak. rewrite Hak, Hkk. reflexivity.
    + destruct (String.eqb (id a) k') eqn:Hak'; [|exact IH].
      destruct (String.eqb k k') eqn:Hkk; [|reflexivity].
      apply String.eqb_eq in Hkk. subst k'. congruence.
Qed.

Lemma length_set_player (p : Player) (l : list Player) :
  set_player p l <> [].
Proof.
  unfold set_player. destruct (index_of (id p) l) as [j|] eqn:Hj.
  - destruct l as [|a l]; [discriminate|]. destruct j; discriminate.
  - destruct (array_index (id p)) as [n|].
    + destruct l as [|a l]; cbn; [discriminate|].
      destruct (array_index (id a)) as [m|]; [destruct (m <? n)%N|];
        discriminate.
    + destruct l; discriminate.
Qed.

Lemma array_get_below {A : Type} (a : list A) (i : Z) :
  0 <= i < Z.of_nat (List.length a) ->
  exists v, array_get a i = Some v /\ In v a.
Proof.
  intros Hi. unfold array_get.
  destruct (i <? 0) eqn:Hneg; [apply Z.ltb_lt in Hneg; lia|].
  destruct (nth_error a (Z.to_nat i)) as [v|] eqn:Hv.
  - exists v. split; [reflexivity|]. eapply nth_error_In; eauto.
  - apply nth_error_None in Hv. lia.
Qed.

Lemma unit_random_env0 : unit_random env0.
Proof.
  intros n. unfold env0. cbn [Math_random_seq].
  assert (Hn : (n mod 5 < 5)%nat) by (apply Nat.mod_upper_bound; lia).
  set (m := (n mod 5)%nat) in *. clearbody m.
  cbv [Qle Qlt Qnum Qden]. lia.
Qed.

(** X8. [wss.on('connection')] returns; afterwards [gameState.players]
    holds under the generated id a fresh player (one cell on the grid,
    score 0, alive, no pending heading, a heading among the four, a
    colour of the palette, named [Player n] with [n] in decimal one more
    than the number of players there were),
    every other key holds what it held, the timer runs, the food is
    untouched and five numbers were drawn. *)
Theorem connection_creates_player :
  forall (e : Env) (w : World),
    unit_random e ->
    exists w' p,
      Part001.onConnection e w = Ret tt w' /\
      lookup (id p) (players w') = Some p /\
      (forall k, k <> id p -> lookup k (players w') = lookup k (players w)) /\
      (exists c, snake p = [c] /\ on_grid c) /\
      score p = 0 /\ alive p = true /\ pendingDirection p = JNull /\
      (exists d, direction p = JStr d /\ is_heading d) /\
      (exists c, color p = JStr c /\ In c colors) /\
      name p = ("Player "
                ++ NilEmpty.string_of_uint
                     (Nat.to_uint (List.length (players w) + 1)))%string /\
      gameInterval w' = true /\ food w' = food w /\
      rng w' = (rng w + 5)%nat.
Proof.
  intros e w Hunit. rewrite onConnection_full.
  exists (mkWorld (set_player (newPlayer e w) (players w)) (food w) true
                  (rng w + 5)), (newPlayer e w).
  cbn [players gameInterval food rng].
  split; [reflexivity|]. split; [|split].
  - rewrite lookup_set_player. now rewrite String.eqb_refl.
  - intros k Hk. rewrite lookup_set_player.
    destruct (String.eqb (id (newPlayer e w)) k) eqn:Heq; [|reflexivity].
    apply String.eqb_eq in Heq. congruence.
  - unfold newPlayer. cbn [snake score alive pendingDirection direction
                           color name].
    split; [eexists; split; [reflexivity | now apply candidate_on_grid]|].
    do 3 (split; [reflexivity|]). split; [|split].
    + destruct (array_get_below directions
                  (Qfloor (Math_random_seq e (rng w + 3)
                           * inject_Z (Z.of_nat (List.length directions)))))
        as (d & -> & Hd).
      { apply random_below_range; [reflexivity | apply Hunit | apply Hunit]. }
      exists d. split; [reflexivity | exact Hd].
    + destruct (array_get_below colors
                  (Qfloor (Math_random_seq e (rng w + 4)
                           * inject_Z (Z.of_nat (List.length colors)))))
        as (c & -> & Hc).
      { apply random_below_range; [reflexivity | apply Hunit | apply Hunit]. }
      exists c. split; [reflexivity | exact Hc].
    + repeat split.
Qed.

Lemma connection_creates_player_witness :
  exists w' p,
    Part001.onConnection env0 world1 = Ret tt w' /\
    lookup (id p) (players w') = Some p /\
    name p = "Player 3"%string.
Proof.
  destruct (connection_creates_player env0 world1 unit_random_env0)
    as (w' & p & Hrun & Hp & _ & _ & _ & _ & _ & _ & _ & Hname & _).
  exists w', p. auto.
Defined.

(** X9. [ws.on('close')] returns; afterwards the key of the player is
    gone and every other key holds what it held, in the same order; food
    and random draws are untouched; closing a key that is not there
    changes nothing; the timer is stopped when the last player goes and
    left alone otherwise. *)
Theorem close_removes_player :
  forall (playerId : string) (e : Env) (w : World),
    exists w',
      Part001.onClose playerId e w = Ret tt w' /\
      players w' = delete_player playerId (players w) /\
      lookup playerId (players w') = None /\
      (forall k, k <> playerId ->
                 lookup k (players w') = lookup k (players w)) /\
      food w' = food w /\ rng w' = rng w /\
      (lookup playerId (players w) = None -> w' = w) /\
      (lookup playerId (players w) <> None -> players w' = [] ->
       gameInterval w' = false) /\
      (players w' <> [] -> gameInterval w' = gameInterval w).
Proof.
  intros playerId e w.
  destruct (onClose_full playerId e w)
    as (w' & Hrun & Hp & Hf & Hr & Hnone & Hsome).
  assert (Hidx : lookup playerId (players w) = None <->
                 index_of playerId (players w) = None).
  { rewrite lookup_None. symmetry. apply index_of_None. }
  exists w'. split; [exact Hrun|]. split; [exact Hp|]. split; [|split].
  - rewrite Hp, lookup_delete_player. now rewrite String.eqb_refl.
  - intros k Hk. rewrite Hp, lookup_delete_player.
    destruct (String.eqb playerId k) eqn:Heq; [|reflexivity].
    apply String.eqb_eq in Heq. congruence.
  - split; [exact Hf|]. split; [exact Hr|]. split; [|split].
    + intros H. apply Hnone. now apply Hidx.
    + intros H Hempty. rewrite Hsome by (intros Hi; apply H; now apply Hidx).
      rewrite <- Hp, Hempty. reflexivity.
    + intros Hne.
      destruct (index_of playerId (players w)) as [j|] eqn:Hj.
      * rewrite Hsome by discriminate. rewrite <- Hp.
        destruct (players w'); [congruence | reflexivity].
      * now rewrite (Hnone eq_refl).
Qed.

(** ** What holds of every reachable world *)

Lemma run_invariant (I : World -> Prop) (e : Env) :
  (forall ev w, I w ->
     exists w', Part001.dispatch ev e w = Ret tt w' /\ I w') ->
  forall evs w, I w ->
    exists w', Part001.run evs e w = Some w' /\ I w'.
Proof.
  intros Hstep. induction evs as [|ev evs IH]; intros w Hw; cbn [Part001.run].
  - exists w. auto.
  - destruct (Hstep ev w Hw) as (w1 & -> & Hw1). cbn [world_of]. now apply IH.
Qed.

Lemma tick_interval (e : Env) (w w' : World) :
  enough_fuel e -> Part001.gameLoopTick e w = Ret tt w' ->
  gameInterval w' = gameInterval w.
Proof.
  intros Hfuel Hrun.
  apply (preserves_gameLoopTick enough_fuel same_interval) with (e := e);
    unfold same_interval; auto.
  - intros u v x H1 H2. congruence.
  - now rewrite Hrun.
Qed.

Lemma update_nth_nil {A : Type} (g : A -> A) (l : list A) (j : nat) :
  update_nth j g l = [] <-> l = [].
Proof.
  destruct l as [|a l]; destruct j; cbn; split; congruence.
Qed.

Lemma dispatch_timer (e : Env) (ev : Event) (w : World) :
  enough_fuel e -> timer_matches w ->
  exists w', Part001.dispatch ev e w = Ret tt w' /\ timer_matches w'.
Proof.
  intros Hfuel Ht. unfold timer_matches in *.
  destruct ev as [|playerId message|playerId|]; cbn [Part001.dispatch].
  - rewrite onConnection_full. eexists. split; [reflexivity|].
    cbn [gameInterval players]. split; [intros _; apply length_set_player|].
    reflexivity.
  - destruct (onMessage_cases playerId message e w)
      as (w' & Hrun & [->|[(j & n & ->)|(j & p & d & _ & _ & ->)]]);
      eexists; (split; [exact Hrun|]); cbn [gameInterval players set_players];
      auto; rewrite Ht; split; intros H; contradict H;
      now apply update_nth_nil in H || now apply update_nth_nil.
  - destruct (onClose_full playerId e w)
      as (w' & Hrun & Hp & _ & _ & Hnone & Hsome).
    exists w'. split; [exact Hrun|].
    destruct (index_of playerId (players w)) as [j|] eqn:Hj.
    + rewrite Hsome by discriminate. rewrite Hp.
      destruct (delete_player playerId (players w)) eqn:Hd.
      * split; [discriminate | congruence].
      * rewrite Ht. split; [discriminate|]. intros _.
        destruct (players w); [discriminate Hj | discriminate].
    + now rewrite (Hnone eq_refl).
  - unfold bind, get. destruct (gameInterval w) eqn:Hg.
    + destruct (gameLoopTick_returns (fun _ _ => True) (fun _ => I)
                  (fun _ _ _ _ _ => I) (fun _ => I) (fun _ _ => I)
                  (fun _ _ => I) e w Hfuel) as (w' & Hrun & HR).
      exists w'. split; [exact Hrun|].
      rewrite (tick_interval e w w' Hfuel Hrun), Hg.
      apply Forall2_length_eq in HR.
      split; [intros _|reflexivity].
      destruct (players w'); [|discriminate].
      destruct (players w); [|discriminate]. now apply Ht.
    + exists w. split; [reflexivity|]. now rewrite Hg.
Qed.

(** X1. After any sequence of events from the start the timer runs
    exactly when [gameState.players] is not empty: the first connection
    starts it, the close of the last player stops it, nothing else
    touches it. *)
Theorem timer_runs_iff_connected :
  forall (evs : list Event) (e : Env),
    enough_fuel e ->
    exists w, Part001.run evs e Part001.initial = Some w /\ timer_matches w.
Proof.
  intros evs e Hfuel.
  apply (run_invariant timer_matches e).
  - intros ev w. now apply dispatch_timer.
  - unfold timer_matches, Part001.initial. cbn. split; [discriminate|].
    intros H. now contradiction H.
Qed.

Lemma timer_runs_iff_connected_witness :
  exists w,
    Part001.run [Connect; Tick; Close "k3x9p2m7q"; Tick] env0 Part001.initial
    = Some w /\ timer_matches w.
Proof.
  apply (timer_runs_iff_connected [Connect; Tick; Close "k3x9p2m7q"; Tick]
           env0).
  unfold enough_fuel. simpl. lia.
Defined.

Lemma unit_env_fuel (e : Env) : unit_env e -> enough_fuel e.
Proof. intros [H _]. exact H. Qed.

Lemma tick_food_on_grid (e : Env) (w w' : World) :
  unit_env e -> Part001.gameLoopTick e w = Ret tt w' ->
  food_on_grid w -> food_on_grid w'.
Proof.
  intros He Hrun.
  assert (H : preserves unit_env keeps_food_on_grid Part001.gameLoopTick).
  { apply preserves_gameLoopTick; unfold keeps_food_on_grid; auto.
    - exact unit_env_fuel.
    - intros e0 u r i [_ Hu] _ c Hc. cbn in Hc. injection Hc as <-.
      now apply candidate_on_grid. }
  apply (H e w w' He). now rewrite Hrun.
Qed.

Lemma dispatch_food_on_grid (e : Env) (ev : Event) (w : World) :
  unit_env e -> food_on_grid w ->
  exists w', Part001.dispatch ev e w = Ret tt w' /\ food_on_grid w'.
Proof.
  intros He Hf.
  destruct ev as [|playerId message|playerId|]; cbn [Part001.dispatch].
  - rewrite onConnection_full. eexists. split; [reflexivity|]. exact Hf.
  - destruct (onMessage_cases playerId message e w)
      as (w' & Hrun & [->|[(j & n & ->)|(j & p & d & _ & _ & ->)]]);
      eexists; (split; [exact Hrun|]); exact Hf.
  - destruct (onClose_full playerId e w) as (w' & Hrun & _ & Hfood & _).
    exists w'. split; [exact Hrun|]. unfold food_on_grid. now rewrite Hfood.
  - unfold bind, get. destruct (gameInterval w).
    + destruct (gameLoopTick_returns (fun _ _ => True) (fun _ => I)
                  (fun _ _ _ _ _ => I) (fun _ => I) (fun _ _ => I)
                  (fun _ _ => I) e w (unit_env_fuel e He)) as (w' & Hrun & _).
      exists w'. split; [exact Hrun|]. eapply tick_food_on_grid; eauto.
    + exists w. auto.
Qed.

(** X2. After any sequence of events from the start the food, when there
    is one, is on the grid: every food comes from [getRandomPosition]. *)
Theorem food_stays_on_grid :
  forall (evs : list Event) (e : Env),
    enough_fuel e -> unit_random e ->
    exists w, Part001.run evs e Part001.initial = Some w /\ food_on_grid w.
Proof.
  intros evs e Hfuel Hunit.
  apply (run_invariant food_on_grid e).
  - intros ev w. apply dispatch_food_on_grid. now split.
  - intros c Hc. discriminate.
Qed.

Lemma food_stays_on_grid_witness :
  exists w,
    Part001.run [Connect; Tick; Tick] env0 Part001.initial = Some w /\
    food_on_grid w.
Proof.
  apply (food_stays_on_grid [Connect; Tick; Tick] env0).
  - unfold enough_fuel. simpl. lia.
  - exact unit_random_env0.
Defined.

Lemma moves_keep_snakes (e : Env) (w : World) :
  enough_fuel e -> snakes_nonempty w ->
  exists w', forEachPlayer Part001.movePlayer e w = Ret tt w' /\
             snakes_nonempty w'.
Proof.
  intros Hfuel Hne. unfold forEachPlayer.
  destruct (moves_elsewhere e Hfuel (List.length (players w)) 0 w)
    as (w' & Hrun & _).
  exists w'. split; [exact Hrun|].
  destruct (runs_forEachPlayer snake_stays_nonempty snake_stays_nonempty_refl
              snake_stays_nonempty_trans Part001.movePlayer) with
    (e := e) (w := w) as (w2 & Hw2 & HR); [| exact Hfuel |].
  { intros j. apply runs_movePlayer; [apply snake_stays_nonempty_refl|].
    apply moved_nonempty. }
  unfold forEachPlayer in Hw2. rewrite Hrun in Hw2. injection Hw2 as <-.
  unfold snakes_nonempty in *. eapply nonempty_carried; eauto.
Qed.

(** X3. In a world without an empty snake [updateGame] returns: nothing
    throws, so the [catch] of the game loop is not reached; afterwards
    there is food, and still no empty snake. *)
Theorem updateGame_returns_with_food :
  forall (e : Env) (w : World),
    enough_fuel e -> snakes_nonempty w ->
    exists w',
      Part001.updateGame e w = Ret tt w' /\
      food w' <> None /\ snakes_nonempty w'.
Proof.
  intros e w Hfuel Hne. unfold Part001.updateGame, bind at 1.
  rewrite commit_phase_eq.
  set (w1 := set_players (map commit1 (players w)) w).
  assert (Hne1 : snakes_nonempty w1).
  { unfold snakes_nonempty in *. subst w1. cbn [players set_players].
    apply Forall_map. revert Hne. apply Forall_impl. intros p Hp.
    now rewrite (proj1 (proj2 (proj2 (commit1_fields p)))). }
  unfold bind at 1.
  destruct (moves_keep_snakes e w1 Hfuel Hne1) as (w2 & -> & Hne2).
  unfold bind at 1. rewrite (checkCollisions_eq e w2 Hne2).
  set (w3 := set_players _ w2).
  assert (Hne3 : snakes_nonempty w3).
  { unfold snakes_nonempty in *. subst w3. cbn [players set_players].
    apply Forall_map. revert Hne2. apply Forall_impl. intros p Hp.
    now rewrite (proj1 (proj2 (proj2 (collide_fields _ p)))). }
  unfold bind at 1, Part001.foodMissingOrStale, bind at 1, get at 1.
  assert (Hnew : forall u, snakes_nonempty u ->
            exists w',
              (f <- Part001.generateFood ;; modify (set_food (Some f))) e u
              = Ret tt w' /\ food w' <> None /\ snakes_nonempty w').
  { intros u Hu. unfold bind.
    destruct (generateFood_returns e u Hfuel) as (k & c & ->).
    unfold modify. eexists. split; [reflexivity|].
    cbn. split; [discriminate | exact Hu]. }
  destruct (food w3) as [f|] eqn:Hf3.
  - unfold bind at 1, Math_random, ret.
    destruct (negb (Qle_bool (2 # 100) (Math_random_seq e (rng w3)))).
    + apply Hnew. exact Hne3.
    + eexists. split; [reflexivity|]. split; [|exact Hne3].
      change (food w3 <> None). rewrite Hf3. discriminate.
  - unfold ret at 1. apply Hnew. exact Hne3.
Qed.

Lemma updateGame_returns_with_food_witness :
  exists w',
    Part001.updateGame env0 world1 = Ret tt w' /\ food w' <> None.
Proof.
  destruct (updateGame_returns_with_food env0 world1) as (w' & Hrun & Hf & _).
  - unfold enough_fuel. simpl. lia.
  - unfold snakes_nonempty. simpl. repeat constructor; discriminate.
  - exists w'. auto.
Defined.

Lemma dispatch_keeps_each (P : Player -> Prop) :
  (forall p, P p -> P (commit1 p)) ->
  (forall f p, P p -> P (moved f p)) ->
  (forall segs p, P p -> P (collide segs p)) ->
  (forall d p, P p -> P (set_pendingDirection d p)) ->
  (forall n p, P p -> P (set_name n p)) ->
  (forall e w, P (newPlayer e w)) ->
  forall ev e w,
    enough_fuel e -> Forall P (players w) ->
    exists w', Part001.dispatch ev e w = Ret tt w' /\ Forall P (players w').
Proof.
  intros Hc Hm Hk Hd Hn Hnew ev e w Hfuel HP.
  destruct ev as [|playerId message|playerId|]; cbn [Part001.dispatch].
  - rewrite onConnection_full. eexists. split; [reflexivity|].
    cbn [players]. apply Forall_set_player; auto.
  - destruct (onMessage_returns (keeps P) (keeps_refl P) Hd Hn
                playerId message e w) as (w' & Hrun & HR).
    exists w'. split; [exact Hrun|]. eapply Forall2_keeps; eauto.
  - destruct (onClose_spec playerId e w) as (w' & Hrun & Hp).
    exists w'. split; [exact Hrun|]. rewrite Hp.
    now apply Forall_delete_player.
  - unfold bind, get. destruct (gameInterval w); [|exists w; auto].
    destruct (gameLoopTick_returns (keeps P) (keeps_refl P) (keeps_trans P)
                Hc Hm Hk e w Hfuel) as (w' & Hrun & HR).
    exists w'. split; [exact Hrun|]. eapply Forall2_keeps; eauto.
Qed.

Lemma moved_counts_growth (f : option Position) (p : Player) :
  score_counts_growth p -> score_counts_growth (moved f p).
Proof.
  unfold score_counts_growth, moved. intros H.
  destruct (negb (alive p)); [exact H|].
  destruct (snake p) as [|h t] eqn:Hs; [now rewrite Hs|].
  destruct (eats f (newHead p h)); cbn [score snake set_score set_snake].
  - unfold Part001.FOOD_SCORE. cbn [List.length] in *. lia.
  - rewrite removelast_cons_length. exact H.
Qed.

(** X4. After any sequence of events from the start the score of every
    player, alive or dead, is the number of cells of its snake minus one:
    a snake starts with one cell and score 0, and gains a cell exactly
    when it scores [FOOD_SCORE]. *)
Theorem score_is_snake_growth :
  forall (evs : list Event) (e : Env),
    enough_fuel e ->
    exists w, Part001.run evs e Part001.initial = Some w /\
              Forall score_counts_growth (players w).
Proof.
  intros evs e Hfuel.
  apply (run_invariant (fun w => Forall score_counts_growth (players w)) e).
  - intros ev w Hw.
    apply (dispatch_keeps_each score_counts_growth); auto.
    + intros p. unfold score_counts_growth.
      destruct (commit1_fields p) as (_ & -> & -> & _). auto.
    + apply moved_counts_growth.
    + intros segs p. unfold score_counts_growth.
      destruct (collide_fields segs p) as (_ & -> & -> & _). auto.
    + intros e0 w0. reflexivity.
  - constructor.
Qed.

Lemma score_is_snake_growth_witness :
  exists w,
    Part001.run [Connect; Tick; Connect; Tick; Tick] env0 Part001.initial
    = Some w /\ Forall score_counts_growth (players w).
Proof.
  apply (score_is_snake_growth [Connect; Tick; Connect; Tick; Tick] env0).
  unfold enough_fuel. simpl. lia.
Defined.

(** ** What a tick and a message change, and what they leave *)

Lemma same_identity_refl (p : Player) : same_identity p p.
Proof. repeat split. Qed.

Lemma same_identity_trans (p q r : Player) :
  same_identity p q -> same_identity q r -> same_identity p r.
Proof. intros (H1 & H2 & H3) (H4 & H5 & H6). repeat split; congruence. Qed.

(** X5. The callback of the timer returns and never changes how many
    players there are, their order, or the id, the name and the colour of
    any of them; it does not touch the timer either. *)
Theorem tick_keeps_identity :
  forall (e : Env) (w : World),
    enough_fuel e ->
    exists w',
      Part001.gameLoopTick e w = Ret tt w' /\
      Forall2 same_identity (players w) (players w') /\
      gameInterval w' = gameInterval w.
Proof.
  intros e w Hfuel.
  destruct (gameLoopTick_returns same_identity same_identity_refl
              same_identity_trans) with (e := e) (w := w)
    as (w' & Hrun & HR); [| | | exact Hfuel |].
  - intros p. unfold commit1.
    destruct (truthy (pendingDirection p) && alive p); repeat split.
  - intros f p. unfold moved. destruct (negb (alive p)); [repeat split|].
    destruct (snake p) as [|h t]; [repeat split|].
    destruct (eats f (newHead p h)); repeat split.
  - intros segs p. unfold collide. destruct (negb (alive p)); [repeat split|].
    destruct (snake p) as [|h t]; [repeat split|].
    destruct (existsb (Part001.hits p h) segs); repeat split.
  - exists w'. split; [exact Hrun|]. split; [exact HR|].
    now apply (tick_interval e w w').
Qed.

Lemma tick_keeps_identity_witness :
  exists w',
    Part001.gameLoopTick env0 world2 = Ret tt w' /\
    Forall2 same_identity (players world2) (players w').
Proof.
  destruct (tick_keeps_identity env0 world2) as (w' & Hrun & HR & _).
  - unfold enough_fuel. simpl. lia.
  - exists w'. auto.
Defined.

Lemma same_headings_refl (p : Player) : same_headings p p.
Proof. split; reflexivity. Qed.

Lemma same_headings_trans (p q r : Player) :
  same_headings p q -> same_headings q r -> same_headings p r.
Proof. intros [H1 H2] [H3 H4]. split; congruence. Qed.

Lemma tick_headings (e : Env) (w : World) (j : nat) (p : Player) :
  enough_fuel e -> nth_error (players w) j = Some p ->
  exists w' p',
    Part001.gameLoopTick e w = Ret tt w' /\
    nth_error (players w') j = Some p' /\
    same_headings (commit1 p) p'.
Proof.
  intros Hfuel Hj.
  destruct (runs_after_commit same_headings same_headings_refl
              same_headings_trans) with
    (e := e) (w := set_players (map commit1 (players w)) w)
    as (w' & Hrun & HR); [| | exact Hfuel |].
  - intros f q. split; apply moved_direction.
  - intros segs q. split; [apply collide_fields | apply collide_pending].
  - cbn [players set_players] in HR.
    destruct (Forall2_nth_error _ _ _ j (commit1 p) HR) as (p' & Hp' & Hd).
    { now rewrite nth_error_map, Hj. }
    exists w', p'. split; [|auto].
    unfold Part001.gameLoopTick, try_catch, Part001.updateGame.
    unfold bind at 1. rewrite commit_phase_eq.
    match goal with
    | H : world_of ?o = Some w' |- context [?o'] =>
        change o' with o; destruct o as [[] u|ex u|]; cbn in H;
        try discriminate; now injection H as ->
    end.
Qed.

(** X6. The tick commits and clears the buffer: an alive player with a
    truthy pending heading has it as heading after the tick and [null]
    pending; a player that is dead, or has nothing truthy pending, keeps
    both its heading and what is pending. *)
Theorem tick_commits_pending :
  forall (e : Env) (w : World) (j : nat) (p : Player),
    enough_fuel e ->
    nth_error (players w) j = Some p ->
    exists w' p',
      Part001.gameLoopTick e w = Ret tt w' /\
      nth_error (players w') j = Some p' /\
      (alive p = true -> truthy (pendingDirection p) = true ->
       direction p' = pendingDirection p /\ pendingDirection p' = JNull) /\
      (alive p = false \/ truthy (pendingDirection p) = false ->
       direction p' = direction p /\
       pendingDirection p' = pendingDirection p).
Proof.
  intros e w j p Hfuel Hj.
  destruct (tick_headings e w j p Hfuel Hj) as (w' & p' & Hrun & Hp & Hd & Hpd).
  exists w', p'. split; [exact Hrun|]. split; [exact Hp|].
  rewrite Hd, Hpd. unfold commit1. split.
  - intros -> ->. cbn. auto.
  - intros [->| ->]; rewrite ?andb_false_r; cbn; auto.
Qed.

Lemma tick_commits_pending_witness :
  exists w' p',
    Part001.gameLoopTick env0 world_reversal = Ret tt w' /\
    nth_error (players w') 0 = Some p' /\
    direction p' = JStr "left" /\ pendingDirection p' = JNull.
Proof.
  destruct (tick_commits_pending env0 world_reversal 0
              (set_pendingDirection (JStr "left") alice))
    as (w' & p' & Hrun & Hp & Hcommit & _).
  - unfold enough_fuel. simpl. lia.
  - reflexivity.
  - exists w', p'. split; [exact Hrun|]. split; [exact Hp|].
    apply Hcommit; reflexivity.
Defined.

Lemma onMessage_accepts (e : Env) (w : World) (playerId : string) (j : nat)
      (p : Player) (kvs : list (string * JsVal)) (d : JsVal) :
  index_of playerId (players w) = Some j ->
  nth_error (players w) j = Some p ->
  asks_direction kvs d ->
  Part001.reversal (direction p) d = false ->
  Part001.onMessage playerId (Parsed (JObj kvs)) e w
  = Ret tt (set_players
              (update_nth j (set_pendingDirection d) (players w)) w).
Proof.
  intros Hidx Hj [Htype Hdir] Hrev.
  unfold Part001.onMessage, try_catch, bind at 1. cbn [JSON_parse].
  unfold ret at 1. unfold bind at 1. cbn [prop]. rewrite Htype.
  unfold ret at 1. unfold bind at 1, get at 1. rewrite Hidx.
  cbn [is_str]. rewrite String.eqb_refl.
  unfold withPlayer. rewrite Hj. unfold bind at 1. cbn [prop].
  rewrite Hdir. unfold ret at 1.
  unfold Part001.reversal in Hrev. rewrite !orb_false_iff in Hrev.
  destruct Hrev as [[[-> ->] ->] ->]. reflexivity.
Qed.

(** X7. A [directionChange] that is not the reverse of the player's
    heading is stored as its pending heading, whatever was pending, and
    nothing else changes; the next tick makes it the heading of the
    player, if the player is alive and the value truthy, and clears the
    buffer. *)
Theorem direction_change_takes_effect :
  forall (e : Env) (w : World) (playerId : string) (j : nat) (p : Player)
         (kvs : list (string * JsVal)) (d : JsVal),
    enough_fuel e ->
    index_of playerId (players w) = Some j ->
    nth_error (players w) j = Some p ->
    asks_direction kvs d ->
    Part001.reversal (direction p) d = false ->
    let w1 := set_players
                (update_nth j (set_pendingDirection d) (players w)) w in
    Part001.onMessage playerId (Parsed (JObj kvs)) e w = Ret tt w1 /\
    exists w2 p',
      Part001.gameLoopTick e w1 = Ret tt w2 /\
      nth_error (players w2) j = Some p' /\
      (alive p = true -> truthy d = true ->
       direction p' = d /\ pendingDirection p' = JNull).
Proof.
  intros e w playerId j p kvs d Hfuel Hidx Hj Hask Hrev w1.
  split; [now apply (onMessage_accepts e w playerId j p kvs d)|].
  destruct (tick_headings e w1 j (set_pendingDirection d p) Hfuel)
    as (w2 & p' & Hrun & Hp & Hd & Hpd).
  { subst w1. cbn [players set_players].
    now rewrite nth_error_update_nth_eq, Hj. }
  exists w2, p'. split; [exact Hrun|]. split; [exact Hp|].
  intros Ha Ht. rewrite Hd, Hpd. unfold commit1. cbn.
  rewrite Ht, Ha. cbn. auto.
Qed.

Lemma direction_change_takes_effect_witness :
  exists w2 p',
    Part001.gameLoopTick env0
      (set_players (update_nth 0 (set_pendingDirection (JStr "up"))
                               (players world1)) world1) = Ret tt w2 /\
    nth_error (players w2) 0 = Some p' /\
    direction p' = JStr "up" /\ pendingDirection p' = JNull.
Proof.
  destruct (direction_change_takes_effect env0 world1 "k3x9p2m7q" 0 alice
              [("type"%string, JStr "directionChange");
               ("direction"%string, JStr "up")] (JStr "up"))
    as (_ & w2 & p' & Hrun & Hp & Hd).
  - unfold enough_fuel. simpl. lia.
  - reflexivity.
  - reflexivity.
  - split; reflexivity.
  - reflexivity.
  - exists w2, p'. split; [exact Hrun|]. split; [exact Hp|].
    apply Hd; reflexivity.
Defined.

Lemma length_substring_0 (m : nat) (s : string) :
  String.length (substring 0 m s) = Nat.min m (String.length s).
Proof.
  revert s. induction m as [|m IH]; intros s.
  - destruct s; reflexivity.
  - destruct s as [|c s]; [reflexivity|]. cbn. now rewrite IH.
Qed.

Lemma prefix_substring_0 (m : nat) (s : string) :
  prefix (substring 0 m s) s = true.
Proof.
  revert s. induction m as [|m IH]; intros s.
  - destruct s; reflexivity.
  - destruct s as [|c s]; [reflexivity|]. cbn.
    destruct (ascii_dec c c) as [_|Hne]; [apply IH | congruence].
Qed.

(** X10. A [setName] message with a string of ASCII characters under
    [name] gives the player of the connection the first 15 characters of
    that string as name (the whole string when it has at most 15) and
    changes nothing else; when [name] is missing or not a string the
    [TypeError] of [substring] is caught and the world is as it was. *)
Theorem setName_truncates :
  forall (e : Env) (w : World) (playerId : string) (j : nat)
         (kvs : list (string * JsVal)),
    index_of playerId (players w) = Some j ->
    assoc "type" kvs = Some (JStr "setName") ->
    (forall n,
       assoc "name" kvs = Some (JStr n) ->
       ascii_only n = true ->
       Part001.onMessage playerId (Parsed (JObj kvs)) e w
       = Ret tt (set_players
                   (update_nth j (set_name (substring 0 15 n)) (players w)) w)
       /\ String.length (substring 0 15 n) = Nat.min 15 (String.length n)
       /\ prefix (substring 0 15 n) n = true) /\
    ((forall n, assoc "name" kvs <> Some (JStr n)) ->
     Part001.onMessage playerId (Parsed (JObj kvs)) e w = Ret tt w).
Proof.
  intros e w playerId j kvs Hidx Htype.
  assert (Hrun : Part001.onMessage playerId (Parsed (JObj kvs)) e w
            = match (match assoc "name" kvs with
                     | Some u => u
                     | None => JUndefined
                     end) with
              | JStr n => Ret tt (set_players
                            (update_nth j (set_name (substring 0 15 n))
                                        (players w)) w)
              | _ => Ret tt w
              end).
  { unfold Part001.onMessage, try_catch, bind at 1. cbn [JSON_parse].
    unfold ret at 1. unfold bind at 1. cbn [prop]. rewrite Htype.
    unfold ret at 1. unfold bind at 1, get at 1. rewrite Hidx.
    change (is_str (JStr "setName") "directionChange") with false.
    change (is_str (JStr "setName") "setName") with true. cbv iota.
    unfold bind at 1. cbn [prop]. unfold ret at 1. unfold bind at 1.
    destruct (match assoc "name" kvs with Some u => u | None => JUndefined end);
      reflexivity. }
  split.
  - intros n Hn _. rewrite Hrun, Hn. split; [reflexivity|].
    split; [apply length_substring_0 | apply prefix_substring_0].
  - intros Hno. rewrite Hrun.
    destruct (assoc "name" kvs) as [[| | | |n| |]|]; try reflexivity.
    now contradiction (Hno n).
Qed.

Lemma setName_truncates_witness :
  Part001.onMessage "k3x9p2m7q"
    (Parsed (JObj [("type"%string, JStr "setName");
                   ("name"%string, JStr "Bartholomew the Third")]))
    env0 world1
  = Ret tt (set_players
              (update_nth 0 (set_name "Bartholomew the") (players world1))
              world1).
Proof.
  destruct (setName_truncates env0 world1 "k3x9p2m7q" 0
              [("type"%string, JStr "setName");
               ("name"%string, JStr "Bartholomew the Third")])
    as [H _].
  - reflexivity.
  - reflexivity.
  - destruct (H "Bartholomew the Third"%string eq_refl eq_refl)
      as [Hrun _].
    exact Hrun.
Defined.

Lemma update_nth_Forall2_at {A : Type} (R : A -> A -> Prop) (g : A -> A)
      (l : list A) (j : nat) (a : A) :
  (forall b, R b b) -> nth_error l j = Some a -> R a (g a) ->
  Forall2 R l (update_nth j g l).
Proof.
  intros Hrefl. revert j. induction l as [|b l IH]; intros [|j] Hj Hg;
    cbn in *; try discriminate.
  - injection Hj as ->. constructor; [exact Hg | now apply Forall2_refl].
  - constructor; [apply Hrefl | now apply IH].
Qed.

Lemma onMessage_effect (playerId : string) (message : Inbound) (e : Env)
      (w : World) :
  exists w',
    Part001.onMessage playerId message e w = Ret tt w' /\
    (w' = w \/
     exists j p g,
       index_of playerId (players w) = Some j /\
       nth_error (players w) j = Some p /\
       w' = set_players (update_nth j g (players w)) w /\
       ((exists n, g = set_name n) \/ (exists d, g = set_pendingDirection d))).
Proof.
  assert (Hstay : exists w',
             Ret tt w = Ret tt w' /\
             (w' = w \/
              exists j p g,
                index_of playerId (players w) = Some j /\
                nth_error (players w) j = Some p /\
                w' = set_players (update_nth j g (players w)) w /\
                ((exists n, g = set_name n) \/
                 (exists d, g = set_pendingDirection d)))).
  { exists w. auto. }
  unfold Part001.onMessage, try_catch, bind at 1.
  destruct message as [|data]; cbn [JSON_parse]; [apply Hstay|].
  unfold ret at 1. unfold bind at 1.
  destruct data as [| |b|q|s|items|kvs]; cbn [prop];
    try (unfold throw; apply Hstay);
    unfold ret at 1; unfold bind at 1, get at 1;
    (destruct (index_of playerId (players w)) as [j|] eqn:Hidx;
     [|apply Hstay]).
  1-4: cbn [is_str]; apply Hstay.
  destruct (index_of_Some _ _ _ Hidx) as (p & Hj & _).
  destruct (is_str _ "directionChange").
  - unfold withPlayer. rewrite Hj. unfold bind at 1, ret at 1.
    match goal with
    | |- context [if ?c then _ else _] => destruct c
    end; [|apply Hstay].
    unfold modPlayer, modify. eexists. split; [reflexivity|].
    right. exists j, p. eexists. repeat split; eauto.
  - destruct (is_str _ "setName"); [|apply Hstay].
    unfold bind at 1, ret at 1. unfold bind at 1.
    destruct (match assoc "name" kvs with Some u => u | None => JUndefined end);
      cbn [substring_0_15]; try (unfold throw; apply Hstay).
    unfold ret at 1, modPlayer, modify. eexists. split; [reflexivity|].
    right. exists j, p. eexists. repeat split; eauto.
Qed.

(** X11. Whatever the message, the handler returns without throwing;
    food, timer and random draws are untouched; only the player of the
    connection can change, and of it only the name and the pending
    heading; when that player is not in [gameState.players] nothing
    changes. *)
Theorem message_changes_only_sender :
  forall (playerId : string) (message : Inbound) (e : Env) (w : World),
    exists w',
      Part001.onMessage playerId message e w = Ret tt w' /\
      food w' = food w /\ gameInterval w' = gameInterval w /\
      rng w' = rng w /\
      Forall2 (message_effect playerId) (players w) (players w') /\
      (lookup playerId (players w) = None -> w' = w).
Proof.
  intros playerId message e w.
  assert (Hrefl : forall b, message_effect playerId b b).
  { intros b. split; [auto|]. now destruct b. }
  destruct (onMessage_effect playerId message e w)
    as (w' & Hrun & [->|(j & p & g & Hidx & Hj & -> & Hg)]).
  - exists w. repeat split; auto. now apply Forall2_refl.
  - eexists. split; [exact Hrun|]. cbn [food gameInterval rng players
                                        set_players].
    do 3 (split; [reflexivity|]). split.
    + apply (update_nth_Forall2_at _ _ _ _ p); auto.
      destruct (index_of_Some _ _ _ Hidx) as (q & Hq & Hid).
      assert (q = p) by congruence. subst q.
      split; [intros H; contradiction|].
      destruct Hg as [(n & ->)|(d & ->)]; now destruct p.
    + intros Hnone. rewrite lookup_index_of, Hidx, Hj in Hnone. discriminate.
Qed.

(** ** The shape of a move *)

(** X12. [movePlayer] on an alive player returns and touches only that
    player, and of it only the snake and the score: the new snake is the
    new head followed by the whole old snake when the head is on the
    food, and by the old snake without its last cell otherwise, so every
    cell follows the one that was ahead of it. *)
Theorem movePlayer_shifts_body :
  forall (e : Env) (w : World) (j : nat) (p : Player) (h : Position)
         (t : list Position),
    enough_fuel e ->
    nth_error (players w) j = Some p ->
    alive p = true ->
    snake p = h :: t ->
    exists w' p',
      Part001.movePlayer j e w = Ret tt w' /\
      nth_error (players w') j = Some p' /\
      (forall k, k <> j -> nth_error (players w') k = nth_error (players w) k) /\
      p' = set_score (score p') (set_snake (snake p') p) /\
      (food w = Some (newHead p h) -> snake p' = newHead p h :: h :: t) /\
      (food w <> Some (newHead p h) ->
       snake p' = newHead p h :: removelast (h :: t) /\
       forall i, (S i < List.length (h :: t))%nat ->
                 nth_error (snake p') (S i) = nth_error (h :: t) i).
Proof.
  intros e w j p h t Hfuel Hj Ha Hs.
  destruct (movePlayer_spec j e w Hfuel) as (w' & Hrun & Hp & _).
  exists w', (moved (food w) p). split; [exact Hrun|].
  split; [now rewrite Hp, nth_error_update_nth_eq, Hj|].
  split; [intros k Hk; rewrite Hp; apply nth_error_update_nth_neq; auto|].
  unfold moved. rewrite Ha, Hs. cbn [negb].
  split; [destruct (eats (food w) (newHead p h)); now destruct p|].
  split; intros Hf.
  - apply eats_true_iff in Hf. now rewrite Hf.
  - destruct (eats (food w) (newHead p h)) eqn:He.
    { apply eats_true_iff in He. contradiction. }
    cbn [snake set_snake].
    change (removelast (newHead p h :: h :: t))
      with (newHead p h :: removelast (h :: t)).
    split; [reflexivity|]. intros i Hi. cbn [nth_error].
    clear -Hi. revert h i Hi. induction t as [|c t IH]; intros h i Hi.
    + cbn in Hi. lia.
    + change (removelast (h :: c :: t)) with (h :: removelast (c :: t)).
      destruct i as [|i]; [reflexivity|]. cbn [nth_error].
      apply IH. cbn in *. lia.
Qed.

Lemma movePlayer_shifts_body_witness :
  exists w' p',
    Part001.movePlayer 1 env0 world2 = Ret tt w' /\
    nth_error (players w') 1 = Some p' /\
    snake p' = [mkPos 5 4; mkPos 5 5].
Proof.
  destruct (movePlayer_shifts_body env0 world2 1 carol (mkPos 5 5)
              [mkPos 5 6]) as (w' & p' & Hrun & Hp & _ & _ & _ & Hs).
  - unfold enough_fuel. simpl. lia.
  - reflexivity.
  - reflexivity.
  - reflexivity.
  - exists w', p'. split; [exact Hrun|]. split; [exact Hp|].
    apply Hs. discriminate.
Defined.

(** X13. When an alive player eats, [movePlayer] replaces the food by the
    last of [k] candidates drawn, [k] between 1 and 100; unless all 100
    were drawn the new food is on no snake as the snakes are after the
    move, so it is not under the head that has just eaten. *)
Theorem eaten_food_is_replaced :
  forall (e : Env) (w : World) (j : nat) (p : Player) (h : Position)
         (t : list Position),
    enough_fuel e ->
    nth_error (players w) j = Some p ->
    alive p = true ->
    snake p = h :: t ->
    food w = Some (newHead p h) ->
    exists w' (k : nat),
      Part001.movePlayer j e w = Ret tt w' /\
      (1 <= k <= 100)%nat /\
      food w' = Some (candidate e (rng w) (k - 1)) /\
      rng w' = (rng w + 2 * k)%nat /\
      ((k < 100)%nat ->
       positionOccupied (players w') (candidate e (rng w) (k - 1)) = false /\
       candidate e (rng w) (k - 1) <> newHead p h).
Proof.
  intros e w j p h t Hfuel Hj Ha Hs Hf.
  unfold Part001.movePlayer, withPlayer. rewrite Hj, Ha, Hs. cbn [negb].
  fold (newHead p h).
  unfold bind at 1, modPlayer at 1, modify at 1. unfold bind at 1, get at 1.
  cbn [food set_players]. rewrite Hf. rewrite !Z.eqb_refl. cbn [andb].
  unfold bind at 1, modPlayer at 1, modify at 1. unfold bind at 1.
  cbn [players set_players].
  match goal with
  | |- context [Part001.generateFood e ?u] => set (w1 := u)
  end.
  unfold Part001.generateFood.
  destruct (generateFood_loop_spec e (fuel e) 0 w1)
    as (k & Hk1 & Hk2 & Heq & _ & Hlast).
  { unfold Part001.maxAttempts. lia. }
  { unfold Part001.maxAttempts, enough_fuel in *. lia. }
  unfold Part001.maxAttempts in *. rewrite Heq. unfold modify.
  eexists. exists k. split; [reflexivity|]. split; [lia|].
  cbn [food rng players set_food set_rng]. subst w1.
  cbn [rng players set_players] in *.
  split; [reflexivity|]. split; [reflexivity|].
  intros Hk. assert (Hfree := Hlast ltac:(lia)). split; [exact Hfree|].
  intros Heqc. rewrite Heqc in Hfree.
  assert (Hocc : positionOccupied
                   (update_nth j
                      (fun p0 => set_score (score p0 + Part001.FOOD_SCORE) p0)
                      (update_nth j
                         (fun p0 => set_snake (newHead p h :: snake p0) p0)
                         (players w)))
                   (newHead p h) = true).
  { unfold positionOccupied. apply existsb_exists.
    eexists. split.
    - eapply nth_error_In. rewrite update_nth_twice, nth_error_update_nth_eq.
      rewrite Hj. reflexivity.
    - cbn [snake set_snake set_score existsb]. now rewrite pos_eqb_refl. }
  congruence.
Qed.

Lemma eaten_food_is_replaced_witness :
  exists w' (k : nat),
    Part001.movePlayer 0 env0 world1 = Ret tt w' /\
    (1 <= k <= 100)%nat /\
    food w' = Some (candidate env0 0 (k - 1)).
Proof.
  destruct (eaten_food_is_replaced env0 world1 0 alice (mkPos 5 5) [])
    as (w' & k & Hrun & Hk & Hf & _).
  - unfold enough_fuel. simpl. lia.
  - reflexivity.
  - reflexivity.
  - reflexivity.
  - reflexivity.
  - exists w', k. auto.
Defined.

(** ** After a disconnection *)

Lemma acc_get_set_other (k k' : string) (v : Part001.ClientPlayer)
      (acc : list (string * Part001.ClientPlayer)) :
  k' <> k -> Part001.acc_get k (Part001.acc_set k' v acc)
             = Part001.acc_get k acc.
Proof.
  intros Hne. induction acc as [|[k0 v0] acc IH]; cbn.
  - destruct (String.eqb k' k) eqn:H; [|reflexivity].
    apply String.eqb_eq in H. contradiction.
  - destruct (String.eqb k0 k') eqn:H0; cbn.
    + apply String.eqb_eq in H0. subst k0.
      destruct (String.eqb k' k) eqn:H; [|reflexivity].
      apply String.eqb_eq in H. contradiction.
    + destruct (String.eqb k0 k); [reflexivity | exact IH].
Qed.

Lemma snapshot_without (k : string) (ex : option string) (w : World) :
  ~ In k (map id (players w)) ->
  Part001.acc_get k (Part001.cgs_players (Part001.getClientGameState ex w))
  = None.
Proof.
  intros Hk. unfold Part001.getClientGameState. cbn [Part001.cgs_players].
  assert (Hgen : forall l acc,
            ~ In k (map id l) ->
            Part001.acc_get k
              (fold_left
                 (fun acc player =>
                    if Part001.differs (id player) ex then
                      Part001.acc_set (id player)
                        (Part001.mkClientPlayer (snake player) (color player)
                                                (alive player)) acc
                    else acc) l acc)
            = Part001.acc_get k acc).
  { induction l as [|p l IH]; intros acc Hl; cbn [fold_left]; [reflexivity|].
    cbn in Hl. rewrite IH by tauto.
    destruct (Part001.differs (id p) ex); [|reflexivity].
    apply acc_get_set_other. tauto. }
  now rewrite Hgen.
Qed.

Lemma dispatch_keeps_absent (k : string) (ev : Event) (e : Env) (w : World) :
  enough_fuel e -> not_connect ev ->
  ~ In k (map id (players w)) ->
  exists w', Part001.dispatch ev e w = Ret tt w' /\
             ~ In k (map id (players w')).
Proof.
  intros Hfuel Hev Hk.
  destruct ev as [|playerId message|playerId|]; cbn [Part001.dispatch];
    [contradiction| | |].
  - destruct (onMessage_returns (fun p p' => id p' = id p) (fun _ => eq_refl)
                (fun _ _ => eq_refl) (fun _ _ => eq_refl)
                playerId message e w) as (w' & Hrun & HR).
    exists w'. split; [exact Hrun|]. now rewrite (Forall2_map_id _ _ HR).
  - destruct (onClose_spec playerId e w) as (w' & Hrun & Hp).
    exists w'. split; [exact Hrun|]. rewrite Hp. intros Hin. apply Hk.
    apply in_map_iff in Hin. destruct Hin as (q & Hq & Hin).
    apply filter_In in Hin. rewrite <- Hq. apply in_map. tauto.
  - unfold bind, get. destruct (gameInterval w); [|exists w; auto].
    destruct (gameLoopTick_returns (fun p p' => id p' = id p)
                (fun _ => eq_refl)
                (fun p q r (H1 : id q = id p) (H2 : id r = id q) =>
                   eq_trans H2 H1)) with (e := e) (w := w)
      as (w' & Hrun & HR); [| | | exact Hfuel |].
    + intros p. apply commit1_fields.
    + intros f p. apply moved_id.
    + intros segs p. apply collide_fields.
    + exists w'. split; [exact Hrun|]. now rewrite (Forall2_map_id _ _ HR).
Qed.

(** X14. Once the connection of a player has closed, no later snapshot
    and no later roster names its id, whatever ticks, messages and closes
    follow, until a new connection is made. *)
Theorem disconnected_player_is_gone :
  forall (playerId : string) (evs : list Event) (e : Env) (w : World),
    enough_fuel e ->
    Forall not_connect evs ->
    exists w',
      Part001.run (Close playerId :: evs) e w = Some w' /\
      (forall excludePlayerId,
         Part001.acc_get playerId
           (Part001.cgs_players
              (Part001.getClientGameState excludePlayerId w')) = None) /\
      ~ In playerId (map Part001.re_id (Part001.playersUpdate w')).
Proof.
  intros playerId evs e w Hfuel Hevs. cbn [Part001.run Part001.dispatch].
  destruct (onClose_spec playerId e w) as (w1 & -> & Hp). cbn [world_of].
  assert (Hgone : ~ In playerId (map id (players w1))).
  { rewrite Hp. apply index_of_None. apply index_of_delete_player. }
  clear Hp. revert w1 Hgone.
  induction Hevs as [|ev evs Hev Hevs IH]; intros w1 Hgone; cbn [Part001.run].
  - exists w1. split; [reflexivity|]. split.
    + intros ex. now apply snapshot_without.
    + unfold Part001.playersUpdate. rewrite map_map. exact Hgone.
  - destruct (dispatch_keeps_absent playerId ev e w1 Hfuel Hev Hgone)
      as (w2 & -> & Hgone2).
    cbn [world_of]. now apply IH.
Qed.

Lemma disconnected_player_is_gone_witness :
  exists w',
    Part001.run [Close "b7t0w4c8n"; Tick; Tick] env0 world1 = Some w' /\
    ~ In "b7t0w4c8n"%string (map Part001.re_id (Part001.playersUpdate w')).
Proof.
  destruct (disconnected_player_is_gone "b7t0w4c8n" [Tick; Tick] env0 world1)
    as (w' & Hrun & _ & Hroster).
  - unfold enough_fuel. simpl. lia.
  - repeat constructor.
  - exists w'. auto.
Defined.

(** ** src/server.js: food, messages, moves *)

Lemma ServerJs_generateFood_loop_spec (e : Env) :
  forall (n : nat) (w : World),
    match ServerJs.generateFood_loop true n e w with
    | Ret c w' =>
        exists k, (k < n)%nat /\
          c = candidate e (rng w) k /\
          positionOccupied (players w) c = false /\
          (forall i, (i < k)%nat ->
             positionOccupied (players w) (candidate e (rng w) i) = true) /\
          w' = set_rng (rng w + 2 * S k) w
    | Throw _ _ => False
    | Diverge =>
        forall i, (i < n)%nat ->
          positionOccupied (players w) (candidate e (rng w) i) = true
    end.
Proof.
  induction n as [|n IH]; intros w;
    cbn [ServerJs.generateFood_loop ServerJs.gameState].
  - intros i Hi. lia.
  - unfold bind at 1. rewrite getRandomPosition_eq.
    unfold bind at 1, get at 1. cbn [players set_rng].
    destruct (positionOccupied (players w) (candidate e (rng w) 0)) eqn:Hocc.
    + specialize (IH (set_rng (rng w + 2) w)).
      destruct (ServerJs.generateFood_loop true n e (set_rng (rng w + 2) w))
        as [c w'|ex w'|]; cbn [players rng set_rng] in IH.
      * destruct IH as (k & Hk & Hc & Hfree & Hbefore & Hw).
        exists (S k). split; [lia|].
        rewrite candidate_shift in Hc. split; [exact Hc|].
        split; [exact Hfree|]. split.
        -- intros [|i] Hi; [exact Hocc|].
           rewrite <- candidate_shift. apply Hbefore. lia.
        -- rewrite Hw. unfold set_rng. cbn. f_equal. lia.
      * exact IH.
      * intros [|i] Hi; [exact Hocc|].
        rewrite <- candidate_shift. apply IH. lia.
    + unfold ret. exists O. split; [lia|]. split; [reflexivity|].
      split; [exact Hocc|]. split; [intros i Hi; lia|].
      unfold set_rng. cbn. f_equal; lia.
Qed.

Lemma positionOccupied_iff (ps : list Player) (c : Position) :
  positionOccupied ps c = true <-> on_a_snake ps c.
Proof.
  unfold positionOccupied, on_a_snake. rewrite existsb_exists.
  split; intros (p & Hp & H); exists p; (split; [exact Hp|]).
  - apply existsb_exists in H. destruct H as (s & Hs & Heq).
    apply pos_eqb_eq in Heq. now subst s.
  - apply existsb_exists. exists c. split; [exact H | apply pos_eqb_refl].
Qed.

Lemma positionOccupied_not (ps : list Player) (c : Position) :
  positionOccupied ps c = false <-> ~ on_a_snake ps c.
Proof.
  rewrite <- positionOccupied_iff.
  destruct (positionOccupied ps c); split; congruence.
Qed.

Lemma ServerJs_generateFood_at (e : Env) (w : World) :
  (forall c w',
     ServerJs.generateFood true e w = Ret c w' ->
     exists k, (k < fuel e)%nat /\
       c = candidate e (rng w) k /\
       positionOccupied (players w) c = false /\
       (forall i, (i < k)%nat ->
          positionOccupied (players w) (candidate e (rng w) i) = true) /\
       w' = set_rng (rng w + 2 * S k) w) /\
  (forall k,
     (k < fuel e)%nat ->
     positionOccupied (players w) (candidate e (rng w) k) = false ->
     (forall i, (i < k)%nat ->
        positionOccupied (players w) (candidate e (rng w) i) = true) ->
     ServerJs.generateFood true e w
     = Ret (candidate e (rng w) k) (set_rng (rng w + 2 * S k) w)) /\
  (ServerJs.generateFood true e w = Diverge <->
   forall i, (i < fuel e)%nat ->
     positionOccupied (players w) (candidate e (rng w) i) = true) /\
  (forall ex w', ServerJs.generateFood true e w <> Throw ex w').
Proof.
  unfold ServerJs.generateFood.
  pose proof (ServerJs_generateFood_loop_spec e (fuel e) w) as Hspec.
  destruct (ServerJs.generateFood_loop true (fuel e) e w) as [c w'|ex w'|].
  - destruct Hspec as (k' & Hk' & Hc & Hfree' & Hbefore' & Hw).
    split; [|split; [|split]].
    + intros c0 w0 Heq. injection Heq as <- <-. exists k'. auto.
    + intros k Hk Hfree Hbefore.
      assert (k' = k).
      { destruct (Nat.lt_trichotomy k' k) as [Hlt|[Heq|Hgt]]; [|exact Heq|].
        - specialize (Hbefore k' Hlt). rewrite <- Hc in Hbefore. congruence.
        - rewrite Hbefore' in Hfree by exact Hgt. discriminate. }
      subst k'. now rewrite Hc, Hw.
    + split; [discriminate|].
      intros Hall. rewrite Hc, Hall in Hfree' by exact Hk'. discriminate.
    + discriminate.
  - contradiction.
  - split; [discriminate|]. split; [|split; [|discriminate]].
    + intros k Hk Hfree _. rewrite Hspec in Hfree by exact Hk. discriminate.
    + split; [intros _; exact Hspec | reflexivity].
Qed.

(** X15. [generateFood] of src/server.js.  Called from inside the
    initialiser of [gameState], as the top level of the file does, it
    draws one position and throws a [ReferenceError], and so does the
    load of the file.  Called once [gameState] is initialised, it returns
    the first candidate that is a cell of no snake, and nothing else:
    what it returns is on no snake, every candidate before it was on one;
    it does not return at all, whatever the budget, when every candidate
    drawn is on a snake; it does not throw. *)
Theorem ServerJs_generateFood_first_free :
  forall (e : Env) (w : World),
    ((0 < fuel e)%nat ->
     ServerJs.generateFood false e w
     = Throw ReferenceError (set_rng (rng w + 2) w) /\
     ServerJs.load e w = Throw ReferenceError (set_rng (rng w + 2) w)) /\
    (forall c w',
       ServerJs.generateFood true e w = Ret c w' ->
       ~ on_a_snake (players w) c /\
       exists k, c = candidate e (rng w) k /\
                 w' = set_rng (rng w + 2 * S k) w /\
                 forall i, (i < k)%nat ->
                   on_a_snake (players w) (candidate e (rng w) i)) /\
    (forall k,
       (k < fuel e)%nat ->
       ~ on_a_snake (players w) (candidate e (rng w) k) ->
       (forall i, (i < k)%nat ->
          on_a_snake (players w) (candidate e (rng w) i)) ->
       ServerJs.generateFood true e w
       = Ret (candidate e (rng w) k) (set_rng (rng w + 2 * S k) w)) /\
    (ServerJs.generateFood true e w = Diverge <->
     forall i, (i < fuel e)%nat ->
       on_a_snake (players w) (candidate e (rng w) i)) /\
    (forall ex w', ServerJs.generateFood true e w <> Throw ex w').
Proof.
  intros e w.
  destruct (ServerJs_generateFood_at e w) as (Hret & Hfirst & Hdiv & Hthrow).
  split; [|split; [|split; [|split]]].
  - intros Hfuel.
    assert (Hgen : ServerJs.generateFood false e w
                   = Throw ReferenceError (set_rng (rng w + 2) w)).
    { unfold ServerJs.generateFood.
      destruct (fuel e) as [|n]; [lia|].
      cbn [ServerJs.generateFood_loop ServerJs.gameState].
      unfold bind at 1. rewrite getRandomPosition_eq. reflexivity. }
    split; [exact Hgen|]. unfold ServerJs.load, bind. now rewrite Hgen.
  - intros c w' Hrun.
    destruct (Hret c w' Hrun) as (k & _ & Hc & Hfree & Hbefore & Hw).
    split; [now apply positionOccupied_not|].
    exists k. split; [exact Hc|]. split; [exact Hw|].
    intros i Hi. apply positionOccupied_iff. now apply Hbefore.
  - intros k Hk Hfree Hbefore. apply Hfirst; [exact Hk | |].
    + now apply positionOccupied_not.
    + intros i Hi. apply positionOccupied_iff. now apply Hbefore.
  - rewrite Hdiv. split; intros H i Hi; apply positionOccupied_iff;
      now apply H.
  - exact Hthrow.
Qed.

Lemma ServerJs_onMessage_effect (playerId : string) (message : Inbound)
      (e : Env) (w : World) :
  exists o,
    ServerJs.onMessage playerId message e w = o /\
    ((exists ex, o = Throw ex w) \/
     o = Ret tt w \/
     exists j p g,
       index_of playerId (players w) = Some j /\
       nth_error (players w) j = Some p /\
       o = Ret tt (set_players (update_nth j g (players w)) w) /\
       ((exists n, g = set_name n) \/ (exists d, g = set_pendingDirection d))).
Proof.
  unfold ServerJs.onMessage, bind at 1.
  destruct message as [|data]; cbn [JSON_parse];
    [eexists; split; [reflexivity|]; left; eexists; reflexivity|].
  unfold ret at 1. unfold bind at 1.
  destruct data as [| |b|q|s|items|kvs]; cbn [prop];
    try (eexists; split; [reflexivity|]; left; eexists; reflexivity);
    unfold ret at 1; unfold bind at 1, get at 1;
    (destruct (index_of playerId (players w)) as [j|] eqn:Hidx;
     [|eexists; split; [reflexivity|]; right; left; reflexivity]).
  1-4: cbn [is_str]; eexists; (split; [reflexivity|]); right; left;
       reflexivity.
  destruct (index_of_Some _ _ _ Hidx) as (p & Hj & _).
  set (type := match assoc "type" kvs with Some u => u | None => JUndefined end).
  destruct (is_str type "directionChange") eqn:Hdc.
  - assert (Hsn : is_str type "setName" = false).
    { destruct type; cbn in *; try reflexivity.
      apply String.eqb_eq in Hdc. now subst. }
    rewrite Hsn. eexists. split; [reflexivity|].
    right. right. exists j, p. eexists.
    split; [reflexivity|]. split; [exact Hj|]. split; [reflexivity|].
    right. eexists. reflexivity.
  - unfold bind at 1, ret at 1.
    destruct (is_str type "setName");
      [|eexists; split; [reflexivity|]; right; left; reflexivity].
    unfold bind at 1. cbn [prop]. unfold ret at 1. unfold bind at 1.
    destruct (match assoc "name" kvs with Some u => u | None => JUndefined end);
      cbn [substring_0_15];
      try (eexists; split; [reflexivity|]; left; eexists; reflexivity).
    eexists. split; [reflexivity|].
    right. right. exists j, p. eexists.
    split; [reflexivity|]. split; [exact Hj|]. split; [reflexivity|].
    left. eexists. reflexivity.
Qed.

(** X16. The handler of src/server.js catches nothing, but an exception
    leaves the world as it was: it either throws with [gameState]
    untouched (an unparseable message does, with a [SyntaxError]), or
    returns having changed at most the name or the pending heading of the
    player of the connection. *)
Theorem ServerJs_message_outcomes :
  forall (playerId : string) (message : Inbound) (e : Env) (w : World),
    match ServerJs.onMessage playerId message e w with
    | Throw _ w' => w' = w
    | Ret _ w' =>
        food w' = food w /\ gameInterval w' = gameInterval w /\
        rng w' = rng w /\
        Forall2 (message_effect playerId) (players w) (players w')
    | Diverge => False
    end /\
    ServerJs.onMessage playerId Unparseable e w = Throw SyntaxError w.
Proof.
  intros playerId message e w. split; [|reflexivity].
  assert (Hrefl : forall b, message_effect playerId b b).
  { intros b. split; [auto|]. now destruct b. }
  destruct (ServerJs_onMessage_effect playerId message e w)
    as (o & -> & [(ex & ->)|[->|(j & p & g & Hidx & Hj & -> & Hg)]]).
  - reflexivity.
  - repeat split. now apply Forall2_refl.
  - cbn [food gameInterval rng players set_players].
    do 3 (split; [reflexivity|]).
    apply (update_nth_Forall2_at _ _ _ _ p); auto.
    destruct (index_of_Some _ _ _ Hidx) as (q & Hq & Hid).
    assert (q = p) by congruence. subst q.
    split; [intros H; contradiction|].
    destruct Hg as [(n & ->)|(d & ->)]; now destruct p.
Qed.

(** X17. The handler of src/server.js stores the direction of a
    [directionChange] as it comes, the reverse of the heading included,
    and the first loop of [updateGame] makes it the heading of an alive
    player when it is truthy. *)
Theorem ServerJs_stores_any_direction :
  forall (e : Env) (w : World) (playerId : string) (j : nat) (p : Player)
         (kvs : list (string * JsVal)) (d : JsVal),
    index_of playerId (players w) = Some j ->
    nth_error (players w) j = Some p ->
    asks_direction kvs d ->
    let w1 := set_players
                (update_nth j (set_pendingDirection d) (players w)) w in
    ServerJs.onMessage playerId (Parsed (JObj kvs)) e w = Ret tt w1 /\
    exists w2 p',
      forEachPlayer ServerJs.commitDirection e w1 = Ret tt w2 /\
      nth_error (players w2) j = Some p' /\
      (alive p = true -> truthy d = true ->
       direction p' = d /\ pendingDirection p' = JNull).
Proof.
  intros e w playerId j p kvs d Hidx Hj [Htype Hdir] w1. split.
  - unfold ServerJs.onMessage, bind at 1. cbn [JSON_parse].
    unfold ret at 1. unfold bind at 1. cbn [prop]. rewrite Htype.
    unfold ret at 1. unfold bind at 1, get at 1. rewrite Hidx.
    change (is_str (JStr "directionChange") "directionChange") with true.
    change (is_str (JStr "directionChange") "setName") with false.
    cbv iota. unfold bind at 1. unfold bind at 1. cbn [prop]. rewrite Hdir.
    reflexivity.
  - change (forEachPlayer ServerJs.commitDirection)
      with (forEachPlayer Part001.commitDirection).
    rewrite commit_phase_eq. eexists. eexists. split; [reflexivity|].
    subst w1. cbn [players set_players].
    rewrite nth_error_map, nth_error_update_nth_eq, Hj. cbn [option_map].
    split; [reflexivity|]. intros Ha Ht. unfold commit1. cbn.
    rewrite Ht, Ha. cbn. auto.
Qed.

Lemma ServerJs_stores_any_direction_witness :
  ServerJs.onMessage "k3x9p2m7q"
    (Parsed (JObj [("type"%string, JStr "directionChange");
                   ("direction"%string, JStr "left")])) env0 world1
  = Ret tt (set_players
              (update_nth 0 (set_pendingDirection (JStr "left"))
                          (players world1)) world1).
Proof.
  destruct (ServerJs_stores_any_direction env0 world1 "k3x9p2m7q" 0 alice
              [("type"%string, JStr "directionChange");
               ("direction"%string, JStr "left")] (JStr "left")) as [H _].
  - reflexivity.
  - reflexivity.
  - split; reflexivity.
  - exact H.
Defined.

Lemma ServerJs_checkCollisions_same_witness :
  ServerJs.checkCollisions env0 world2 = Part001.checkCollisions env0 world2.
Proof.
  apply ServerJs_checkCollisions_same.
  - unfold ids_unique. simpl.
    repeat constructor; simpl; intuition discriminate.
  - unfold snakes_nonempty. simpl. repeat constructor; discriminate.
Defined.

Lemma ServerJs_movePlayer_eq (e : Env) (w : World) (j : nat) (p : Player)
      (h : Position) (t : list Position) (f : Position) :
  nth_error (players w) j = Some p ->
  alive p = true ->
  snake p = h :: t ->
  food w = Some f ->
  ServerJs.movePlayer j e w
  = if pos_eqb (newHead p h) f then
      match ServerJs.generateFood true e
              (set_players
                 (update_nth j
                    (fun _ => set_score (score p + 10)
                                (set_snake (newHead p h :: h :: t) p))
                    (players w)) w) with
      | Ret c w' => Ret tt (set_food (Some c) w')
      | Throw ex w' => Throw ex w'
      | Diverge => Diverge
      end
    else
      Ret tt (set_players
                (update_nth j
                   (fun _ => set_snake (newHead p h :: removelast (h :: t)) p)
                   (players w)) w).
Proof.
  intros Hj Ha Hs Hf.
  unfold ServerJs.movePlayer, withPlayer. rewrite Hj, Ha, Hs. cbn [negb].
  fold (newHead p h).
  unfold bind, modPlayer, modify, get. cbn [food players set_players].
  rewrite Hf. fold (pos_eqb (newHead p h) f).
  destruct (pos_eqb (newHead p h) f).
  - cbn [players set_players]. rewrite set_players_set_players.
    rewrite update_nth_twice.
    rewrite (update_nth_ext_at _
               (fun _ => set_score (score p + 10)
                           (set_snake (newHead p h :: h :: t) p)) _ _ p Hj)
      by (cbn; now rewrite Hs).
    reflexivity.
  - cbn [players set_players]. rewrite set_players_set_players.
    do 2 f_equal. rewrite update_nth_twice.
    apply (update_nth_ext_at _ _ _ _ p Hj). cbn. now rewrite Hs.
Qed.

(** X18. [movePlayer] of src/server.js on an alive player, the food being
    there: with the new head elsewhere the snake advances and nothing
    else changes; with the new head on the food the score grows by 10,
    the snake by the head, and the food becomes the first candidate that
    is a cell of no snake after the move; when every candidate drawn is
    on a snake the call does not return. *)
Theorem ServerJs_movePlayer_food :
  forall (e : Env) (w : World) (j : nat) (p : Player) (h : Position)
         (t : list Position) (f : Position),
    nth_error (players w) j = Some p ->
    alive p = true ->
    snake p = h :: t ->
    food w = Some f ->
    (newHead p h <> f ->
     ServerJs.movePlayer j e w
     = Ret tt (set_players
                 (update_nth j
                    (fun _ => set_snake (newHead p h :: removelast (h :: t)) p)
                    (players w)) w)) /\
    (newHead p h = f ->
     let ps1 := update_nth j
                  (fun _ => set_score (score p + 10)
                              (set_snake (newHead p h :: h :: t) p))
                  (players w) in
     (forall k,
        (k < fuel e)%nat ->
        ~ on_a_snake ps1 (candidate e (rng w) k) ->
        (forall i, (i < k)%nat -> on_a_snake ps1 (candidate e (rng w) i)) ->
        ServerJs.movePlayer j e w
        = Ret tt (mkWorld ps1 (Some (candidate e (rng w) k))
                          (gameInterval w) (rng w + 2 * S k))) /\
     ((forall i, (i < fuel e)%nat ->
         on_a_snake ps1 (candidate e (rng w) i)) ->
      ServerJs.movePlayer j e w = Diverge) /\
     (forall w',
        ServerJs.movePlayer j e w = Ret tt w' ->
        exists c, food w' = Some c /\ ~ on_a_snake (players w') c /\
                  c <> newHead p h)).
Proof.
  intros e w j p h t f Hj Ha Hs Hf.
  rewrite (ServerJs_movePlayer_eq e w j p h t f Hj Ha Hs Hf).
  split.
  - intros Hne. destruct (pos_eqb (newHead p h) f) eqn:He; [|reflexivity].
    apply pos_eqb_eq in He. contradiction.
  - intros <-. rewrite pos_eqb_refl. intros ps1.
    destruct (ServerJs_generateFood_at e (set_players ps1 w))
      as (Hret & Hfirst & Hdiv & _).
    cbn [players rng set_players] in Hret, Hfirst, Hdiv. fold ps1.
    split; [|split].
    + intros k Hk Hfree Hbefore. rewrite (Hfirst k Hk).
      * reflexivity.
      * now apply positionOccupied_not.
      * intros i Hi. apply positionOccupied_iff. now apply Hbefore.
    + intros Hall. destruct Hdiv as [_ Hdiv]. rewrite Hdiv; [reflexivity|].
      intros i Hi. apply positionOccupied_iff. now apply Hall.
    + intros w' Hrun.
      destruct (ServerJs.generateFood true e (set_players ps1 w))
        as [c w1|ex w1|] eqn:Hgen; try discriminate.
      injection Hrun as <-.
      destruct (Hret c w1 eq_refl) as (k & _ & Hc & Hfree & _ & ->).
      apply positionOccupied_not in Hfree.
      exists c. cbn [food players set_food set_rng set_players].
      split; [reflexivity|]. split; [exact Hfree|].
      intros ->. apply Hfree.
      exists (set_score (score p + 10)
                (set_snake (newHead p h :: h :: t) p)).
      split; [|now left].
      apply (nth_error_In _ j). unfold ps1.
      now rewrite nth_error_update_nth_eq, Hj.
Qed.

Lemma ServerJs_movePlayer_food_witness :
  ServerJs.movePlayer 0 env0 world1
  = Ret tt (mkWorld
              [set_score 10 (set_snake [mkPos 6 5; mkPos 5 5] alice); bob]
              (Some (mkPos 0 3)) true 2) /\
  ServerJs.movePlayer 1 env0 world2
  = Ret tt (set_players
              (update_nth 1
                 (fun _ => set_snake [mkPos 5 4; mkPos 5 5] carol)
                 (players world2)) world2).
Proof.
  split.
  - destruct (ServerJs_movePlayer_food env0 world1 0 alice (mkPos 5 5)
                [] (mkPos 6 5)) as [_ H].
    + reflexivity.
    + reflexivity.
    + reflexivity.
    + reflexivity.
    + destruct (H eq_refl) as [Hk _]. apply (Hk 0%nat).
      * simpl. lia.
      * apply positionOccupied_not. reflexivity.
      * intros i Hi. lia.
  - destruct (ServerJs_movePlayer_food env0 world2 1 carol (mkPos 5 5)
                [mkPos 5 6] (mkPos 9 9)) as [H _].
    + reflexivity.
    + reflexivity.
    + reflexivity.
    + reflexivity.
    + apply H. discriminate.
Defined.

(** ** src/unnamed/part_000: collisions and the colour server *)

Section Returns.
Variable P : Player -> Prop.
Variable R : Player -> Player -> Prop.
Hypothesis R_refl : forall p, R p p.
Hypothesis R_trans : forall p q r, R p q -> R q r -> R p r.

Lemma returns_ret {A : Type} (a : A) : returns_with P R (ret a).
Proof.
  intros e w HP. exists a, w. split; [reflexivity|].
  split; [exact HP | now apply Forall2_refl].
Qed.

Lemma returns_bind {A B : Type} (m : M A) (k : A -> M B) :
  returns_with P R m -> (forall a, returns_with P R (k a)) ->
  returns_with P R (bind m k).
Proof.
  intros Hm Hk e w HP. unfold bind.
  destruct (Hm e w HP) as (a & w1 & -> & HP1 & HR1).
  destruct (Hk a e w1 HP1) as (b & w2 & -> & HP2 & HR2).
  exists b, w2. split; [reflexivity|]. split; [exact HP2|].
  eapply Forall2_trans; eauto.
Qed.

Lemma returns_modPlayer (j : nat) (g : Player -> Player) :
  (forall p, P p -> P (g p)) -> (forall p, R p (g p)) ->
  returns_with P R (modPlayer j g).
Proof.
  intros HgP HgR e w HP. exists tt. eexists. split; [reflexivity|].
  cbn [players set_players]. split; [|now apply update_nth_Forall2].
  clear -HP HgP. revert j.
  induction HP as [|a l Ha Hl IH]; intros [|j]; cbn; constructor; auto.
Qed.

Lemma returns_withPlayer (j : nat) (k : Player -> M unit) :
  (forall p, P p -> returns_with P R (k p)) ->
  returns_with P R (withPlayer j k).
Proof.
  intros Hk e w HP. unfold withPlayer.
  destruct (nth_error (players w) j) as [p|] eqn:Hj.
  - apply Hk; [|exact HP]. rewrite Forall_forall in HP. apply HP.
    eapply nth_error_In; eauto.
  - exists tt, w. split; [reflexivity|].
    split; [exact HP | now apply Forall2_refl].
Qed.

Lemma returns_forEach_from (f : nat -> M unit) :
  (forall j, returns_with P R (f j)) ->
  forall n j, returns_with P R (forEach_from f j n).
Proof.
  intros Hf. induction n as [|n IH]; intros j; cbn [forEach_from].
  - apply returns_ret.
  - apply returns_bind; auto.
Qed.

Lemma returns_forEachPlayer (f : nat -> M unit) :
  (forall j, returns_with P R (f j)) -> returns_with P R (forEachPlayer f).
Proof.
  intros Hf e w HP. unfold forEachPlayer. now apply returns_forEach_from.
Qed.

End Returns.

Lemma reset_or_kept_refl (p : Player) : reset_or_kept p p.
Proof. split; [apply same_identity_refl|]. split; [lia | now left]. Qed.

Lemma reset_or_kept_trans (p q r : Player) :
  reset_or_kept p q -> reset_or_kept q r -> reset_or_kept p r.
Proof.
  intros (H1 & H2 & H3) (H4 & H5 & H6).
  split; [eapply same_identity_trans; eauto|]. split; [lia|].
  destruct H6 as [->|H6]; [exact H3 | now right].
Qed.

Lemma returns_resetPlayer (j : nat) :
  returns_with (fun p => snake p <> []) reset_or_kept (Part000.resetPlayer j).
Proof.
  apply returns_modPlayer.
  - apply reset_or_kept_refl.
  - intros p _. discriminate.
  - intros p. split; [repeat split|]. cbn. split; [lia|].
    right. repeat split. lia.
Qed.

Lemma returns_hitReset (j : nat) (h c : Position) :
  returns_with (fun p => snake p <> []) reset_or_kept
               (Part000.hitReset j (Some h) c).
Proof.
  unfold Part000.hitReset.
  destruct ((x h =? x c) && (y h =? y c)).
  - apply returns_resetPlayer.
  - apply returns_ret. apply reset_or_kept_refl.
Qed.

Lemma returns_selfLoop (j : nat) (h : Position) :
  forall n i,
    returns_with (fun p => snake p <> []) reset_or_kept
                 (Part000.selfLoop j (Some h) i n).
Proof.
  induction n as [|n IH]; intros i; cbn [Part000.selfLoop].
  - apply returns_ret. apply reset_or_kept_refl.
  - apply returns_withPlayer; [apply reset_or_kept_refl|]. intros p _.
    destruct (nth_error (snake p) i) as [c|].
    + apply returns_bind; [apply reset_or_kept_trans | apply returns_hitReset|].
      intros _. apply IH.
    + apply returns_ret. apply reset_or_kept_refl.
Qed.

Lemma returns_forSegments (j : nat) (h : Position) (segs : list Position) :
  returns_with (fun p => snake p <> []) reset_or_kept
               (Part000.forSegments j (Some h) segs).
Proof.
  induction segs as [|c segs IH]; cbn [Part000.forSegments].
  - apply returns_ret. apply reset_or_kept_refl.
  - apply returns_bind; [apply reset_or_kept_trans | apply returns_hitReset|].
    intros _. exact IH.
Qed.

(** X19. In a world without an empty snake [checkCollisions] of the first
    generation returns without throwing; every player is afterwards
    either as it was or back at (5,5) heading right with a score that is
    not negative; it keeps its id, name and colour, its score is not
    above the one it had (or 0 if that was negative); no snake is empty
    afterwards. *)
Theorem Part000_checkCollisions_resets :
  forall (e : Env) (w : World),
    snakes_nonempty w ->
    exists w',
      Part000.checkCollisions e w = Ret tt w' /\
      snakes_nonempty w' /\
      Forall2 reset_or_kept (players w) (players w').
Proof.
  intros e w Hne.
  assert (H : returns_with (fun p => snake p <> []) reset_or_kept
                           Part000.checkCollisions).
  { unfold Part000.checkCollisions.
    apply returns_forEachPlayer;
      [apply reset_or_kept_refl | apply reset_or_kept_trans|].
    intros j. apply returns_withPlayer; [apply reset_or_kept_refl|].
    intros p Hp. destruct (snake p) as [|h t] eqn:Hs; [congruence|].
    cbn [hd_error].
    apply returns_bind; [apply reset_or_kept_trans | apply returns_selfLoop|].
    intros _. apply returns_forEachPlayer;
      [apply reset_or_kept_refl | apply reset_or_kept_trans|].
    intros k. apply returns_withPlayer; [apply reset_or_kept_refl|].
    intros q _. destruct (negb (String.eqb (id p) (id q))).
    - apply returns_forSegments.
    - apply returns_ret. apply reset_or_kept_refl. }
  destruct (H e w Hne) as ([] & w' & Hrun & Hne' & HR).
  exists w'. auto.
Qed.

Lemma Part000_checkCollisions_resets_witness :
  exists w',
    Part000.checkCollisions env0 world2 = Ret tt w' /\
    Forall2 reset_or_kept (players world2) (players w').
Proof.
  destruct (Part000_checkCollisions_resets env0 world2) as (w' & Hrun & _ & HR).
  - unfold snakes_nonempty. simpl. repeat constructor; discriminate.
  - exists w'. auto.
Defined.

Lemma forEach_from_idle (f : nat -> M unit) (e : Env) (w : World) :
  (forall j, f j e w = Ret tt w) ->
  forall n j, forEach_from f j n e w = Ret tt w.
Proof.
  intros Hf. induction n as [|n IH]; intros j; cbn [forEach_from].
  - reflexivity.
  - unfold bind. now rewrite Hf.
Qed.

Lemma hitReset_miss (j : nat) (h c : Position) (e : Env) (w : World) :
  c <> h -> Part000.hitReset j (Some h) c e w = Ret tt w.
Proof.
  intros Hne. unfold Part000.hitReset. fold (pos_eqb h c).
  destruct (pos_eqb h c) eqn:He; [|reflexivity].
  apply pos_eqb_eq in He. congruence.
Qed.

Lemma forSegments_miss (j : nat) (h : Position) (segs : list Position)
      (e : Env) (w : World) :
  ~ In h segs -> Part000.forSegments j (Some h) segs e w = Ret tt w.
Proof.
  induction segs as [|c segs IH]; intros Hin; cbn [Part000.forSegments].
  - reflexivity.
  - unfold bind. rewrite hitReset_miss by (intros ->; apply Hin; now left).
    apply IH. intros H. apply Hin. now right.
Qed.

Lemma selfLoop_miss (j : nat) (p : Player) (h : Position) (e : Env)
      (w : World) :
  nth_error (players w) j = Some p ->
  forall n i,
    (forall i' c, (i <= i')%nat -> nth_error (snake p) i' = Some c -> c <> h) ->
    Part000.selfLoop j (Some h) i n e w = Ret tt w.
Proof.
  intros Hj. induction n as [|n IH]; intros i Hmiss; cbn [Part000.selfLoop].
  - reflexivity.
  - unfold withPlayer. rewrite Hj.
    destruct (nth_error (snake p) i) as [c|] eqn:Hc; [|reflexivity].
    unfold bind. rewrite hitReset_miss by (apply (Hmiss i c); auto).
    apply IH. intros i' c' Hi'. apply Hmiss. lia.
Qed.

(** X20. When no head is on a cell of another player nor on a later cell
    of its own snake, [checkCollisions] of the first generation returns
    the world as it was: nobody is reset. *)
Theorem Part000_checkCollisions_idle :
  forall (e : Env) (w : World),
    no_hits w -> Part000.checkCollisions e w = Ret tt w.
Proof.
  intros e w Hno. unfold Part000.checkCollisions, forEachPlayer at 1.
  apply forEach_from_idle. intros j. unfold withPlayer at 1.
  destruct (nth_error (players w) j) as [p|] eqn:Hj; [|reflexivity].
  destruct (Hno j p Hj) as (h & t & Hs & Hself & Hothers).
  rewrite Hs. cbn [hd_error]. unfold bind.
  rewrite (selfLoop_miss j p h e w Hj).
  - unfold forEachPlayer. apply forEach_from_idle. intros k.
    unfold withPlayer. destruct (nth_error (players w) k) as [q|] eqn:Hk;
      [|reflexivity].
    destruct (negb (String.eqb (id p) (id q))) eqn:Hid; [|reflexivity].
    apply forSegments_miss. apply (Hothers k q Hk).
    apply negb_true_iff, String.eqb_neq in Hid. congruence.
  - intros [|i'] c Hi' Hc; [lia|]. rewrite Hs in Hc. cbn in Hc.
    intros ->. apply Hself. eapply nth_error_In; eauto.
Qed.

Lemma Part000_checkCollisions_idle_witness :
  Part000.checkCollisions env0 world_apart = Ret tt world_apart.
Proof.
  apply Part000_checkCollisions_idle.
  intros [|[|[|j]]] p Hp; cbn in Hp; try discriminate.
  - injection Hp as <-. exists (mkPos 2 2), [mkPos 2 3].
    split; [reflexivity|]. split.
    + cbn. intuition discriminate.
    + intros [|[|[|k]]] q Hq; cbn in Hq; try discriminate;
        injection Hq as <-; cbn; intuition discriminate.
  - injection Hp as <-. exists (mkPos 8 8), [].
    split; [reflexivity|]. split.
    + cbn. tauto.
    + intros [|[|[|k]]] q Hq; cbn in Hq; try discriminate;
        injection Hq as <-; cbn; intuition discriminate.
Defined.

Lemma Toggle_run_parity (messages : list Inbound) :
  Forall handled messages ->
  forall c other : string,
    (c = "red" /\ other = "green" \/ c = "green" /\ other = "red")%string ->
    Toggle.run messages c
    = inr (if Nat.even (toggles messages) then c else other).
Proof.
  induction 1 as [|m messages Hm Hrest IH]; intros c other Hc;
    [reflexivity|].
  cbn [Toggle.run]. unfold toggles in *. cbn [filter].
  assert (Hstep : Toggle.onMessage m c
                  = inr (if has_type m "toggle" then other else c)).
  { destruct m as [|data]; [contradiction|].
    destruct data as [| |b|q|s|items|kvs]; cbn in Hm; try contradiction;
      try reflexivity.
    cbn [Toggle.onMessage has_type].
    destruct (assoc "type" kvs) as [v|]; cbn [is_str].
    - destruct (is_str v "toggle"); [|reflexivity].
      destruct Hc as [[-> ->]|[-> ->]]; reflexivity.
    - reflexivity. }
  rewrite Hstep. destruct (has_type m "toggle").
  - rewrite (IH other c) by tauto. cbn [List.length].
    rewrite Nat.even_succ, <- Nat.negb_even.
    now destruct (Nat.even _).
  - now apply IH.
Qed.

(** X21. The colour server: as long as no message makes the handler
    throw, the colour after a list of messages is red when an even
    number of them were [toggle] messages and green otherwise; the first
    message that cannot be parsed, or parses to [null], ends the run with
    an exception. *)
Theorem Toggle_colour_is_parity :
  forall messages : list Inbound,
    (Forall handled messages ->
     Toggle.run messages Toggle.initialColor
     = inr (if Nat.even (toggles messages) then "red" else "green")%string) /\
    (~ Forall handled messages ->
     exists ex, Toggle.run messages Toggle.initialColor = inl ex).
Proof.
  intros messages. split.
  - intros H. apply Toggle_run_parity; auto.
  - unfold Toggle.initialColor. generalize "red"%string as c.
    induction messages as [|m messages IH]; intros c Hnot.
    + contradiction Hnot. constructor.
    + cbn [Toggle.run].
      destruct (Toggle.onMessage m c) as [ex|c'] eqn:Hm; [eauto|].
      apply IH. intros Hall. apply Hnot. constructor; [|exact Hall].
      destruct m as [|data]; [discriminate|].
      destruct data; cbn in *; try discriminate; exact I.
Qed.

Lemma Toggle_colour_is_parity_witness :
  Toggle.run [Parsed (JObj [("type"%string, JStr "toggle")]);
              Parsed (JObj [("type"%string, JStr "ping")]);
              Parsed (JObj [("type"%string, JStr "toggle")]);
              Parsed (JObj [("type"%string, JStr "toggle")])]
             Toggle.initialColor
  = inr "green"%string.
Proof.
  destruct (Toggle_colour_is_parity
              [Parsed (JObj [("type"%string, JStr "toggle")]);
               Parsed (JObj [("type"%string, JStr "ping")]);
               Parsed (JObj [("type"%string, JStr "toggle")]);
               Parsed (JObj [("type"%string, JStr "toggle")])]) as [H _].
  apply H. repeat constructor.
Defined.

(** ** Witnesses and the close handler of src/server.js *)

Lemma reachable_well_formed_witness :
  exists w,
    Part001.run [Connect; Tick; Message "k3x9p2m7q" ask_up; Tick; Connect;
                 Tick; Close "k3x9p2m7q"]
                env0 Part001.initial = Some w /\
    well_formed w.
Proof.
  apply (reachable_well_formed
           [Connect; Tick; Message "k3x9p2m7q" ask_up; Tick; Connect;
            Tick; Close "k3x9p2m7q"] env0).
  - unfold enough_fuel. simpl. lia.
  - exact unit_random_env0.
Defined.

Lemma moveSnake_toroidal_witness :
  exists w' p' rest,
    Part000.moveSnake 0 env0 world2 = Ret tt w' /\
    nth_error (players w') 0 = Some p' /\
    snake p' = mkPos 6 5 :: rest.
Proof.
  apply (moveSnake_toroidal env0 world2 0 alice (mkPos 5 5) [] "right"
                            (mkPos 9 9)).
  - reflexivity.
  - reflexivity.
  - unfold Part000.gridSize. simpl. lia.
  - unfold Part000.gridSize. simpl. lia.
  - reflexivity.
  - unfold is_heading, directions. simpl. tauto.
  - reflexivity.
Defined.

Lemma ServerJs_generateFood_first_free_witness :
  ServerJs.generateFood true env0 world2
  = Ret (mkPos 0 3) (set_rng 2 world2) /\
  ServerJs.load env0 Part001.initial
  = Throw ReferenceError (set_rng 2 Part001.initial).
Proof.
  destruct (ServerJs_generateFood_first_free env0 world2) as (_ & _ & H & _).
  destruct (ServerJs_generateFood_first_free env0 Part001.initial)
    as (Hload & _).
  split.
  - apply (H 0%nat).
    + simpl. lia.
    + apply positionOccupied_not. reflexivity.
    + intros i Hi. lia.
  - apply Hload. simpl. lia.
Defined.

Lemma delete_player_absent (k : string) (l : list Player) :
  index_of k l = None -> delete_player k l = l.
Proof.
  unfold delete_player. induction l as [|a l IH]; cbn; [reflexivity|].
  destruct (String.eqb (id a) k); [discriminate|]. cbn.
  destruct (index_of k l); [discriminate|]. intros _. now rewrite IH.
Qed.

(** X25. The close handler of src/server.js deletes and stops the timer
    without the tests of the one of part_001, and does the same: on
    every world when the player is there, and when it is not there as
    long as the timer runs exactly when there are players. *)
Theorem ServerJs_close_agrees :
  forall (playerId : string) (e : Env) (w : World),
    index_of playerId (players w) <> None \/ timer_matches w ->
    ServerJs.onClose playerId e w = Part001.onClose playerId e w.
Proof.
  intros playerId e w H.
  unfold ServerJs.onClose, Part001.onClose, bind at 1, modify at 1.
  unfold bind at 1, get at 1. unfold bind at 1, get at 1.
  cbn [players set_players].
  destruct (index_of playerId (players w)) as [j|] eqn:Hj.
  - unfold bind at 1, modify at 1. unfold bind at 1, get at 1.
    cbn [players set_players].
    destruct (delete_player playerId (players w)); [|reflexivity].
    unfold ServerJs.stopGameLoop, Part001.stopGameLoop, bind, get, modify.
    cbn [gameInterval set_players].
    destruct w as [ps f [|] r]; reflexivity.
  - destruct H as [H|H]; [congruence|].
    rewrite (delete_player_absent _ _ Hj).
    destruct w as [ps f g r]. cbn [players set_players].
    destruct ps as [|p ps]; [|reflexivity].
    unfold ServerJs.stopGameLoop, modify. cbn.
    destruct g; [|reflexivity].
    destruct H as [H _]. cbn in H. now destruct (H eq_refl).
Qed.

Lemma ServerJs_close_agrees_witness :
  ServerJs.onClose "k3x9p2m7q" env0 world2
  = Part001.onClose "k3x9p2m7q" env0 world2.
Proof.
  apply ServerJs_close_agrees. left. simpl. discriminate.
Defined.

(** ** The reversal guard over whole runs *)

Lemma opposite_irrefl (c : JsVal) : ~ opposite c c.
Proof.
  intros [[H1 H2]|[[H1 H2]|[[H1 H2]|[H1 H2]]]]; rewrite H1 in H2;
    discriminate.
Qed.

(** C2. In every world the server reaches from its start, no player has
    the reverse of its heading pending, because the message handler
    drops a request for the reverse when it arrives (the world stays as
    it was).  So one tick leaves the heading of a player whose pending
    heading is the reverse of its heading unchanged, and more: no tick
    ever turns a heading into its reverse, and the tick after a dropped
    request leaves the heading as it was when nothing else is pending. *)
Theorem reversal_never_committed :
  forall (evs : list Event) (e : Env),
    enough_fuel e -> unit_random e ->
    exists w,
      Part001.run evs e Part001.initial = Some w /\
      forall j p,
        nth_error (players w) j = Some p ->
        (forall playerId kvs d,
           index_of playerId (players w) = Some j ->
           asks_direction kvs d -> opposite (direction p) d ->
           Part001.onMessage playerId (Parsed (JObj kvs)) e w = Ret tt w) /\
        ~ opposite (direction p) (pendingDirection p) /\
        tick_keeps_heading_on_reversal e w j /\
        exists w' p',
          Part001.dispatch Tick e w = Ret tt w' /\
          nth_error (players w') j = Some p' /\
          ~ opposite (direction p) (direction p') /\
          (truthy (pendingDirection p) = false ->
           direction p' = direction p).
Proof.
  intros evs e Hfuel Hunit.
  destruct (run_invariant well_formed e
              (fun ev w Hw => dispatch_well_formed ev e w Hfuel Hunit Hw)
              evs Part001.initial) as (w & Hrun & Hwf).
  { repeat split; constructor. }
  exists w. split; [exact Hrun|]. intros j p Hj.
  assert (Hnopp : ~ opposite (direction p) (pendingDirection p)).
  { destruct Hwf as (_ & _ & Hnr & _). rewrite Forall_forall in Hnr.
    intros H. apply opposite_reversal in H.
    specialize (Hnr p (nth_error_In _ _ Hj)).
    unfold no_reversal_pending in Hnr. congruence. }
  split; [|split; [exact Hnopp|split]].
  - intros playerId kvs d Hidx Hasks Hopp.
    now destruct (reversal_rejected_on_input e w playerId j p kvs d
                    Hfuel Hidx Hj Hasks Hopp) as [H _].
  - intros p0 Hp0 Hopp. rewrite Hj in Hp0. injection Hp0 as <-.
    contradiction.
  - destruct (tick_direction e w j p Hfuel Hj) as (w' & p' & Hrun' & Hp' & Hd).
    exists w', p'. split; [exact Hrun'|]. split; [exact Hp'|]. split.
    + destruct Hd as [->|(_ & _ & ->)];
        [apply opposite_irrefl | exact Hnopp].
    + intros Hfalsy. destruct Hd as [Hd|(Ht & _)]; [exact Hd|congruence].
Qed.

Lemma reversal_never_committed_witness :
  exists w,
    Part001.run [Connect; Tick; Message "k3x9p2m7q" ask_up; Tick]
                env0 Part001.initial = Some w /\
    forall j p,
      nth_error (players w) j = Some p ->
      ~ opposite (direction p) (pendingDirection p).
Proof.
  destruct (reversal_never_committed
              [Connect; Tick; Message "k3x9p2m7q" ask_up; Tick] env0)
    as (w & Hrun & H).
  - unfold enough_fuel. simpl. lia.
  - exact unit_random_env0.
  - exists w. split; [exact Hrun|]. intros j p Hj.
    now destruct (H j p Hj) as (_ & Hn & _).
Defined.
